(** * Segment metadata of the AOE storage engine (package [metadata])

    A shallow embedding of the [Segment] entry of the versioned metadata
    catalog: its block set and id index, the upgrade protocol, committed
    views, log entries and the rebuild after replay.  What the segment
    calls but the sources at hand do not hold (the versioned entry, the
    block, the catalog and its sequence, the log store) is modelled from
    the specification and marked so.

    Conventions of the embedding.
    - [uint64] values are [N]; Go's [int] is [Z] where a conversion is
      involved and [nat] for slice positions.
    - A pointer that may be nil is an [option]; dereferencing [None] is a
      panic.  The commit chain, a singly linked list hanging off the
      [CommitInfo] pointer of a [BaseEntry], is a [list] with the newest
      record first (the empty list is the nil pointer).
    - The Go map [IdIndex] is a [gmap]; the nil map is [None].
    - Methods run in a state monad over the segment they are called on and
      the catalog it belongs to; an outcome is a value, a panic, or a
      goroutine parked for ever on a lock. *)

From Stdlib Require Import ZArith NArith Lia.
From stdpp Require Import base option list gmap strings.

Open Scope N_scope.

(** ** Outcomes and the state monad *)

Inductive result (A : Type) : Type :=
| Ok (a : A)
| Panic (msg : string)
| Blocked.
Arguments Ok {A} a.
Arguments Panic {A} msg.
Arguments Blocked {A}.

Definition rbind {A B} (r : result A) (k : A -> result B) : result B :=
  match r with
  | Ok a => k a
  | Panic m => Panic m
  | Blocked => Blocked
  end.

Definition nil_deref : string := "invalid memory address or nil pointer dereference".

(** Dereference of a pointer. *)
Definition deref {A} (p : option A) : result A :=
  match p with
  | Some a => Ok a
  | None => Panic nil_deref
  end.

(** ** Data *)

(** [sync.RWMutex], as far as a sequential run can see it: the number of
    read locks held and whether the write lock is held. *)
Record RWMutex := { readers : nat; writer : bool }.

Definition unlocked : RWMutex := {| readers := 0; writer := false |}.

Inductive OpT := OpCreate | OpUpgradeSorted | OpSoftDelete.

Inductive IndexId := SimpleBatchId (id : N).

Definition IndexId_Id (i : IndexId) : N := match i with SimpleBatchId n => n end.

(** [ExternalIndex] and [LogIndex] name one type in the source. *)
Record LogIndex := { LogIndex_Id : IndexId }.

(** One commit record.  The link to the next older record ([SSLLNode]) is
    the tail of the list the record sits in. *)
Record CommitInfo := {
  CommitId : N;
  TranId : N;
  Op : OpT;
  ExternalIndex : option LogIndex;
  PrevIndex : option LogIndex;
  AppliedIndex : option LogIndex
}.

(** [BaseEntry]: the embedded lock, the id and the commit chain reached from
    the field [CommitInfo], newest record first. *)
Record BaseEntry := {
  Mu : RWMutex;
  Id : N;
  Commits : list CommitInfo
}.

Record Schema := {
  SegmentMaxBlocks : N;
  BlockMaxRows : N
}.

(** The process holds one catalog, the state the operations run on; a
    non-nil [*Catalog] points to it. *)
Inductive CatalogRef := catalog_ref.

(** What a segment reads through its [*Table]: the table id, the schema and
    the table's catalog pointer.  No operation of a segment writes them. *)
Record Table := {
  Table_Id : N;
  Table_Schema : Schema;
  Table_Catalog : option CatalogRef
}.

(** [Block]: [Blk_Segment] is the back-reference to the owning segment, held
    as that segment's id. *)
Record Block := {
  Blk_Base : BaseEntry;
  Count : N;
  Blk_Segment : option N
}.

Record Segment := {
  Seg_Base : BaseEntry;
  Seg_Table : option Table;
  Seg_Catalog : option CatalogRef;
  IdIndex : option (gmap N nat);
  BlockSet : list Block
}.

Inductive error := UpgradeInfullSegmentErr | UpgradeNotNeededErr.

Inductive LogEntryType :=
| ETCreateSegment | ETUpgradeSegment | ETDropSegment
| ETCreateBlock | ETUpgradeBlock | ETDropBlock
| ETOther (code : N).

(** A JSON document, the form in which [encoding/json] sees a value; its
    rendering as text is the library's. *)
#[local] Unset Elimination Schemes.
Inductive json :=
| JNull
| JNum (n : N)
| JArr (items : list json)
| JObj (fields : list (string * json)).
#[local] Set Elimination Schemes.

Record LogEntry := {
  Meta_Type : LogEntryType;
  Payload : json
}.

Record Sequence := {
  nextSegmentId : N;
  nextBlockId : N;
  nextUncommitId : N
}.

Record Catalog := {
  Seq : Sequence;
  Store : list LogEntry
}.

Global Instance OpT_eq_dec : EqDecision OpT.
Proof. solve_decision. Defined.
Global Instance IndexId_eq_dec : EqDecision IndexId.
Proof. solve_decision. Defined.
Global Instance LogIndex_eq_dec : EqDecision LogIndex.
Proof. solve_decision. Defined.
Global Instance error_eq_dec : EqDecision error.
Proof. solve_decision. Defined.
Global Instance LogEntryType_eq_dec : EqDecision LogEntryType.
Proof. solve_decision. Defined.

(** The state a method of a segment runs on. *)
Record World := { W_cat : Catalog; W_seg : Segment }.

Definition M (A : Type) : Type := World -> result (A * World).

Definition ret {A} (a : A) : M A := fun w => Ok (a, w).

Definition bind {A B} (m : M A) (k : A -> M B) : M B :=
  fun w => match m w with
           | Ok (a, w') => k a w'
           | Panic msg => Panic msg
           | Blocked => Blocked
           end.

Declare Scope go_scope.
Delimit Scope go_scope with go.
Notation "x <- m ;; k" := (bind m (fun x => k))
  (at level 100, m at next level, right associativity) : go_scope.
Notation "m ;; k" := (bind m (fun _ => k))
  (at level 100, right associativity) : go_scope.

Definition panic {A} (msg : string) : M A := fun _ => Panic msg.

(** Run a read of the segment that may panic. *)
Definition read {A} (f : Segment -> result A) : M A :=
  fun w => rbind (f (W_seg w)) (fun a => Ok (a, w)).

Definition get_seg : M Segment := fun w => Ok (W_seg w, w).
Definition put_seg (s : Segment) : M unit :=
  fun w => Ok (tt, {| W_cat := W_cat w; W_seg := s |}).
Definition get_cat : M Catalog := fun w => Ok (W_cat w, w).
Definition put_cat (c : Catalog) : M unit :=
  fun w => Ok (tt, {| W_cat := c; W_seg := W_seg w |}).

(** ** The lock of the segment *)

Definition with_mu (mu : RWMutex) (b : BaseEntry) : BaseEntry :=
  {| Mu := mu; Id := Id b; Commits := Commits b |}.

Definition with_base (b : BaseEntry) (e : Segment) : Segment :=
  {| Seg_Base := b; Seg_Table := Seg_Table e; Seg_Catalog := Seg_Catalog e;
     IdIndex := IdIndex e; BlockSet := BlockSet e |}.

Definition seg_mu (e : Segment) : RWMutex := Mu (Seg_Base e).

Definition set_seg_mu (mu : RWMutex) (e : Segment) : Segment :=
  with_base (with_mu mu (Seg_Base e)) e.

(** [RLock] parks the caller while the write lock is held. *)
Definition RLock : M unit := fun w =>
  let mu := seg_mu (W_seg w) in
  if writer mu then Blocked
  else Ok (tt, {| W_cat := W_cat w;
                  W_seg := set_seg_mu {| readers := S (readers mu); writer := false |} (W_seg w) |}).

Definition RUnlock : M unit := fun w =>
  let mu := seg_mu (W_seg w) in
  match readers mu with
  | O => Panic "sync: RUnlock of unlocked RWMutex"
  | S n => Ok (tt, {| W_cat := W_cat w;
                      W_seg := set_seg_mu {| readers := n; writer := writer mu |} (W_seg w) |})
  end.

(** [Lock] parks the caller while any lock is held. *)
Definition Lock : M unit := fun w =>
  let mu := seg_mu (W_seg w) in
  if writer mu then Blocked
  else match readers mu with
       | O => Ok (tt, {| W_cat := W_cat w;
                         W_seg := set_seg_mu {| readers := 0; writer := true |} (W_seg w) |})
       | S _ => Blocked
       end.

Definition Unlock : M unit := fun w =>
  let mu := seg_mu (W_seg w) in
  if writer mu
  then Ok (tt, {| W_cat := W_cat w;
                  W_seg := set_seg_mu {| readers := readers mu; writer := false |} (W_seg w) |})
  else Panic "sync: Unlock of unlocked RWMutex".

(** [defer cleanup] around a body that returns. *)
Definition defer {A} (cleanup : M unit) (body : M A) : M A :=
  (r <- body ;; cleanup ;; ret r)%go.

(** ** Integers *)

(** The conversion [int(x)] of a [uint64] on a 64-bit platform. *)
Definition int_of_uint64 (x : N) : Z :=
  let z := (Z.of_N x mod 2 ^ 64)%Z in
  if (z <? 2 ^ 63)%Z then z else (z - 2 ^ 64)%Z.

Definition uint64_add (x y : N) : N := (x + y) mod 2 ^ 64.

(** ** The id sequence of the catalog *)

(** Modelled from the spec: [Sequence.NextBlockId] is not among the sources;
    it allocates the next block id, monotonically, as an unsigned 64-bit
    value. *)
Definition NextBlockId (c : Catalog) : N * Catalog :=
  let id := uint64_add (nextBlockId (Seq c)) 1 in
  (id, {| Seq := {| nextSegmentId := nextSegmentId (Seq c); nextBlockId := id;
                    nextUncommitId := nextUncommitId (Seq c) |};
          Store := Store c |}).

(** Modelled from the spec: [Catalog.NextSegmentId] is not among the
    sources; it allocates the next segment id. *)
Definition NextSegmentId (c : Catalog) : N * Catalog :=
  let id := uint64_add (nextSegmentId (Seq c)) 1 in
  (id, {| Seq := {| nextSegmentId := id; nextBlockId := nextBlockId (Seq c);
                    nextUncommitId := nextUncommitId (Seq c) |};
          Store := Store c |}).

(** Modelled from the spec: [Catalog.NextUncommitId] is not among the
    sources; it allocates the next transaction id. *)
Definition NextUncommitId (c : Catalog) : N * Catalog :=
  let id := uint64_add (nextUncommitId (Seq c)) 1 in
  (id, {| Seq := {| nextSegmentId := nextSegmentId (Seq c);
                    nextBlockId := nextBlockId (Seq c); nextUncommitId := id |};
          Store := Store c |}).

(** Modelled from the spec: [Sequence.TryUpdateBlockId] is not among the
    sources; it informs the sequence of a block id in use, so that the
    generator never issues it again. *)
Definition TryUpdateBlockId (id : N) (c : Catalog) : Catalog :=
  if bool_decide (nextBlockId (Seq c) < id)
  then {| Seq := {| nextSegmentId := nextSegmentId (Seq c); nextBlockId := id;
                    nextUncommitId := nextUncommitId (Seq c) |};
          Store := Store c |}
  else c.

(** ** Versioned entries *)

(** The current commit record, [e.CommitInfo]. *)
Definition current (e : BaseEntry) : result CommitInfo :=
  deref (head (Commits e)).

(** Modelled from the spec: [BaseEntry.IsSorted] is not among the sources;
    an entry is sorted when its last commit operation is UpgradeSorted. *)
Definition BaseEntry_IsSorted (e : BaseEntry) : result bool :=
  rbind (current e) (fun c => Ok (bool_decide (Op c = OpUpgradeSorted))).

(** Modelled from the spec: [BaseEntry.IsSoftDeletedLocked] is not among the
    sources; an entry is soft-deleted when its last commit operation is
    SoftDelete. *)
Definition BaseEntry_IsSoftDeletedLocked (e : BaseEntry) : result bool :=
  rbind (current e) (fun c => Ok (bool_decide (Op c = OpSoftDelete))).

(** Modelled from the spec: [BaseEntry.onNewCommit] is not among the
    sources; it appends a record to the chain and fails with
    InvariantViolation when the commit id of the record is not greater than
    the last commit id of the chain. *)
Definition BaseEntry_onNewCommit (info : CommitInfo) (e : BaseEntry) : result BaseEntry :=
  match Commits e with
  | [] => Ok {| Mu := Mu e; Id := Id e; Commits := [info] |}
  | c :: _ =>
      if bool_decide (CommitId info <= CommitId c)
      then Panic "InvariantViolation"
      else Ok {| Mu := Mu e; Id := Id e; Commits := info :: Commits e |}
  end.

(** The records of a chain from the first one, scanning from the newest
    backward, whose commit id is at most [id]. *)
Fixpoint as_of (id : N) (chain : list CommitInfo) : list CommitInfo :=
  match chain with
  | [] => []
  | c :: older => if bool_decide (CommitId c <= id) then c :: older else as_of id older
  end.

(** Modelled from the spec: [BaseEntry.UseCommitted] is not among the
    sources; it is the as-of view, the entry at the last record with a
    commit id at most [id], or nil when the entry had not been created. *)
Definition BaseEntry_UseCommitted (id : N) (e : BaseEntry) : option BaseEntry :=
  match as_of id (Commits e) with
  | [] => None
  | chain => Some {| Mu := unlocked; Id := Id e; Commits := chain |}
  end.

(** Modelled from the spec: [BaseEntry.GetAppliedIndex] is not among the
    sources; it returns the applied index of the last record if present. *)
Definition BaseEntry_GetAppliedIndex (e : BaseEntry) : result (N * bool) :=
  rbind (current e) (fun c =>
    match AppliedIndex c with
    | Some idx => Ok (IndexId_Id (LogIndex_Id idx), true)
    | None => Ok (0, false)
    end).

(** The commit id an entry was created at: that of the oldest record. *)
Definition created_at (e : BaseEntry) : option N :=
  CommitId <$> last (Commits e).

(** ** Blocks *)

(** Modelled from the spec: [Block.IsFull] is not among the sources; a block
    is full once its row count reaches the configured capacity, which it
    reads in the schema of the table of its segment. *)
Definition Block_IsFull (sch : Schema) (b : Block) : bool :=
  bool_decide (BlockMaxRows sch <= Count b).

(** Modelled from the spec: [Block.GetAppliedIndex] is not among the
    sources; the applied index of a block is that of its entry. *)
Definition Block_GetAppliedIndex (b : Block) : result (N * bool) :=
  BaseEntry_GetAppliedIndex (Blk_Base b).

(** Modelled from the spec: [Block.CommittedView] is not among the sources;
    the block as of a commit id, or nil when it did not exist then. *)
Definition Block_CommittedView (id : N) (b : Block) : option Block :=
  match BaseEntry_UseCommitted id (Blk_Base b) with
  | None => None
  | Some base => Some {| Blk_Base := base; Count := Count b; Blk_Segment := None |}
  end.

(** Modelled from the spec: [Block.rebuild] is not among the sources; it
    reattaches the back-reference of the block to its segment. *)
Definition Block_rebuild (seg_id : N) (b : Block) : Block :=
  {| Blk_Base := Blk_Base b; Count := Count b; Blk_Segment := Some seg_id |}.

(** ** JSON *)

Definition Op_code (o : OpT) : N :=
  match o with
  | OpCreate => 0
  | OpUpgradeSorted => 1
  | OpSoftDelete => 2
  end.

Definition json_of_index (i : option LogIndex) : json :=
  match i with
  | None => JNull
  | Some x => JObj [("Id"%string, JNum (IndexId_Id (LogIndex_Id x)))]
  end.

(** Modelled from the spec: the declaration of [CommitInfo] is not among the
    sources; every field of a commit record is serialized. *)
Definition json_of_commit (c : CommitInfo) : json :=
  JObj [("CommitId"%string, JNum (CommitId c));
        ("TranId"%string, JNum (TranId c));
        ("Op"%string, JNum (Op_code (Op c)));
        ("ExternalIndex"%string, json_of_index (ExternalIndex c));
        ("PrevIndex"%string, json_of_index (PrevIndex c));
        ("AppliedIndex"%string, json_of_index (AppliedIndex c))].

(** Modelled from the spec: the declaration of [BaseEntry] is not among the
    sources; its id and its commit chain are serialized, its lock is not.
    The fields of an embedded struct are fields of the enclosing object. *)
Definition BaseEntry_fields (e : BaseEntry) : list (string * json) :=
  [("Id"%string, JNum (Id e));
   ("CommitInfo"%string, JArr (json_of_commit <$> Commits e))].

(** Modelled from the spec: the declaration of [Block] is not among the
    sources; the back-reference to the segment is not serialized. *)
Definition json_of_block (b : Block) : json :=
  JObj (BaseEntry_fields (Blk_Base b) ++ [("Count"%string, JNum (Count b))]).

(** [Segment.Marshal]: [Table], [Catalog] and [IdIndex] carry the tag
    [json:"-"].  A nil and an empty [BlockSet] are the same list here: the
    encoder writes null for a nil slice and an empty array for an empty
    one, which [Unmarshal] reads alike into a new segment. *)
Definition Marshal (e : Segment) : json :=
  JObj (BaseEntry_fields (Seg_Base e) ++
        [("BlockSet"%string, JArr (json_of_block <$> BlockSet e))]).

(** The value of a key of an object; of two equal keys the later one
    stands. *)
Fixpoint field (name : string) (fs : list (string * json)) : option json :=
  match fs with
  | [] => None
  | (k, v) :: rest =>
      match field name rest with
      | Some v' => Some v'
      | None => if bool_decide (k = name) then Some v else None
      end
  end.

(** Decoding into a [uint64] field holding [old]: a missing key and [null]
    leave the field as it is. *)
Definition dec_uint64 (old : N) (v : option json) : option N :=
  match v with
  | None | Some JNull => Some old
  | Some (JNum n) => Some n
  | Some _ => None
  end.

Definition dec_Op (old : OpT) (v : option json) : option OpT :=
  match v with
  | None | Some JNull => Some old
  | Some (JNum 0) => Some OpCreate
  | Some (JNum 1) => Some OpUpgradeSorted
  | Some (JNum 2) => Some OpSoftDelete
  | Some _ => None
  end.

(** Decoding into a [*LogIndex] field: [null] sets the pointer to nil, an
    object is decoded into the value pointed to, allocated when the pointer
    is nil. *)
Definition dec_index (old : option LogIndex) (v : option json) : option (option LogIndex) :=
  match v with
  | None => Some old
  | Some JNull => Some None
  | Some (JObj fs) =>
      let old_id := match old with Some x => IndexId_Id (LogIndex_Id x) | None => 0 end in
      id ← dec_uint64 old_id (field "Id" fs);
      Some (Some {| LogIndex_Id := SimpleBatchId id |})
  | Some _ => None
  end.

Definition zero_CommitInfo : CommitInfo :=
  {| CommitId := 0; TranId := 0; Op := OpCreate;
     ExternalIndex := None; PrevIndex := None; AppliedIndex := None |}.

Definition dec_commit (j : json) : option CommitInfo :=
  match j with
  | JNull => Some zero_CommitInfo
  | JObj fs =>
      cid ← dec_uint64 0 (field "CommitId" fs);
      tid ← dec_uint64 0 (field "TranId" fs);
      op ← dec_Op OpCreate (field "Op" fs);
      ex ← dec_index None (field "ExternalIndex" fs);
      pv ← dec_index None (field "PrevIndex" fs);
      ap ← dec_index None (field "AppliedIndex" fs);
      Some {| CommitId := cid; TranId := tid; Op := op;
              ExternalIndex := ex; PrevIndex := pv; AppliedIndex := ap |}
  | _ => None
  end.

(** Decoding the commit chain: the records are decoded in order into new
    values. *)
Definition dec_list {A} (dec : json -> option A) (old : list A) (v : option json)
  : option (list A) :=
  match v with
  | None => Some old
  | Some JNull => Some []
  | Some (JArr items) => mapM dec items
  | Some _ => None
  end.

(** Decoding an array into a slice: the element at a position is decoded
    into the element the slice has there, and into a new value past its
    end; the slice is cut to the length of the array. *)
Fixpoint dec_slice {A} (dec : A -> json -> option A) (zero : A) (old : list A)
    (items : list json) : option (list A) :=
  match items with
  | [] => Some []
  | j :: rest =>
      x ← dec (match old with o :: _ => o | [] => zero end) j;
      xs ← dec_slice dec zero (tail old) rest;
      Some (x :: xs)
  end.

Definition dec_BaseEntry (old : BaseEntry) (fs : list (string * json)) : option BaseEntry :=
  id ← dec_uint64 (Id old) (field "Id" fs);
  chain ← dec_list dec_commit (Commits old) (field "CommitInfo" fs);
  Some {| Mu := Mu old; Id := id; Commits := chain |}.

Definition zero_BaseEntry : BaseEntry :=
  {| Mu := unlocked; Id := 0; Commits := [] |}.

Definition zero_Block : Block :=
  {| Blk_Base := zero_BaseEntry; Count := 0; Blk_Segment := None |}.

(** Decoding into the block a [*Block] points to; its back-reference and
    its lock are not touched.  The block set of the model holds no nil
    pointer, so a [null] element is refused. *)
Definition dec_block (old : Block) (j : json) : option Block :=
  match j with
  | JObj fs =>
      base ← dec_BaseEntry (Blk_Base old) fs;
      cnt ← dec_uint64 (Count old) (field "Count" fs);
      Some {| Blk_Base := base; Count := cnt; Blk_Segment := Blk_Segment old |}
  | _ => None
  end.

Definition dec_BlockSet (old : list Block) (v : option json) : option (list Block) :=
  match v with
  | None => Some old
  | Some JNull => Some []
  | Some (JArr items) => dec_slice dec_block zero_Block old items
  | Some _ => None
  end.

(** [Segment.Unmarshal]: [json.Unmarshal] into the segment [e]; [None] is
    the error of the decoder.  The fields tagged [json:"-"] and the lock
    keep the values [e] has. *)
Definition Unmarshal (buf : json) (e : Segment) : option Segment :=
  match buf with
  | JNull => Some e
  | JObj fs =>
      base ← dec_BaseEntry (Seg_Base e) fs;
      blks ← dec_BlockSet (BlockSet e) (field "BlockSet" fs);
      Some {| Seg_Base := base; Seg_Table := Seg_Table e; Seg_Catalog := Seg_Catalog e;
              IdIndex := IdIndex e; BlockSet := blks |}
  | _ => None
  end.

(** The segment [&Segment{}]. *)
Definition zero_Segment : Segment :=
  {| Seg_Base := zero_BaseEntry; Seg_Table := None; Seg_Catalog := None;
     IdIndex := None; BlockSet := [] |}.

(** [segmentLogEntry]; its [Catalog] carries the tag [json:"-"]. *)
Record segmentLogEntry := {
  SLE_BaseEntry : BaseEntry;
  SLE_TableId : N;
  SLE_Catalog : option CatalogRef
}.

Definition segmentLogEntry_Marshal (e : segmentLogEntry) : json :=
  JObj (BaseEntry_fields (SLE_BaseEntry e) ++ [("TableId"%string, JNum (SLE_TableId e))]).

Definition segmentLogEntry_Unmarshal (buf : json) (e : segmentLogEntry)
  : option segmentLogEntry :=
  match buf with
  | JNull => Some e
  | JObj fs =>
      base ← dec_BaseEntry (SLE_BaseEntry e) fs;
      tid ← dec_uint64 (SLE_TableId e) (field "TableId" fs);
      Some {| SLE_BaseEntry := base; SLE_TableId := tid; SLE_Catalog := SLE_Catalog e |}
  | _ => None
  end.

(** ** Log entries and the commit of the catalog *)

(** Modelled from the spec: the log store is not among the sources; an
    empty entry receives its type and the serialized record. *)
Definition make_LogEntry (eType : LogEntryType) (buf : json) : LogEntry :=
  {| Meta_Type := eType; Payload := buf |}.

(** [IEntry]: what the catalog asks of an entry it commits. *)
Class IEntry (A : Type) := entry_ToLogEntry : LogEntryType -> A -> result LogEntry.

(** Modelled from the spec: [Catalog.Commit] is not among the sources; it
    serializes the log-entry projection of the entry and hands it to the log
    store for append.  It performs no mutation of the entry. *)
Definition Catalog_Commit {A} `{IEntry A} (entry : A) (eType : LogEntryType) (c : Catalog)
  : result Catalog :=
  rbind (entry_ToLogEntry eType entry) (fun le =>
    Ok {| Seq := Seq c; Store := Store c ++ [le] |}).

(** Modelled from the spec: [Block.ToLogEntry] is not among the sources; the
    entry carries the projection of the block and the id of its segment. *)
Definition Block_ToLogEntry (eType : LogEntryType) (b : Block) : result LogEntry :=
  rbind (deref (Blk_Segment b)) (fun seg_id =>
    Ok (make_LogEntry eType
          (JObj (BaseEntry_fields (Blk_Base b) ++ [("SegmentId"%string, JNum seg_id)])))).

Global Instance Block_IEntry : IEntry Block := Block_ToLogEntry.

(** ** Segments *)

Definition newSegmentEntry (catalog : option CatalogRef) (table : Table)
    (tranId : N) (exIndex : option LogIndex) (c : Catalog) : result (Segment * Catalog) :=
  rbind (deref (Table_Catalog table)) (fun _ =>
    let '(id, c') := NextSegmentId c in
    Ok ({| Seg_Base := {| Mu := unlocked; Id := id;
                          Commits := [{| CommitId := tranId; TranId := tranId;
                                         Op := OpCreate; ExternalIndex := exIndex;
                                         PrevIndex := None; AppliedIndex := None |}] |};
           Seg_Table := Some table; Seg_Catalog := catalog;
           IdIndex := Some ∅; BlockSet := [] |}, c')).

Definition newCommittedSegmentEntry (catalog : option CatalogRef) (table : Table)
    (base : BaseEntry) : Segment :=
  {| Seg_Base := base; Seg_Table := Some table; Seg_Catalog := catalog;
     IdIndex := Some ∅; BlockSet := [] |}.

(** The loop of [rebuild] from position [i] on. *)
Fixpoint rebuild_range (e_cat : option CatalogRef) (e_id : N) (i : nat) (blks : list Block)
    (c : Catalog) (idx : gmap N nat) : result (list Block * Catalog * gmap N nat) :=
  match blks with
  | [] => Ok ([], c, idx)
  | blk :: rest =>
      rbind (deref e_cat) (fun _ =>
        let c1 := TryUpdateBlockId (Id (Blk_Base blk)) c in
        let blk' := Block_rebuild e_id blk in
        let idx1 := <[Id (Blk_Base blk) := i]> idx in
        rbind (rebuild_range e_cat e_id (S i) rest c1 idx1) (fun '(rest', c2, idx2) =>
          Ok (blk' :: rest', c2, idx2)))
  end.

Definition rebuild (table : Table) : M unit := fun w =>
  let e := W_seg w in
  let e_cat := Table_Catalog table in
  rbind (rebuild_range e_cat (Id (Seg_Base e)) 0 (BlockSet e) (W_cat w) ∅)
    (fun '(blks, c, idx) =>
       Ok (tt, {| W_cat := c;
                  W_seg := {| Seg_Base := Seg_Base e; Seg_Table := Some table;
                              Seg_Catalog := e_cat; IdIndex := Some idx;
                              BlockSet := blks |} |})).

(** The second loop of [CommittedView]. *)
Fixpoint view_range (id : N) (blks : list Block) (acc : list Block) : list Block :=
  match blks with
  | [] => acc
  | blk :: rest =>
      match Block_CommittedView id blk with
      | None => view_range id rest acc
      | Some blkView => view_range id rest (acc ++ [blkView])
      end
  end.

Definition CommittedView (id : N) : M (option Segment) :=
  (e <- get_seg ;;
   match BaseEntry_UseCommitted id (Seg_Base e) with
   | None => ret None
   | Some baseEntry =>
       let view := {| Seg_Base := baseEntry; Seg_Table := None; Seg_Catalog := None;
                      IdIndex := None; BlockSet := [] |} in
       RLock ;;
       blks <- read (fun e => Ok (BlockSet e)) ;;
       RUnlock ;;
       ret (Some {| Seg_Base := Seg_Base view; Seg_Table := Seg_Table view;
                    Seg_Catalog := Seg_Catalog view; IdIndex := IdIndex view;
                    BlockSet := view_range id blks (BlockSet view) |})
   end)%go.

Definition toLogEntry (e : Segment) : result segmentLogEntry :=
  rbind (deref (Seg_Table e)) (fun t =>
    Ok {| SLE_BaseEntry := Seg_Base e; SLE_TableId := Table_Id t; SLE_Catalog := None |}).

Definition ToLogEntry (eType : LogEntryType) (e : Segment) : result LogEntry :=
  let continue :=
    rbind (toLogEntry e) (fun entry =>
      let buf := segmentLogEntry_Marshal entry in
      Ok (make_LogEntry eType buf)) in
  match eType with
  | ETCreateSegment => continue
  | ETUpgradeSegment => continue
  | ETDropSegment =>
      rbind (BaseEntry_IsSoftDeletedLocked (Seg_Base e)) (fun deleted =>
        if negb deleted then Panic "logic error" else continue)
  | _ => Panic "not supported"
  end.

Global Instance Segment_IEntry : IEntry Segment := ToLogEntry.

(** Run [Catalog.Commit] reached through the pointer [p]. *)
Definition commit_through {A} `{IEntry A} (p : option CatalogRef) (entry : A)
    (eType : LogEntryType) : M unit := fun w =>
  rbind (deref p) (fun _ =>
    rbind (Catalog_Commit entry eType (W_cat w)) (fun c =>
      Ok (tt, {| W_cat := c; W_seg := W_seg w |}))).

(** Modelled from the spec: [newBlockEntry] is not among the sources; it
    allocates a new id from the catalog and makes an empty block with
    operation Create, as [newSegmentEntry] does for a segment. *)
Definition newBlockEntry (tranId : N) (exIndex : option LogIndex) : M Block := fun w =>
  let e := W_seg w in
  rbind (deref (Seg_Table e)) (fun t =>
    rbind (deref (Table_Catalog t)) (fun _ =>
      let '(id, c') := NextBlockId (W_cat w) in
      Ok ({| Blk_Base := {| Mu := unlocked; Id := id;
                            Commits := [{| CommitId := tranId; TranId := tranId;
                                           Op := OpCreate; ExternalIndex := exIndex;
                                           PrevIndex := None; AppliedIndex := None |}] |};
             Count := 0; Blk_Segment := Some (Id (Seg_Base e)) |},
          {| W_cat := c'; W_seg := e |}))).

Definition onNewBlock (entry : Block) : M unit := fun w =>
  let e := W_seg w in
  match IdIndex e with
  | None => Panic "assignment to entry in nil map"
  | Some idx =>
      Ok (tt, {| W_cat := W_cat w;
                 W_seg := {| Seg_Base := Seg_Base e; Seg_Table := Seg_Table e;
                             Seg_Catalog := Seg_Catalog e;
                             IdIndex := Some (<[Id (Blk_Base entry) := length (BlockSet e)]> idx);
                             BlockSet := BlockSet e ++ [entry] |} |})
  end.

Definition CreateBlock (tranId : N) (exIndex : option LogIndex) (autoCommit : bool)
  : M Block :=
  (be <- newBlockEntry tranId exIndex ;;
   Lock ;;
   onNewBlock be ;;
   Unlock ;;
   if negb autoCommit then ret be
   else (e <- get_seg ;;
         commit_through (Seg_Catalog e) be ETCreateBlock ;;
         ret be))%go.

(** [e.Table.Catalog.NextUncommitId()] *)
Definition next_uncommit_id : M N := fun w =>
  rbind (deref (Seg_Table (W_seg w))) (fun t =>
    rbind (deref (Table_Catalog t)) (fun _ =>
      let '(id, c') := NextUncommitId (W_cat w) in
      Ok (id, {| W_cat := c'; W_seg := W_seg w |}))).

Definition SimpleCreateBlock (exIndex : option LogIndex) : M Block :=
  (tranId <- next_uncommit_id ;; CreateBlock tranId exIndex true)%go.

Definition BlockSet_last (e : Segment) : result Block :=
  match last (BlockSet e) with
  | Some b => Ok b
  | None => Panic "index out of range [-1]"
  end.

Definition HasMaxBlocks (e : Segment) : result bool :=
  rbind (BaseEntry_IsSorted (Seg_Base e)) (fun sorted =>
    if sorted then Ok true
    else rbind (deref (Seg_Table e)) (fun t =>
           Ok (bool_decide (Z.of_nat (length (BlockSet e))
                            = int_of_uint64 (SegmentMaxBlocks (Table_Schema t)))))).

Definition Appendable : M bool :=
  (RLock ;;
   defer RUnlock
     (has <- read HasMaxBlocks ;;
      if has
      then (blk <- read BlockSet_last ;;
            t <- read (fun e => deref (Seg_Table e)) ;;
            ret (negb (Block_IsFull (Table_Schema t) blk)))
      else ret true))%go.

(** The loop of [calcAppliedIndex] over the blocks still to visit, newest
    first; [id] and [ok] are the named results. *)
Fixpoint calc_range (newest_first : list Block) (id : N) (ok : bool) : result (N * bool) :=
  match newest_first with
  | [] => Ok (id, ok)
  | blk :: older =>
      rbind (Block_GetAppliedIndex blk) (fun '(id', ok') =>
        if ok' then Ok (id', ok') else calc_range older id' ok')
  end.

Definition calcAppliedIndex (e : Segment) : result (N * bool) :=
  calc_range (rev (BlockSet e)) 0 false.

(** [rwmtx_nil] tells whether the argument [rwmtx] is nil. *)
Definition GetAppliedIndex (rwmtx_nil : bool) : M (N * bool) :=
  let body :=
    (sorted <- read (fun e => BaseEntry_IsSorted (Seg_Base e)) ;;
     if sorted then read (fun e => BaseEntry_GetAppliedIndex (Seg_Base e))
     else read calcAppliedIndex)%go in
  if rwmtx_nil then (RLock ;; defer RUnlock body)%go else body.

(** The loop of [Upgrade] over the block set: is every block full? *)
Fixpoint range_all_full (sch : Schema) (blks : list Block) : bool :=
  match blks with
  | [] => true
  | blk :: rest => if negb (Block_IsFull sch blk) then false else range_all_full sch rest
  end.

Definition set_commit (info : CommitInfo) : M unit := fun w =>
  rbind (BaseEntry_onNewCommit info (Seg_Base (W_seg w))) (fun b =>
    Ok (tt, {| W_cat := W_cat w; W_seg := with_base b (W_seg w) |})).

(** The commit record [Upgrade] builds under the exclusive lock.  A nil
    [exIndice] is [None]. *)
Definition upgrade_info (tranId : N) (newOp : OpT) (exIndice : option (list (option LogIndex)))
  : M CommitInfo :=
  match exIndice with
  | None =>
      (r <- read calcAppliedIndex ;;
       let '(id, ok) := r in
       ret {| CommitId := tranId; TranId := tranId; Op := newOp;
              ExternalIndex := None; PrevIndex := None;
              AppliedIndex := if ok
                              then Some {| LogIndex_Id := SimpleBatchId id |}
                              else None |})%go
  | Some [] => panic "index out of range [0] with length 0"
  | Some (x0 :: rest) =>
      ret {| CommitId := tranId; TranId := tranId; Op := newOp;
             ExternalIndex := x0;
             PrevIndex := match rest with x1 :: _ => x1 | [] => None end;
             AppliedIndex := None |}
  end.

Definition Upgrade (tranId : N) (exIndice : option (list (option LogIndex)))
    (autoCommit : bool) : M (option error) :=
  (RLock ;;
   has <- read HasMaxBlocks ;;
   if negb has then (RUnlock ;; ret (Some UpgradeInfullSegmentErr))
   else
     sorted <- read (fun e => BaseEntry_IsSorted (Seg_Base e)) ;;
     if sorted then ret (Some UpgradeNotNeededErr)
     else
       (* a block reads the capacity through its segment's table *)
       t <- read (fun e => deref (Seg_Table e)) ;;
       full <- read (fun e => Ok (range_all_full (Table_Schema t) (BlockSet e))) ;;
       if negb full then ret (Some UpgradeInfullSegmentErr)
       else
         RUnlock ;;
         Lock ;;
         defer Unlock
           (c <- read (fun e => current (Seg_Base e)) ;;
            match Op c with
            | OpCreate =>
                cInfo <- upgrade_info tranId OpUpgradeSorted exIndice ;;
                set_commit cInfo ;;
                if negb autoCommit then ret None
                else (e <- get_seg ;;
                      commit_through (Table_Catalog t) e ETUpgradeSegment ;;
                      ret None)
            | _ => ret (Some UpgradeNotNeededErr)
            end))%go.

Definition SimpleUpgrade (exIndice : option (list (option LogIndex))) : M (option error) :=
  (tranId <- next_uncommit_id ;; Upgrade tranId exIndice true)%go.

Definition GetBlock (id tranId : N) (e : Segment) : result (option Block) :=
  match IdIndex e ≫= (.!! id) with
  | None => Ok None
  | Some pos =>
      match BlockSet e !! pos with
      | Some entry => Ok (Some entry)
      | None => Panic "index out of range"
      end
  end.

Section NextBlock.

(** [Block.Less] is not among the sources and the spec is silent on it:
    the order of blocks is a parameter.  Its receiver may be nil. *)
Variable Less : option Block -> Block -> bool.

(** The loop of [SimpleGetOrCreateNextBlock] over the blocks still to
    visit, newest first. *)
Fixpoint next_range (from : option Block) (sch : Schema) (newest_first : list Block)
    (found : option Block) : option Block :=
  match newest_first with
  | [] => found
  | blk :: older =>
      if negb (Block_IsFull sch blk) && Less from blk
      then next_range from sch older (Some blk)
      else found
  end.

Definition SimpleGetOrCreateNextBlock (from : option Block) : M (option Block) :=
  (e <- get_seg ;;
   if bool_decide (length (BlockSet e) = 0%nat)
   then (b <- SimpleCreateBlock None ;; ret (Some b))
   else
     (* a block reads the capacity through its segment's table *)
     t <- read (fun e => deref (Seg_Table e)) ;;
     let found := next_range from (Table_Schema t) (rev (BlockSet e)) None in
     match found with
     | Some _ => ret found
     | None =>
         has <- read HasMaxBlocks ;;
         if has then ret found
         else (b <- SimpleCreateBlock None ;; ret (Some b))
     end)%go.

End NextBlock.

(** ** Predicates of the statements *)

Definition is_uint64 (n : N) : Prop := n < 2 ^ 64.

(** The length of a slice is an [int]. *)
Definition is_int_len (n : nat) : Prop := (Z.of_nat n < 2 ^ 63)%Z.

Definition lock_free (e : Segment) : Prop := seg_mu e = unlocked.

(** The last commit operation of an entry, when it has a commit record. *)
Definition last_op (e : BaseEntry) : option OpT := Op <$> head (Commits e).

Definition block_id (b : Block) : N := Id (Blk_Base b).

Definition block_count (e : Segment) : N := N.of_nat (length (BlockSet e)).

Definition max_blocks (t : Table) : N := SegmentMaxBlocks (Table_Schema t).

(** The applied index a block has, if it has one. *)
Definition block_applied (b : Block) : option N :=
  c ← head (Commits (Blk_Base b));
  idx ← AppliedIndex c;
  Some (IndexId_Id (LogIndex_Id idx)).

(** The commit ids of a chain grow strictly from the oldest record to the
    newest. *)
Fixpoint chain_ordered (chain : list CommitInfo) : Prop :=
  match chain with
  | [] => True
  | c :: older =>
      match older with
      | [] => True
      | c' :: _ => CommitId c' < CommitId c
      end /\ chain_ordered older
  end.

(** Every block id maps to the position of its block, and the index holds
    nothing else. *)
Definition index_consistent (e : Segment) : Prop :=
  exists idx, IdIndex e = Some idx
    /\ (forall i blk, BlockSet e !! i = Some blk -> idx !! block_id blk = Some i)
    /\ (forall id i, idx !! id = Some i ->
          exists blk, BlockSet e !! i = Some blk /\ block_id blk = id).

(** What of a block is serialized. *)
Definition block_content (b : Block) : N * list CommitInfo * N :=
  (Id (Blk_Base b), Commits (Blk_Base b), Count b).

(** The claim that a sorted segment refuses a new block. *)
Definition sorted_refuses_CreateBlock : Prop :=
  forall (w : World) (tranId : N) (exIndex : option LogIndex) (autoCommit : bool),
    last_op (Seg_Base (W_seg w)) = Some OpUpgradeSorted ->
    forall be w', CreateBlock tranId exIndex autoCommit w <> Ok (be, w').

(** ** Runs of operations on a segment *)

Inductive call :=
| Call_CreateBlock (tranId : N) (exIndex : option LogIndex) (autoCommit : bool)
| Call_SimpleCreateBlock (exIndex : option LogIndex)
| Call_Upgrade (tranId : N) (exIndice : option (list (option LogIndex))) (autoCommit : bool)
| Call_SimpleUpgrade (exIndice : option (list (option LogIndex)))
| Call_AppendRows (pos : nat) (rows : N).

(** Rows written into the block at [pos] by the storage layer: the row
    count of the block grows. *)
Definition append_rows (pos : nat) (rows : N) : M unit := fun w =>
  let e := W_seg w in
  match BlockSet e !! pos with
  | None => Panic "index out of range"
  | Some b =>
      Ok (tt, {| W_cat := W_cat w;
                 W_seg := {| Seg_Base := Seg_Base e; Seg_Table := Seg_Table e;
                             Seg_Catalog := Seg_Catalog e; IdIndex := IdIndex e;
                             BlockSet := <[pos := {| Blk_Base := Blk_Base b;
                                                     Count := uint64_add (Count b) rows;
                                                     Blk_Segment := Blk_Segment b |}]>
                                           (BlockSet e) |} |})
  end.

Definition run_call (c : call) : M unit :=
  match c with
  | Call_CreateBlock tranId exIndex autoCommit =>
      (CreateBlock tranId exIndex autoCommit ;; ret tt)%go
  | Call_SimpleCreateBlock exIndex => (SimpleCreateBlock exIndex ;; ret tt)%go
  | Call_Upgrade tranId exIndice autoCommit =>
      (Upgrade tranId exIndice autoCommit ;; ret tt)%go
  | Call_SimpleUpgrade exIndice => (SimpleUpgrade exIndice ;; ret tt)%go
  | Call_AppendRows pos rows => append_rows pos rows
  end.

(** A call respects the maximum of the schema when it creates a block only
    under a segment that has fewer blocks than the maximum. *)
Definition respects (c : call) (w : World) : Prop :=
  match c with
  | Call_CreateBlock _ _ _ | Call_SimpleCreateBlock _ =>
      exists t, Seg_Table (W_seg w) = Some t
        /\ block_count (W_seg w) < max_blocks t
        /\ is_int_len (S (length (BlockSet (W_seg w))))
  | _ => True
  end.

Definition step (w : World) (c : call) (w' : World) : Prop :=
  respects c w /\ run_call c w = Ok (tt, w').

(** A segment as [newSegmentEntry] makes it. *)
Definition created (w : World) : Prop :=
  exists catalog table tranId exIndex c0,
    is_uint64 (max_blocks table) /\
    newSegmentEntry catalog table tranId exIndex c0 = Ok (W_seg w, W_cat w).

Inductive reachable : World -> Prop :=
| reachable_created w : created w -> reachable w
| reachable_step w c w' : reachable w -> step w c w' -> reachable w'.

(** A run of calls, one after the other. *)
Inductive run : World -> list call -> World -> Prop :=
| run_nil w : run w [] w
| run_cons w c w1 cs w' : step w c w1 -> run w1 cs w' -> run w (c :: cs) w'.

Definition has_max_blocks (w : World) : Prop := HasMaxBlocks (W_seg w) = Ok true.

(** The commit record a successful [Upgrade] appends to the chain of [e]. *)
Definition upgraded_info (tranId : N) (exIndice : option (list (option LogIndex)))
    (e : Segment) (info : CommitInfo) : Prop :=
  CommitId info = tranId /\ TranId info = tranId /\ Op info = OpUpgradeSorted /\
  match exIndice with
  | None =>
      exists id ok, calcAppliedIndex e = Ok (id, ok) /\
        ExternalIndex info = None /\ PrevIndex info = None /\
        AppliedIndex info = if ok then Some {| LogIndex_Id := SimpleBatchId id |} else None
  | Some [] => False
  | Some (x0 :: rest) =>
      ExternalIndex info = x0 /\
      PrevIndex info = match rest with x1 :: _ => x1 | [] => None end /\
      AppliedIndex info = None
  end.

(** What [Upgrade] needs of a segment and of its arguments to run to its
    end: the table and, for an automatic commit, its catalog are attached;
    a list of indices that is passed is not empty, and when none is passed
    every block has a commit record to read its applied index from. *)
Definition upgradable (e : Segment) (t : Table)
    (exIndice : option (list (option LogIndex))) (autoCommit : bool) : Prop :=
  Seg_Table e = Some t /\
  (autoCommit = true -> Table_Catalog t = Some catalog_ref) /\
  (exIndice = None -> Forall (fun b => Commits (Blk_Base b) <> []) (BlockSet e)) /\
  exIndice <> Some [] /\
  is_int_len (length (BlockSet e)) /\
  is_uint64 (max_blocks t).

Definition all_full (e : Segment) (t : Table) : Prop :=
  Forall (fun b => Block_IsFull (Table_Schema t) b = true) (BlockSet e).

(** ** Sample segments *)

Definition sample_table : Table :=
  {| Table_Id := 7;
     Table_Schema := {| SegmentMaxBlocks := 2; BlockMaxRows := 4 |};
     Table_Catalog := Some catalog_ref |}.

Definition sample_catalog : Catalog :=
  {| Seq := {| nextSegmentId := 1; nextBlockId := 2; nextUncommitId := 3 |};
     Store := [] |}.

Definition create_info (tranId : N) : CommitInfo :=
  {| CommitId := tranId; TranId := tranId; Op := OpCreate;
     ExternalIndex := None; PrevIndex := None; AppliedIndex := None |}.

Definition sample_block (id tranId rows : N) : Block :=
  {| Blk_Base := {| Mu := unlocked; Id := id; Commits := [create_info tranId] |};
     Count := rows; Blk_Segment := Some 1 |}.

Definition sample_world (idx : gmap N nat) (blks : list Block) : World :=
  {| W_cat := sample_catalog;
     W_seg := {| Seg_Base := {| Mu := unlocked; Id := 1; Commits := [create_info 1] |};
                 Seg_Table := Some sample_table;
                 Seg_Catalog := Some catalog_ref;
                 IdIndex := Some idx;
                 BlockSet := blks |} |}.

(** Two full blocks under a maximum of two. *)
Definition sample_full : World :=
  sample_world {[ 1 := 0%nat; 2 := 1%nat ]} [sample_block 1 2 4; sample_block 2 3 4].

(** Two blocks, the second one not full. *)
Definition sample_half : World :=
  sample_world {[ 1 := 0%nat; 2 := 1%nat ]} [sample_block 1 2 4; sample_block 2 3 1].

(** One full block under a maximum of two. *)
Definition sample_one : World :=
  sample_world {[ 1 := 0%nat ]} [sample_block 1 2 4].

(** [sample_full] after [Upgrade 10 nil false]. *)
Definition sample_sorted : World :=
  {| W_cat := sample_catalog;
     W_seg := {| Seg_Base :=
                   {| Mu := unlocked; Id := 1;
                      Commits := [{| CommitId := 10; TranId := 10; Op := OpUpgradeSorted;
                                     ExternalIndex := None; PrevIndex := None;
                                     AppliedIndex := None |};
                                  create_info 1] |};
                 Seg_Table := Some sample_table;
                 Seg_Catalog := Some catalog_ref;
                 IdIndex := Some {[ 1 := 0%nat; 2 := 1%nat ]};
                 BlockSet := [sample_block 1 2 4; sample_block 2 3 4] |} |}.

(** Two blocks, the older one with an applied index. *)
Definition sample_applied : World :=
  sample_world {[ 1 := 0%nat; 2 := 1%nat ]}
    [{| Blk_Base := {| Mu := unlocked; Id := 1;
                       Commits := [{| CommitId := 2; TranId := 2; Op := OpCreate;
                                      ExternalIndex := None; PrevIndex := None;
                                      AppliedIndex :=
                                        Some {| LogIndex_Id := SimpleBatchId 5 |} |}] |};
        Count := 4; Blk_Segment := Some 1 |};
     sample_block 2 3 4].

(** What holds of a segment along a run that respects the maximum: it has
    a table and a commit record, at most the maximum of blocks, and exactly
    the maximum once it is sorted. *)
Definition run_inv (w : World) : Prop :=
  exists t c older,
    Seg_Table (W_seg w) = Some t /\ is_uint64 (max_blocks t) /\
    Commits (Seg_Base (W_seg w)) = c :: older /\
    is_int_len (length (BlockSet (W_seg w))) /\
    block_count (W_seg w) <= max_blocks t /\
    (Op c = OpUpgradeSorted -> block_count (W_seg w) = max_blocks t).

(** A new segment under [sample_table]. *)
Definition sample_new : World :=
  {| W_cat := {| Seq := {| nextSegmentId := 1; nextBlockId := 0; nextUncommitId := 1 |};
                 Store := [] |};
     W_seg := {| Seg_Base := {| Mu := unlocked; Id := 1; Commits := [create_info 1] |};
                 Seg_Table := Some sample_table;
                 Seg_Catalog := Some catalog_ref;
                 IdIndex := Some ∅;
                 BlockSet := [] |} |}.

Definition after (c : call) (w : World) : World :=
  match run_call c w with
  | Ok (_, w') => w'
  | _ => w
  end.

(** The block at position 1 was created at commit 3, after commit 2. *)
Definition sample_view_blocks : list Block :=
  [{| Blk_Base := {| Mu := unlocked; Id := 1; Commits := [create_info 2] |};
      Count := 4; Blk_Segment := None |}].

(** The index [rebuild] makes of the block ids from position [i] on, and
    the catalog once its sequence has been told of them. *)
Fixpoint index_from (i : nat) (ids : list N) (idx : gmap N nat) : gmap N nat :=
  match ids with
  | [] => idx
  | id :: rest => index_from (S i) rest (<[id := i]> idx)
  end.

Fixpoint informed (ids : list N) (c : Catalog) : Catalog :=
  match ids with
  | [] => c
  | id :: rest => informed rest (TryUpdateBlockId id c)
  end.

(** The block [b] as it comes out of the decoder that wrote it into [old]:
    the lock and the back-reference are those of [old]. *)
Definition decoded_into (old b : Block) : Block :=
  {| Blk_Base := {| Mu := Mu (Blk_Base old); Id := Id (Blk_Base b);
                    Commits := Commits (Blk_Base b) |};
     Count := Count b; Blk_Segment := Blk_Segment old |}.

Fixpoint decoded_blocks (old blks : list Block) : list Block :=
  match blks with
  | [] => []
  | b :: rest =>
      decoded_into (match old with o :: _ => o | [] => zero_Block end) b
      :: decoded_blocks (tail old) rest
  end.

(** [sample_full] serialized, deserialized into a new segment, not yet
    rebuilt, in a process whose catalog is new. *)
Definition sample_decoded : World :=
  {| W_cat := {| Seq := {| nextSegmentId := 0; nextBlockId := 0; nextUncommitId := 0 |};
                 Store := [] |};
     W_seg := default zero_Segment (Unmarshal (Marshal (W_seg sample_full)) zero_Segment) |}.

(** ** Further operations of the segment *)

(** [MinUncommitId] is a constant of the package that is not among the
    sources; [GetBlock] does not read its second argument. *)
Definition SimpleGetBlock (MinUncommitId : N) (id : N) : M (option Block) :=
  (RLock ;; defer RUnlock (read (GetBlock id MinUncommitId)))%go.

(** The loop of [FirstInFullBlock] over the blocks still to visit, newest
    first. *)
Fixpoint first_infull_range (sch : Schema) (newest_first : list Block)
    (found : option Block) : option Block :=
  match newest_first with
  | [] => found
  | blk :: older =>
      if negb (Block_IsFull sch blk)
      then first_infull_range sch older (Some blk)
      else found
  end.

Definition FirstInFullBlock (e : Segment) : result (option Block) :=
  if bool_decide (length (BlockSet e) = 0%nat) then Ok None
  else
    (* a block reads the capacity through its segment's table *)
    rbind (deref (Seg_Table e)) (fun t =>
      Ok (first_infull_range (Table_Schema t) (rev (BlockSet e)) None)).

(** The loop of [GetReplayIndex] over the blocks still to visit, newest
    first.  The capacity is read, through the table, only for a block that
    has an external index and no row. *)
Fixpoint replay_range (table : option Table) (newest_first : list Block)
    : result (option LogIndex) :=
  match newest_first with
  | [] => Ok None
  | blk :: older =>
      rbind (current (Blk_Base blk)) (fun c =>
        match ExternalIndex c with
        | None => replay_range table older
        | Some ex =>
            if bool_decide (0 < Count blk) then Ok (Some ex)
            else rbind (deref table) (fun t =>
                   if Block_IsFull (Table_Schema t) blk then Ok (Some ex)
                   else replay_range table older)
        end)
  end.

Definition GetReplayIndex (e : Segment) : result (option LogIndex) :=
  replay_range (Seg_Table e) (rev (BlockSet e)).

(** The fields of [common.ID] that [AsCommonID] sets. *)
Record CommonID := { TableID : N; SegmentID : N }.

Definition AsCommonID (e : Segment) : result CommonID :=
  rbind (deref (Seg_Table e)) (fun t =>
    Ok {| TableID := Table_Id t; SegmentID := Id (Seg_Base e) |}).

Section Printing.

(** [BaseEntry.PString], [Block.PString] and the level [PPL0] are not among
    the sources: the renderings of the parts are parameters. *)
Variable PPL0 : N.
Variable BaseEntry_PString : N -> BaseEntry -> string.
Variable Block_PString : N -> Block -> string.

Definition newline : string := String (Ascii.ascii_of_nat 10) EmptyString.

(** The loop of [PString] over the blocks still to print. *)
Fixpoint pstring_range (level : N) (blks : list Block) (s : string) (cnt : nat)
    : string * nat :=
  match blks with
  | [] => (s, cnt)
  | blk :: rest =>
      pstring_range level rest (s +:+ newline +:+ Block_PString level blk) (S cnt)
  end.

(** [PString]; the receiver may be nil. *)
Definition PString (e : option Segment) (level : N) : string :=
  match e with
  | None => "null segment"
  | Some e =>
      let s := "<Segment " +:+ BaseEntry_PString level (Seg_Base e) in
      let '(s, cnt) :=
        if bool_decide (PPL0 < level) then pstring_range level (BlockSet e) s 0
        else (s, 0%nat) in
      if bool_decide (cnt = 0%nat) then s +:+ ">" else s +:+ newline +:+ ">"
  end.

End Printing.

(** ** Predicates of the further statements *)

(** The external index [GetReplayIndex] accepts of a block: the block has
    one and holds a row or is full. *)
Definition block_replay (t : Table) (b : Block) : option LogIndex :=
  c ← head (Commits (Blk_Base b));
  ex ← ExternalIndex c;
  if bool_decide (0 < Count b) || Block_IsFull (Table_Schema t) b then Some ex else None.

(** What the scan of [GetReplayIndex] finds in a block set: the external
    index of the last block that has an acceptable one, or nothing when no
    block has one. *)
Definition replay_of (t : Table) (blks : list Block) (r : option LogIndex) : Prop :=
  match r with
  | Some ex =>
      exists older b newer,
        blks = older ++ b :: newer
        /\ block_replay t b = Some ex
        /\ Forall (fun x => block_replay t x = None) newer
  | None => Forall (fun x => block_replay t x = None) blks
  end.

(** The blocks added one by one to a segment, each with [onNewBlock]. *)
Fixpoint add_blocks (blks : list Block) : M unit :=
  match blks with
  | [] => ret tt
  | b :: rest => (onNewBlock b ;; add_blocks rest)%go
  end.

(** A read lock is held on the segment and no write lock. *)
Definition read_locked (e : Segment) : Prop :=
  exists n, seg_mu e = {| readers := S n; writer := false |}.

(** Two blocks with the same id, no index yet. *)
Definition sample_twins : World :=
  {| W_cat := sample_catalog;
     W_seg := {| Seg_Base := {| Mu := unlocked; Id := 1; Commits := [create_info 1] |};
                 Seg_Table := None; Seg_Catalog := None; IdIndex := None;
                 BlockSet := [sample_block 5 2 4; sample_block 5 3 1] |} |}.

(** A block created for the batch [ex] of the log. *)
Definition sample_logged (id tranId rows ex : N) : Block :=
  {| Blk_Base := {| Mu := unlocked; Id := id;
                    Commits := [{| CommitId := tranId; TranId := tranId; Op := OpCreate;
                                   ExternalIndex := Some {| LogIndex_Id := SimpleBatchId ex |};
                                   PrevIndex := None; AppliedIndex := None |}] |};
     Count := rows; Blk_Segment := Some 1 |}.

(** A block with rows of batch 8, then an empty block of batch 9. *)
Definition sample_replay : World :=
  sample_world {[ 1 := 0%nat; 2 := 1%nat ]} [sample_logged 1 2 3 8; sample_logged 2 3 0 9].

(** A table whose segments hold no block. *)
Definition sample_table0 : Table :=
  {| Table_Id := 7;
     Table_Schema := {| SegmentMaxBlocks := 0; BlockMaxRows := 4 |};
     Table_Catalog := Some catalog_ref |}.

(** A new segment under [sample_table0]. *)
Definition sample_new0 : World :=
  {| W_cat := sample_catalog;
     W_seg := {| Seg_Base := {| Mu := unlocked; Id := 1; Commits := [create_info 1] |};
                 Seg_Table := Some sample_table0;
                 Seg_Catalog := Some catalog_ref;
                 IdIndex := Some ∅;
                 BlockSet := [] |} |}.

(* ================================================================== *)
(** * Properties *)

Ltac open_world w :=
  destruct w as [cat [[[rd wr] sid chain] tbl scat idx blks]]; simpl in *.

Ltac run_go :=
  unfold defer;
  unfold bind, read, ret, panic, get_seg, put_seg, get_cat, put_cat,
    RLock, RUnlock, Lock, Unlock, seg_mu, set_seg_mu, with_base, with_mu,
    set_commit, commit_through, rbind; simpl.

Ltac ok_inv := let H := fresh in intros H; simplify_eq/=; repeat split; try done.

(** ** Integers and loops *)

Lemma int_of_uint64_eq_len (n : nat) (x : N) :
  is_int_len n -> is_uint64 x ->
  Z.of_nat n = int_of_uint64 x <-> N.of_nat n = x.
Proof.
  unfold is_int_len, is_uint64, int_of_uint64. intros Hn Hx.
  assert (Hx' : (0 <= Z.of_N x < 2 ^ 64)%Z).
  { split; [lia|]. change (2 ^ 64)%Z with (Z.of_N (2 ^ 64)). lia. }
  rewrite Z.mod_small by lia.
  destruct (Z.ltb_spec (Z.of_N x) (2 ^ 63)); lia.
Qed.

Lemma range_all_full_true sch blks :
  range_all_full sch blks = true <-> Forall (fun b => Block_IsFull sch b = true) blks.
Proof.
  induction blks as [|b rest IH]; simpl.
  - split; [constructor|done].
  - rewrite Forall_cons. destruct (Block_IsFull sch b); simpl.
    + rewrite IH. split; [by split|by intros [_ ?]].
    + split; [done|by intros [? _]].
Qed.

Lemma range_all_full_false sch blks :
  range_all_full sch blks = false <->
  exists blk, blk ∈ blks /\ Block_IsFull sch blk = false.
Proof.
  induction blks as [|b rest IH]; simpl.
  - split; [discriminate|]. intros (blk & Hin & _). by apply elem_of_nil in Hin.
  - destruct (Block_IsFull sch b) eqn:Hb; simpl.
    + rewrite IH. split.
      * intros (blk & Hin & Hf). exists blk. split; [by right|done].
      * intros (blk & Hin & Hf).
        apply elem_of_cons in Hin as [->|Hin]; [congruence|eauto].
    + split; [|done]. intros _. exists b. split; [by left|done].
Qed.

(** A block that has a commit record answers [GetAppliedIndex] with its
    applied index. *)
Lemma Block_GetAppliedIndex_applied b :
  Commits (Blk_Base b) <> [] ->
  Block_GetAppliedIndex b =
    Ok (match block_applied b with Some id => (id, true) | None => (0, false) end).
Proof.
  unfold Block_GetAppliedIndex, BaseEntry_GetAppliedIndex, current, block_applied.
  destruct (Commits (Blk_Base b)) as [|c older]; [done|]. intros _. simpl.
  by destruct (AppliedIndex c).
Qed.


Lemma calc_range_total blks id0 ok0 :
  Forall (fun b => Commits (Blk_Base b) <> []) blks ->
  exists id ok, calc_range blks id0 ok0 = Ok (id, ok).
Proof.
  intros Hall. revert id0 ok0.
  induction Hall as [|b rest Hb _ IH]; intros id0 ok0; simpl; [eauto|].
  rewrite Block_GetAppliedIndex_applied by done. simpl.
  destruct (block_applied b); simpl; eauto.
Qed.


(** ** Upgrade *)

(** Every return of [Upgrade], read backwards: what the segment was and
    what became of it. *)
Lemma Upgrade_Ok_inv w tranId exIndice autoCommit r w' :
  Upgrade tranId exIndice autoCommit w = Ok (r, w') ->
  BlockSet (W_seg w') = BlockSet (W_seg w) /\
  IdIndex (W_seg w') = IdIndex (W_seg w) /\
  Seg_Table (W_seg w') = Seg_Table (W_seg w) /\
  Seg_Catalog (W_seg w') = Seg_Catalog (W_seg w) /\
  Id (Seg_Base (W_seg w')) = Id (Seg_Base (W_seg w)) /\
  match r with
  | Some err =>
      Commits (Seg_Base (W_seg w')) = Commits (Seg_Base (W_seg w)) /\ W_cat w' = W_cat w
  | None =>
      exists info c older t,
        Commits (Seg_Base (W_seg w)) = c :: older /\ Op c = OpCreate /\
        Commits (Seg_Base (W_seg w')) = info :: c :: older /\
        upgraded_info tranId exIndice (W_seg w) info /\
        CommitId c < tranId /\
        Seg_Table (W_seg w) = Some t /\
        Z.of_nat (length (BlockSet (W_seg w)))
          = int_of_uint64 (SegmentMaxBlocks (Table_Schema t)) /\
        range_all_full (Table_Schema t) (BlockSet (W_seg w)) = true /\
        seg_mu (W_seg w') = seg_mu (W_seg w)
  end.
Proof.
  open_world w.
  unfold Upgrade, HasMaxBlocks, BaseEntry_IsSorted, current. run_go.
  destruct wr; [discriminate|]. simpl.
  destruct chain as [|c older]; [discriminate|]. simpl.
  case_bool_decide as Hs; simpl.
  { case_bool_decide; [|done]. simpl. ok_inv. }
  destruct tbl as [t|]; [|discriminate]. simpl.
  case_bool_decide as Hl; simpl; [|ok_inv].
  case_bool_decide; [done|]. simpl.
  destruct (range_all_full (Table_Schema t) blks) eqn:Hf; simpl; [|ok_inv].
  destruct rd; simpl; [|discriminate].
  destruct (Op c) eqn:Hop; simpl; [|done|ok_inv].
  unfold upgrade_info, BaseEntry_onNewCommit. run_go.
  destruct exIndice as [[|x0 rest]|]; simpl; [discriminate| |].
  - case_bool_decide as Hc; simpl; [discriminate|].
    destruct autoCommit; simpl.
    + destruct (Table_Catalog t); simpl; [|discriminate].
      unfold Catalog_Commit, entry_ToLogEntry, Segment_IEntry, ToLogEntry, toLogEntry.
      simpl. ok_inv.
      eexists _, c, older, t. repeat split; try done. lia.
    + ok_inv. eexists _, c, older, t. repeat split; try done. lia.
  - destruct (calcAppliedIndex _) as [[id ok]| |] eqn:Hcalc; simpl; [|discriminate..].
    case_bool_decide as Hc; simpl; [discriminate|].
    destruct autoCommit; simpl.
    + destruct (Table_Catalog t); simpl; [|discriminate].
      unfold Catalog_Commit, entry_ToLogEntry, Segment_IEntry, ToLogEntry, toLogEntry.
      simpl. ok_inv.
      eexists _, c, older, t. repeat split; try done; [|lia].
      exists id, ok. done.
    + ok_inv. eexists _, c, older, t. repeat split; try done; [|lia].
      exists id, ok. done.
Qed.

(** On a sorted segment [Upgrade] answers UpgradeNotNeeded from under the
    read lock. *)
Lemma Upgrade_sorted w tranId exIndice autoCommit :
  writer (seg_mu (W_seg w)) = false ->
  last_op (Seg_Base (W_seg w)) = Some OpUpgradeSorted ->
  exists w', Upgrade tranId exIndice autoCommit w = Ok (Some UpgradeNotNeededErr, w').
Proof.
  unfold last_op. open_world w. intros -> Hop.
  unfold Upgrade, HasMaxBlocks, BaseEntry_IsSorted, current. run_go.
  destruct chain as [|c older]; simplify_eq/=.
  rewrite !bool_decide_eq_true_2 by done. simpl.
  rewrite !bool_decide_eq_true_2 by done. simpl. eauto.
Qed.

(** A full segment whose current operation is Create is upgraded. *)
Lemma Upgrade_success w t c older tranId exIndice autoCommit :
  lock_free (W_seg w) ->
  upgradable (W_seg w) t exIndice autoCommit ->
  Commits (Seg_Base (W_seg w)) = c :: older ->
  Op c = OpCreate ->
  CommitId c < tranId ->
  block_count (W_seg w) = max_blocks t ->
  all_full (W_seg w) t ->
  exists w', Upgrade tranId exIndice autoCommit w = Ok (None, w')
    /\ lock_free (W_seg w').
Proof.
  unfold lock_free, seg_mu, unlocked, upgradable, all_full, block_count, max_blocks.
  open_world w.
  intros Hmu (-> & Hcat & Hcommits & Hex & Hlen & Hmax) -> Hop Hlt Hcount Hfull.
  simplify_eq/=.
  unfold Upgrade, HasMaxBlocks, BaseEntry_IsSorted, current. run_go.
  rewrite Hop. rewrite !bool_decide_eq_false_2 by done. simpl.
  rewrite bool_decide_eq_true_2 by (by apply int_of_uint64_eq_len). simpl.
  rewrite ?Hop. rewrite ?bool_decide_eq_false_2 by done. simpl.
  apply range_all_full_true in Hfull. rewrite Hfull. simpl. rewrite ?Hop. simpl.
  unfold upgrade_info, BaseEntry_onNewCommit. run_go.
  destruct exIndice as [[|x0 rest]|]; simpl; [done| |].
  - rewrite bool_decide_eq_false_2 by lia. simpl.
    destruct autoCommit; simpl; [|eauto].
    rewrite Hcat by done. simpl. eauto.
  - unfold calcAppliedIndex. simpl.
    destruct (calc_range_total (rev blks) 0 false) as (id & ok & ->).
    { apply Forall_rev. by apply Hcommits. }
    simpl. rewrite bool_decide_eq_false_2 by lia. simpl.
    destruct autoCommit; simpl; [|eauto].
    rewrite Hcat by done. simpl. eauto.
Qed.

(** X18: a list of indices that is passed empty, not nil, makes [Upgrade]
    panic on its first element, under the exclusive lock, on a segment that
    it would upgrade otherwise. *)
Lemma Upgrade_empty_indices_panics w t c older tranId autoCommit :
  lock_free (W_seg w) ->
  Seg_Table (W_seg w) = Some t ->
  Commits (Seg_Base (W_seg w)) = c :: older ->
  Op c = OpCreate ->
  Z.of_nat (length (BlockSet (W_seg w))) = int_of_uint64 (max_blocks t) ->
  all_full (W_seg w) t ->
  Upgrade tranId (Some []) autoCommit w = Panic "index out of range [0] with length 0".
Proof.
  unfold lock_free, seg_mu, unlocked, all_full, max_blocks.
  open_world w. intros Hmu -> -> Hop Hlen Hfull. simplify_eq/=.
  unfold Upgrade, HasMaxBlocks, BaseEntry_IsSorted, current. run_go.
  rewrite Hop. rewrite bool_decide_eq_false_2 by done. simpl.
  rewrite bool_decide_eq_true_2 by done. simpl.
  rewrite ?Hop. rewrite ?bool_decide_eq_false_2 by done. simpl.
  apply range_all_full_true in Hfull. rewrite Hfull. simpl. rewrite ?Hop. simpl.
  done.
Qed.


(** C2: on a segment that is not sorted, [Upgrade] returns
    UpgradeInfullSegment when the number of blocks differs from the maximum
    of the schema, and also when it equals the maximum and some block is not
    full; the commit chain, and with it the state of the segment, stays as
    it was and nothing is logged. *)
Theorem Upgrade_infull_segment w t tranId exIndice autoCommit :
  writer (seg_mu (W_seg w)) = false ->
  (exists op, last_op (Seg_Base (W_seg w)) = Some op /\ op <> OpUpgradeSorted) ->
  Seg_Table (W_seg w) = Some t ->
  is_int_len (length (BlockSet (W_seg w))) ->
  is_uint64 (max_blocks t) ->
  block_count (W_seg w) <> max_blocks t
  \/ (block_count (W_seg w) = max_blocks t
      /\ exists blk, blk ∈ BlockSet (W_seg w) /\ Block_IsFull (Table_Schema t) blk = false) ->
  exists w',
    Upgrade tranId exIndice autoCommit w = Ok (Some UpgradeInfullSegmentErr, w')
    /\ Commits (Seg_Base (W_seg w')) = Commits (Seg_Base (W_seg w))
    /\ BlockSet (W_seg w') = BlockSet (W_seg w)
    /\ IdIndex (W_seg w') = IdIndex (W_seg w)
    /\ W_cat w' = W_cat w.
Proof.
  unfold last_op, block_count, max_blocks, seg_mu.
  intros Hwr (op & Hop & Hns) Ht Hlen Hmax Hcase.
  open_world w. subst.
  destruct chain as [|c older]; simplify_eq/=.
  unfold Upgrade, HasMaxBlocks, BaseEntry_IsSorted, current. run_go.
  case_bool_decide; [done|]. simpl.
  case_bool_decide as Hl; simpl.
  - apply int_of_uint64_eq_len in Hl; [|done..].
    destruct Hcase as [Hne | [Heq Hblk]]; [done|].
    apply range_all_full_false in Hblk.
    case_bool_decide; [done|]. simpl. rewrite Hblk. simpl.
    eexists. split; [reflexivity|]. done.
  - eexists. split; [reflexivity|]. done.
Qed.

Lemma Upgrade_infull_segment_witness :
  (exists w', Upgrade 10 None true sample_one = Ok (Some UpgradeInfullSegmentErr, w')
     /\ Commits (Seg_Base (W_seg w')) = Commits (Seg_Base (W_seg sample_one))
     /\ BlockSet (W_seg w') = BlockSet (W_seg sample_one)
     /\ IdIndex (W_seg w') = IdIndex (W_seg sample_one)
     /\ W_cat w' = W_cat sample_one)
  /\ (exists w', Upgrade 10 None true sample_half = Ok (Some UpgradeInfullSegmentErr, w')
     /\ Commits (Seg_Base (W_seg w')) = Commits (Seg_Base (W_seg sample_half))
     /\ BlockSet (W_seg w') = BlockSet (W_seg sample_half)
     /\ IdIndex (W_seg w') = IdIndex (W_seg sample_half)
     /\ W_cat w' = W_cat sample_half).
Proof.
  split.
  - apply (Upgrade_infull_segment sample_one sample_table 10 None true).
    + reflexivity.
    + exists OpCreate. split; [reflexivity|discriminate].
    + reflexivity.
    + reflexivity.
    + reflexivity.
    + left. discriminate.
  - apply (Upgrade_infull_segment sample_half sample_table 10 None true).
    + reflexivity.
    + exists OpCreate. split; [reflexivity|discriminate].
    + reflexivity.
    + reflexivity.
    + reflexivity.
    + right. split; [reflexivity|].
      exists (sample_block 2 3 1). split; [|reflexivity].
      apply list_elem_of_In. simpl. auto.
Defined.

(** C3: on a segment that has exactly the maximum of blocks, all full, and
    whose current commit operation is Create, two calls of [Upgrade] in
    sequence: the first succeeds and appends a commit record with operation
    UpgradeSorted, the second returns UpgradeNotNeeded and appends nothing. *)
Theorem Upgrade_twice w t c older tranId1 ex1 ac1 tranId2 ex2 ac2 :
  lock_free (W_seg w) ->
  upgradable (W_seg w) t ex1 ac1 ->
  Commits (Seg_Base (W_seg w)) = c :: older ->
  Op c = OpCreate ->
  CommitId c < tranId1 ->
  block_count (W_seg w) = max_blocks t ->
  all_full (W_seg w) t ->
  exists info w1 w2,
    Upgrade tranId1 ex1 ac1 w = Ok (None, w1)
    /\ Commits (Seg_Base (W_seg w1)) = info :: c :: older
    /\ Op info = OpUpgradeSorted
    /\ Upgrade tranId2 ex2 ac2 w1 = Ok (Some UpgradeNotNeededErr, w2)
    /\ Commits (Seg_Base (W_seg w2)) = Commits (Seg_Base (W_seg w1))
    /\ Store (W_cat w2) = Store (W_cat w1).
Proof.
  intros Hfree Hup Hch Hop Hlt Hcount Hfull.
  destruct (Upgrade_success w t c older tranId1 ex1 ac1) as (w1 & Hrun1 & Hfree1);
    [done..|].
  destruct (Upgrade_Ok_inv _ _ _ _ _ _ Hrun1)
    as (_ & _ & _ & _ & _ & info & c' & older' & t' & Hc & _ & Hc1 & Hinfo & _).
  rewrite Hch in Hc. simplify_eq.
  destruct Hinfo as (_ & _ & Hsorted & _).
  destruct (Upgrade_sorted w1 tranId2 ex2 ac2) as (w2 & Hrun2).
  { unfold lock_free in Hfree1. by rewrite Hfree1. }
  { unfold last_op. rewrite Hc1. simpl. by rewrite Hsorted. }
  destruct (Upgrade_Ok_inv _ _ _ _ _ _ Hrun2) as (_ & _ & _ & _ & _ & Hsame & Hcat).
  exists info, w1, w2. repeat split; try done. by rewrite Hcat.
Qed.

Lemma Upgrade_twice_witness :
  exists info w1 w2,
    Upgrade 10 None true sample_full = Ok (None, w1)
    /\ Commits (Seg_Base (W_seg w1)) = info :: create_info 1 :: []
    /\ Op info = OpUpgradeSorted
    /\ Upgrade 11 None true w1 = Ok (Some UpgradeNotNeededErr, w2)
    /\ Commits (Seg_Base (W_seg w2)) = Commits (Seg_Base (W_seg w1))
    /\ Store (W_cat w2) = Store (W_cat w1).
Proof.
  apply (Upgrade_twice sample_full sample_table (create_info 1) [] 10 None true 11 None true).
  - reflexivity.
  - unfold upgradable. simpl. repeat split; try done.
    intros _. repeat constructor; discriminate.
  - reflexivity.
  - reflexivity.
  - reflexivity.
  - reflexivity.
  - unfold all_full. simpl. repeat constructor.
Defined.

(** X26: when [Upgrade] returns an error the data of the segment are what
    they were: its commit chain, its block sequence, its id index, its id
    and its back-references, and the catalog has logged nothing; the chain
    changes only when [Upgrade] returns nil.  The lock is not among them:
    it is what an error return may leave changed. *)
Theorem Upgrade_error_atomic w w' tranId exIndice autoCommit r :
  Upgrade tranId exIndice autoCommit w = Ok (r, w') ->
  (forall err, r = Some err ->
     Commits (Seg_Base (W_seg w')) = Commits (Seg_Base (W_seg w))
     /\ BlockSet (W_seg w') = BlockSet (W_seg w)
     /\ IdIndex (W_seg w') = IdIndex (W_seg w)
     /\ Id (Seg_Base (W_seg w')) = Id (Seg_Base (W_seg w))
     /\ Seg_Table (W_seg w') = Seg_Table (W_seg w)
     /\ Seg_Catalog (W_seg w') = Seg_Catalog (W_seg w)
     /\ W_cat w' = W_cat w)
  /\ (Commits (Seg_Base (W_seg w')) <> Commits (Seg_Base (W_seg w)) -> r = None).
Proof.
  intros Hrun.
  destruct (Upgrade_Ok_inv _ _ _ _ _ _ Hrun) as (Hb & Hi & Ht & Hc & Hid & Hr).
  split.
  - intros err ->. destruct Hr as [Hch Hcat]. done.
  - destruct r as [err|]; [|done]. destruct Hr as [Hch _]. done.
Qed.

Lemma Upgrade_error_atomic_witness :
  exists w',
    Upgrade 10 None true sample_half = Ok (Some UpgradeInfullSegmentErr, w')
    /\ (forall err, Some UpgradeInfullSegmentErr = Some err ->
         Commits (Seg_Base (W_seg w')) = Commits (Seg_Base (W_seg sample_half))
         /\ BlockSet (W_seg w') = BlockSet (W_seg sample_half)
         /\ IdIndex (W_seg w') = IdIndex (W_seg sample_half)
         /\ Id (Seg_Base (W_seg w')) = Id (Seg_Base (W_seg sample_half))
         /\ Seg_Table (W_seg w') = Seg_Table (W_seg sample_half)
         /\ Seg_Catalog (W_seg w') = Seg_Catalog (W_seg sample_half)
         /\ W_cat w' = W_cat sample_half)
    /\ (Commits (Seg_Base (W_seg w')) <> Commits (Seg_Base (W_seg sample_half)) ->
        Some UpgradeInfullSegmentErr = None).
Proof.
  eexists. split; [reflexivity|].
  apply (Upgrade_error_atomic sample_half _ 10 None true (Some UpgradeInfullSegmentErr)).
  reflexivity.
Defined.

(** The lock on the error returns.  The return for a segment short of its
    maximum releases the read lock; the returns for a sorted segment and for
    a block that is not full are taken with the read lock still held, and a
    later writer waits for it for ever. *)
Lemma Upgrade_error_keeps_read_lock w w' tranId exIndice autoCommit err t :
  lock_free (W_seg w) ->
  Seg_Table (W_seg w) = Some t ->
  Upgrade tranId exIndice autoCommit w = Ok (Some err, w') ->
  last_op (Seg_Base (W_seg w)) = Some OpUpgradeSorted
  \/ (Z.of_nat (length (BlockSet (W_seg w))) = int_of_uint64 (max_blocks t)
      /\ range_all_full (Table_Schema t) (BlockSet (W_seg w)) = false) ->
  seg_mu (W_seg w') = {| readers := 1; writer := false |}.
Proof.
  unfold lock_free, seg_mu, unlocked, last_op, max_blocks.
  open_world w. intros Hmu -> Hrun Hcase. simplify_eq/=. revert Hrun.
  unfold Upgrade, HasMaxBlocks, BaseEntry_IsSorted, current. run_go.
  destruct chain as [|c older]; [discriminate|]. simpl.
  case_bool_decide as Hs; simpl.
  { case_bool_decide; [|done]. simpl. intros ?; simplify_eq/=. done. }
  destruct Hcase as [Hcase|[Hlen Hfull]]; [simplify_eq/=|].
  rewrite bool_decide_eq_true_2 by done. simpl.
  case_bool_decide; [done|]. simpl. rewrite Hfull. simpl.
  intros ?; simplify_eq/=. done.
Qed.

Lemma CreateBlock_waits_for_read_lock w tranId exIndex autoCommit t n :
  Seg_Table (W_seg w) = Some t ->
  Table_Catalog t = Some catalog_ref ->
  seg_mu (W_seg w) = {| readers := S n; writer := false |} ->
  CreateBlock tranId exIndex autoCommit w = Blocked.
Proof.
  unfold seg_mu. open_world w. intros -> Hcat Hmu. simplify_eq/=.
  unfold CreateBlock, newBlockEntry. run_go. rewrite Hcat. simpl. done.
Qed.

(** C10: [Upgrade] does not leave the segment as it was on two of its error
    returns.  On a segment that has its maximum of blocks, one of them not
    full, and on a sorted segment, it returns the error with the read lock
    still held: the chain, the blocks, the index and the catalog are what
    they were, the lock is not, and a [CreateBlock] that returned before the
    call waits for ever after it.  The error return for a segment short of
    its maximum releases the lock and leaves the segment as it was. *)
Theorem Upgrade_error_not_atomic :
  (exists w',
     Upgrade 10 None true sample_half = Ok (Some UpgradeInfullSegmentErr, w')
     /\ W_seg w' <> W_seg sample_half
     /\ seg_mu (W_seg sample_half) = unlocked
     /\ seg_mu (W_seg w') = {| readers := 1; writer := false |}
     /\ Commits (Seg_Base (W_seg w')) = Commits (Seg_Base (W_seg sample_half))
     /\ BlockSet (W_seg w') = BlockSet (W_seg sample_half)
     /\ IdIndex (W_seg w') = IdIndex (W_seg sample_half)
     /\ W_cat w' = W_cat sample_half
     /\ (exists be w1, CreateBlock 12 None false sample_half = Ok (be, w1))
     /\ CreateBlock 12 None false w' = Blocked)
  /\ (exists w',
        Upgrade 11 None true sample_sorted = Ok (Some UpgradeNotNeededErr, w')
        /\ W_seg w' <> W_seg sample_sorted
        /\ seg_mu (W_seg sample_sorted) = unlocked
        /\ seg_mu (W_seg w') = {| readers := 1; writer := false |}
        /\ CreateBlock 12 None false w' = Blocked)
  /\ Upgrade 10 None true sample_one = Ok (Some UpgradeInfullSegmentErr, sample_one).
Proof.
  split; [|split].
  - eexists. split; [vm_compute; reflexivity|].
    split; [intros Heq; apply (f_equal seg_mu) in Heq; discriminate|].
    repeat split; try reflexivity.
    eexists _, _. vm_compute. reflexivity.
  - eexists. split; [vm_compute; reflexivity|].
    split; [intros Heq; apply (f_equal seg_mu) in Heq; discriminate|].
    repeat split; reflexivity.
  - reflexivity.
Qed.



(** ** Creation of blocks *)

Lemma bind_Ok_inv {A B} (m : M A) (k : A -> M B) w b w' :
  bind m k w = Ok (b, w') ->
  exists a w0, m w = Ok (a, w0) /\ k a w0 = Ok (b, w').
Proof.
  unfold bind. destruct (m w) as [[a w0]| |]; [|done..]. eauto.
Qed.

(** Every return of [CreateBlock], read backwards: the new block is at the
    end of the block set and in the index, under the next id of the
    sequence, and nothing else of the segment has changed. *)
Lemma CreateBlock_Ok_inv w tranId exIndex autoCommit be w' :
  CreateBlock tranId exIndex autoCommit w = Ok (be, w') ->
  BlockSet (W_seg w') = BlockSet (W_seg w) ++ [be]
  /\ Seg_Base (W_seg w') = Seg_Base (W_seg w)
  /\ Seg_Table (W_seg w') = Seg_Table (W_seg w)
  /\ Seg_Catalog (W_seg w') = Seg_Catalog (W_seg w)
  /\ (exists idx, IdIndex (W_seg w) = Some idx
        /\ IdIndex (W_seg w')
           = Some (<[block_id be := length (BlockSet (W_seg w))]> idx))
  /\ block_id be = uint64_add (nextBlockId (Seq (W_cat w))) 1
  /\ nextBlockId (Seq (W_cat w')) = block_id be
  /\ Blk_Segment be = Some (Id (Seg_Base (W_seg w)))
  /\ Count be = 0.
Proof.
  open_world w.
  unfold CreateBlock, newBlockEntry, onNewBlock, block_id. run_go.
  destruct tbl as [t|]; [|discriminate]. simpl.
  destruct (Table_Catalog t); [|discriminate]. simpl.
  destruct wr; [discriminate|]. destruct rd; [|discriminate]. simpl.
  destruct idx as [idx|]; [|discriminate]. simpl.
  destruct autoCommit; simpl.
  - destruct scat; [|discriminate]. simpl.
    unfold Catalog_Commit, entry_ToLogEntry, Block_IEntry, Block_ToLogEntry. simpl.
    ok_inv. eauto.
  - ok_inv. eauto.
Qed.

(** [CreateBlock] looks neither at the commit operation of the segment nor
    at the number of its blocks. *)
Lemma CreateBlock_appends w t ix tranId exIndex autoCommit :
  lock_free (W_seg w) ->
  Seg_Table (W_seg w) = Some t ->
  Table_Catalog t = Some catalog_ref ->
  (autoCommit = true -> Seg_Catalog (W_seg w) = Some catalog_ref) ->
  IdIndex (W_seg w) = Some ix ->
  exists be w', CreateBlock tranId exIndex autoCommit w = Ok (be, w').
Proof.
  unfold lock_free, seg_mu, unlocked. open_world w.
  intros Hmu -> Hcat Hscat ->. simplify_eq/=.
  unfold CreateBlock, newBlockEntry, onNewBlock. run_go.
  rewrite Hcat. simpl.
  destruct autoCommit; simpl; [|eauto].
  rewrite Hscat by done. simpl.
  unfold Catalog_Commit, entry_ToLogEntry, Block_IEntry, Block_ToLogEntry. simpl. eauto.
Qed.

Lemma next_range_found Less from sch blks found :
  next_range Less from sch blks found = found
  \/ exists b, next_range Less from sch blks found = Some b /\ b ∈ blks.
Proof.
  revert found. induction blks as [|blk rest IH]; intros found; simpl; [by left|].
  destruct (negb (Block_IsFull sch blk) && Less from blk); [|by left].
  right. destruct (IH (Some blk)) as [->|(b & -> & Hin)].
  - exists blk. split; [done|by left].
  - exists b. split; [done|by right].
Qed.

Lemma next_uncommit_id_Ok w t :
  Seg_Table (W_seg w) = Some t ->
  Table_Catalog t = Some catalog_ref ->
  exists id w0, next_uncommit_id w = Ok (id, w0) /\ W_seg w0 = W_seg w.
Proof.
  intros Ht Hcat. unfold next_uncommit_id. rewrite Ht. simpl. rewrite Hcat. simpl.
  eauto.
Qed.

(** C1 (amended): [CreateBlock] and [SimpleCreateBlock] do not refuse a
    sorted segment: they append the new block and the segment stays sorted.
    The entry point that refuses is [SimpleGetOrCreateNextBlock]: on a
    sorted segment that has blocks it creates none and leaves the segment
    as it is. *)
Theorem CreateBlock_on_sorted w t ix tranId exIndex autoCommit Less from :
  lock_free (W_seg w) ->
  Seg_Table (W_seg w) = Some t ->
  Table_Catalog t = Some catalog_ref ->
  Seg_Catalog (W_seg w) = Some catalog_ref ->
  IdIndex (W_seg w) = Some ix ->
  last_op (Seg_Base (W_seg w)) = Some OpUpgradeSorted ->
  (exists be w',
     CreateBlock tranId exIndex autoCommit w = Ok (be, w')
     /\ BlockSet (W_seg w') = BlockSet (W_seg w) ++ [be]
     /\ last_op (Seg_Base (W_seg w')) = Some OpUpgradeSorted)
  /\ (exists be w',
        SimpleCreateBlock exIndex w = Ok (be, w')
        /\ BlockSet (W_seg w') = BlockSet (W_seg w) ++ [be]
        /\ last_op (Seg_Base (W_seg w')) = Some OpUpgradeSorted)
  /\ (BlockSet (W_seg w) <> [] ->
      exists r, SimpleGetOrCreateNextBlock Less from w = Ok (r, w)
        /\ (r = None \/ exists b, r = Some b /\ b ∈ BlockSet (W_seg w))).
Proof.
  intros Hfree Ht Hcat Hscat Hidx Hsorted. split; [|split].
  - destruct (CreateBlock_appends w t ix tranId exIndex autoCommit)
      as (be & w' & Hrun); [done..|].
    exists be, w'. split; [done|].
    destruct (CreateBlock_Ok_inv _ _ _ _ _ _ Hrun) as (Hb & Hbase & _).
    by rewrite Hbase.
  - destruct (next_uncommit_id_Ok w t Ht Hcat) as (id & w0 & Hid & Hseg).
    destruct (CreateBlock_appends w0 t ix id exIndex true)
      as (be & w' & Hrun); [rewrite ?Hseg; done..|].
    exists be, w'. unfold SimpleCreateBlock, bind. rewrite Hid. split; [done|].
    destruct (CreateBlock_Ok_inv _ _ _ _ _ _ Hrun) as (Hb & Hbase & _).
    by rewrite Hb, Hbase, Hseg.
  - intros Hne. revert Ht Hsorted. unfold last_op. clear Hfree Hidx Hscat ix.
    open_world w. intros -> Hsorted.
    unfold SimpleGetOrCreateNextBlock, HasMaxBlocks, BaseEntry_IsSorted, current. run_go.
    rewrite bool_decide_eq_false_2 by (by destruct blks).
    simpl.
    destruct (next_range_found Less from (Table_Schema t) (rev blks) None)
      as [->|(b & -> & Hin)].
    + destruct chain as [|c older]; simplify_eq/=.
      rewrite bool_decide_eq_true_2 by done. simpl. eauto.
    + eexists. split; [reflexivity|]. right. exists b. split; [done|].
      apply list_elem_of_In, in_rev, list_elem_of_In. done.
Qed.

Lemma CreateBlock_on_sorted_witness :
  (exists be w',
     CreateBlock 12 None true sample_sorted = Ok (be, w')
     /\ BlockSet (W_seg w') = BlockSet (W_seg sample_sorted) ++ [be]
     /\ last_op (Seg_Base (W_seg w')) = Some OpUpgradeSorted)
  /\ (exists be w',
        SimpleCreateBlock None sample_sorted = Ok (be, w')
        /\ BlockSet (W_seg w') = BlockSet (W_seg sample_sorted) ++ [be]
        /\ last_op (Seg_Base (W_seg w')) = Some OpUpgradeSorted)
  /\ (BlockSet (W_seg sample_sorted) <> [] ->
      exists r, SimpleGetOrCreateNextBlock (fun _ _ => true) None sample_sorted
                = Ok (r, sample_sorted)
        /\ (r = None \/ exists b, r = Some b /\ b ∈ BlockSet (W_seg sample_sorted))).
Proof.
  apply (CreateBlock_on_sorted sample_sorted sample_table
           {[ 1 := 0%nat; 2 := 1%nat ]} 12 None true (fun _ _ => true) None);
    reflexivity.
Defined.

(** C1, as stated, fails: after the upgrade of the segment of two full
    blocks, [CreateBlock] returns a third block and appends it. *)
Lemma CreateBlock_sorted_counterexample :
  Upgrade 10 None false sample_full = Ok (None, sample_sorted)
  /\ last_op (Seg_Base (W_seg sample_sorted)) = Some OpUpgradeSorted
  /\ (exists be w',
        CreateBlock 12 None false sample_sorted = Ok (be, w')
        /\ BlockSet (W_seg w') = BlockSet (W_seg sample_sorted) ++ [be]
        /\ length (BlockSet (W_seg w')) = 3%nat)
  /\ ~ sorted_refuses_CreateBlock.
Proof.
  split; [reflexivity|]. split; [reflexivity|]. split.
  - eexists _, _. split; [reflexivity|]. split; reflexivity.
  - intros Hclaim.
    eapply (Hclaim sample_sorted 12 None false); reflexivity.
Qed.

(** ** HasMaxBlocks along a run *)

Lemma HasMaxBlocks_value e t c older :
  Seg_Table e = Some t ->
  Commits (Seg_Base e) = c :: older ->
  HasMaxBlocks e =
    Ok (bool_decide (Op c = OpUpgradeSorted)
        || bool_decide (Z.of_nat (length (BlockSet e)) = int_of_uint64 (max_blocks t))).
Proof.
  unfold HasMaxBlocks, BaseEntry_IsSorted, current, max_blocks.
  intros -> ->. simpl. by case_bool_decide.
Qed.

Lemma next_uncommit_id_Ok_inv w id w0 :
  next_uncommit_id w = Ok (id, w0) -> W_seg w0 = W_seg w.
Proof.
  unfold next_uncommit_id, rbind.
  destruct (Seg_Table (W_seg w)) as [t|]; [|done]. simpl.
  destruct (Table_Catalog t); [|done]. simpl. intros ?; simplify_eq/=. done.
Qed.

Lemma created_run_inv w : created w -> run_inv w.
Proof.
  intros (catalog & table & tranId & exIndex & c0 & Hmax & Hnew).
  unfold newSegmentEntry, rbind in Hnew.
  destruct (Table_Catalog table); [|done]. simpl in Hnew.
  injection Hnew as Hseg Hcat.
  unfold run_inv, block_count, is_int_len. rewrite <- Hseg. simpl.
  eexists table, _, []. repeat split; try done; lia.
Qed.

Lemma run_inv_grow w w' be :
  run_inv w ->
  respects (Call_CreateBlock 0 None false) w ->
  BlockSet (W_seg w') = BlockSet (W_seg w) ++ [be] ->
  Seg_Base (W_seg w') = Seg_Base (W_seg w) ->
  Seg_Table (W_seg w') = Seg_Table (W_seg w) ->
  run_inv w'.
Proof.
  intros (t & c & older & Ht & Hmax & Hc & Hlen & Hle & Hs) (t' & Ht' & Hlt & Hlen') Hb Hbase Htbl.
  rewrite Ht in Ht'. simplify_eq.
  exists t', c, older. unfold block_count in *.
  rewrite Hbase, Htbl, Hb, length_app. simpl.
  rewrite Nat.add_1_r. repeat split; try done; [lia|].
  intros Hop. specialize (Hs Hop). lia.
Qed.

Lemma step_run_inv w c w' :
  run_inv w -> step w c w' ->
  run_inv w' /\ Seg_Table (W_seg w') = Seg_Table (W_seg w).
Proof.
  intros Hinv [Hresp Hrun]. destruct c as [tranId ex ac|ex|tranId ex ac|ex|pos rows];
    simpl in Hrun.
  - apply bind_Ok_inv in Hrun as (be & w0 & Hrun & Hret).
    unfold ret in Hret. simplify_eq.
    destruct (CreateBlock_Ok_inv _ _ _ _ _ _ Hrun) as (Hb & Hbase & Htbl & _).
    split; [|done]. by apply (run_inv_grow w w' be).
  - apply bind_Ok_inv in Hrun as (be & w1 & Hrun & Hret).
    unfold ret in Hret. simplify_eq.
    apply bind_Ok_inv in Hrun as (tranId & w0 & Hid & Hrun).
    apply next_uncommit_id_Ok_inv in Hid.
    destruct (CreateBlock_Ok_inv _ _ _ _ _ _ Hrun) as (Hb & Hbase & Htbl & _).
    rewrite Hid in Hb, Hbase, Htbl.
    split; [|done]. by apply (run_inv_grow w w' be).
  - apply bind_Ok_inv in Hrun as (r & w0 & Hrun & Hret).
    unfold ret in Hret. simplify_eq.
    destruct Hinv as (t & c & older & Ht & Hmax & Hc & Hlen & Hle & Hs).
    destruct (Upgrade_Ok_inv _ _ _ _ _ _ Hrun) as (Hb & _ & Htbl & _ & _ & Hr).
    split; [|done]. unfold run_inv, block_count in *. rewrite Hb, Htbl.
    destruct r as [err|].
    + destruct Hr as [Hch _]. rewrite Hch. eauto 10.
    + destruct Hr as (info & c' & older' & t' & Hc0 & _ & Hc' & _ & _ & Ht' & Heq & _).
      rewrite Ht in Ht'. simplify_eq.
      exists t', info, (c' :: older'). repeat split; try done.
      intros _. by apply int_of_uint64_eq_len.
  - apply bind_Ok_inv in Hrun as (r & w1 & Hrun & Hret).
    unfold ret in Hret. simplify_eq.
    apply bind_Ok_inv in Hrun as (tranId & w0 & Hid & Hrun).
    apply next_uncommit_id_Ok_inv in Hid.
    destruct Hinv as (t & c & older & Ht & Hmax & Hc & Hlen & Hle & Hs).
    destruct (Upgrade_Ok_inv _ _ _ _ _ _ Hrun) as (Hb & _ & Htbl & _ & _ & Hr).
    rewrite Hid in Hb, Htbl, Hr.
    split; [|done]. unfold run_inv, block_count in *. rewrite Hb, Htbl.
    destruct r as [err|].
    + destruct Hr as [Hch _]. rewrite Hch. eauto 10.
    + destruct Hr as (info & c' & older' & t' & Hc0 & _ & Hc' & _ & _ & Ht' & Heq & _).
      rewrite Ht in Ht'. simplify_eq.
      exists t', info, (c' :: older'). repeat split; try done.
      intros _. by apply int_of_uint64_eq_len.
  - unfold append_rows in Hrun.
    destruct (BlockSet (W_seg w) !! pos) as [b|]; [|done].
    simplify_eq/=. split; [|done].
    unfold run_inv, block_count in *. simpl. by rewrite length_insert.
Qed.

Lemma reachable_run_inv w : reachable w -> run_inv w.
Proof.
  induction 1 as [w Hc|w c w' _ IH Hstep]; [by apply created_run_inv|].
  by apply (step_run_inv w c w').
Qed.

Lemma run_inv_has_max_blocks w :
  run_inv w ->
  exists t, Seg_Table (W_seg w) = Some t
    /\ (has_max_blocks w <-> block_count (W_seg w) = max_blocks t).
Proof.
  intros (t & c & older & Ht & Hmax & Hc & Hlen & Hle & Hs).
  exists t. split; [done|]. unfold has_max_blocks.
  rewrite (HasMaxBlocks_value _ t c older) by done.
  unfold block_count in *. split.
  - intros [= Hb]. apply orb_prop in Hb as [Hb|Hb].
    + apply bool_decide_eq_true in Hb. auto.
    + apply bool_decide_eq_true in Hb. by apply int_of_uint64_eq_len in Hb.
  - intros Heq. f_equal. apply orb_true_intro. right.
    apply bool_decide_eq_true. by apply int_of_uint64_eq_len.
Qed.

Lemma step_has_max_blocks w c w' :
  run_inv w -> step w c w' -> has_max_blocks w -> has_max_blocks w'.
Proof.
  intros Hinv Hstep Hhas.
  destruct (step_run_inv w c w' Hinv Hstep) as [Hinv' Htbl].
  destruct (run_inv_has_max_blocks w Hinv) as (t & Ht & Hiff).
  destruct (run_inv_has_max_blocks w' Hinv') as (t' & Ht' & Hiff').
  rewrite Htbl, Ht in Ht'. simplify_eq.
  apply Hiff'. apply Hiff in Hhas.
  destruct Hstep as [Hresp Hrun].
  destruct c as [tranId ex ac|ex|tranId ex ac|ex|pos rows]; simpl in *.
  - destruct Hresp as (t & Ht0 & Hlt & _). rewrite Ht in Ht0. simplify_eq. lia.
  - destruct Hresp as (t & Ht0 & Hlt & _). rewrite Ht in Ht0. simplify_eq. lia.
  - apply bind_Ok_inv in Hrun as (r & w0 & Hrun & Hret).
    unfold ret in Hret. simplify_eq.
    destruct (Upgrade_Ok_inv _ _ _ _ _ _ Hrun) as (Hb & _).
    unfold block_count in *. by rewrite Hb.
  - apply bind_Ok_inv in Hrun as (r & w1 & Hrun & Hret).
    unfold ret in Hret. simplify_eq.
    apply bind_Ok_inv in Hrun as (tranId & w0 & Hid & Hrun).
    apply next_uncommit_id_Ok_inv in Hid.
    destruct (Upgrade_Ok_inv _ _ _ _ _ _ Hrun) as (Hb & _).
    unfold block_count in *. by rewrite Hb, Hid.
  - unfold append_rows in Hrun.
    destruct (BlockSet (W_seg w) !! pos) as [b|]; [|done].
    simplify_eq/=. unfold block_count in *. simpl. by rewrite length_insert.
Qed.

Lemma run_has_max_blocks w cs w' :
  run_inv w -> run w cs w' -> has_max_blocks w -> run_inv w' /\ has_max_blocks w'.
Proof.
  intros Hinv Hrun. revert Hinv.
  induction Hrun as [w|w c w1 cs w' Hstep _ IH]; intros Hinv Hhas; [done|].
  apply IH.
  - by apply (step_run_inv w c w1).
  - by apply (step_has_max_blocks w c w1).
Qed.

(** C6: [HasMaxBlocks] is true exactly when the segment is sorted or the
    number of its blocks equals the maximum of the schema; along every run
    of calls that respects the maximum it is true exactly when the number
    of blocks has reached the maximum, and once true it stays true under
    every further run of calls. *)
Theorem HasMaxBlocks_monotone :
  (forall e t c older,
     Seg_Table e = Some t ->
     Commits (Seg_Base e) = c :: older ->
     is_int_len (length (BlockSet e)) ->
     is_uint64 (max_blocks t) ->
     exists b, HasMaxBlocks e = Ok b
       /\ (b = true <-> Op c = OpUpgradeSorted \/ block_count e = max_blocks t))
  /\ (forall w, reachable w ->
        exists t, Seg_Table (W_seg w) = Some t
          /\ (has_max_blocks w <-> block_count (W_seg w) = max_blocks t))
  /\ (forall w cs w', reachable w -> run w cs w' -> has_max_blocks w -> has_max_blocks w').
Proof.
  split; [|split].
  - intros e t c older Ht Hc Hlen Hmax. eexists. split.
    + by apply (HasMaxBlocks_value e t c older).
    + unfold block_count. rewrite orb_true_iff, !bool_decide_eq_true.
      by rewrite int_of_uint64_eq_len.
  - intros w Hreach. by apply run_inv_has_max_blocks, reachable_run_inv.
  - intros w cs w' Hreach Hrun Hhas.
    by apply (run_has_max_blocks w cs w' (reachable_run_inv w Hreach) Hrun).
Qed.

(** The run of the scenario: two blocks are created, filled, and the
    segment is upgraded; [HasMaxBlocks] turns true with the second block. *)
Lemma HasMaxBlocks_run_example :
  let w1 := after (Call_CreateBlock 2 None true) sample_new in
  let w2 := after (Call_CreateBlock 3 None true) w1 in
  let w3 := after (Call_AppendRows 0 4) w2 in
  let w4 := after (Call_AppendRows 1 4) w3 in
  let w5 := after (Call_Upgrade 10 None true) w4 in
  reachable w5
  /\ HasMaxBlocks (W_seg sample_new) = Ok false
  /\ HasMaxBlocks (W_seg w1) = Ok false
  /\ HasMaxBlocks (W_seg w2) = Ok true
  /\ HasMaxBlocks (W_seg w5) = Ok true
  /\ last_op (Seg_Base (W_seg w5)) = Some OpUpgradeSorted.
Proof.
  intros w1 w2 w3 w4 w5. split; [|by repeat split].
  assert (Hresp : forall w, respects (Call_AppendRows 0 4) w) by done.
  apply (reachable_step w4 (Call_Upgrade 10 None true)); [|by split].
  apply (reachable_step w3 (Call_AppendRows 1 4)); [|by split].
  apply (reachable_step w2 (Call_AppendRows 0 4)); [|by split].
  apply (reachable_step w1 (Call_CreateBlock 3 None true)).
  2:{ split; [|done]. exists sample_table. by repeat split. }
  apply (reachable_step sample_new (Call_CreateBlock 2 None true)).
  2:{ split; [|done]. exists sample_table. by repeat split. }
  apply reachable_created.
  exists (Some catalog_ref), sample_table, 1, None,
    {| Seq := {| nextSegmentId := 0; nextBlockId := 0; nextUncommitId := 1 |};
       Store := [] |}.
  by split.
Qed.

Lemma HasMaxBlocks_monotone_witness :
  let w1 := after (Call_CreateBlock 2 None true) sample_new in
  let w2 := after (Call_CreateBlock 3 None true) w1 in
  let w3 := after (Call_AppendRows 0 4) w2 in
  let w4 := after (Call_AppendRows 1 4) w3 in
  let w5 := after (Call_Upgrade 10 None true) w4 in
  (exists t, Seg_Table (W_seg w5) = Some t
     /\ (has_max_blocks w5 <-> block_count (W_seg w5) = max_blocks t))
  /\ (forall cs w', run w5 cs w' -> has_max_blocks w5 -> has_max_blocks w').
Proof.
  intros w1 w2 w3 w4 w5.
  destruct HasMaxBlocks_monotone as (_ & Hexact & Hmono).
  pose proof (proj1 HasMaxBlocks_run_example) as Hreach.
  split.
  - apply Hexact. exact Hreach.
  - intros cs w'. apply Hmono. exact Hreach.
Defined.

(** The reads of the samples: the segment of two full blocks is no longer
    appendable, the one whose second block has room is; a block is found
    under its id; the applied index is that of the older block. *)
Lemma reads_example :
  fst <$> (match Appendable sample_full with Ok r => Some r | _ => None end) = Some false
  /\ fst <$> (match Appendable sample_half with Ok r => Some r | _ => None end) = Some true
  /\ fst <$> (match Appendable sample_one with Ok r => Some r | _ => None end) = Some true
  /\ GetBlock 2 0 (W_seg sample_full) = Ok (Some (sample_block 2 3 4))
  /\ GetBlock 9 0 (W_seg sample_full) = Ok None
  /\ calcAppliedIndex (W_seg sample_applied) = Ok (5, true)
  /\ calcAppliedIndex (W_seg sample_full) = Ok (0, false)
  /\ HasMaxBlocks zero_Segment = Panic nil_deref.
Proof. repeat split. Qed.

(** ** Committed views *)

Lemma as_of_nonempty id chain :
  as_of id chain <> [] <-> exists c, c ∈ chain /\ CommitId c <= id.
Proof.
  induction chain as [|c older IH]; simpl.
  - split; [done|]. intros (c & Hin & _). by apply elem_of_nil in Hin.
  - case_bool_decide as Hc.
    + split; [|done]. intros _. exists c. split; [by left|done].
    + rewrite IH. split.
      * intros (c' & Hin & Hle). exists c'. split; [by right|done].
      * intros (c' & Hin & Hle).
        apply elem_of_cons in Hin as [->|Hin]; [done|eauto].
Qed.

(** In an ordered chain the oldest record has the least commit id. *)
Lemma chain_ordered_last_min chain c cl :
  chain_ordered chain -> c ∈ chain -> last chain = Some cl ->
  CommitId cl <= CommitId c.
Proof.
  revert c. induction chain as [|c0 older IH]; intros c Hord Hin Hlast.
  - by apply elem_of_nil in Hin.
  - destruct Hord as [Hhead Hord].
    destruct older as [|c1 older'].
    + apply list_elem_of_singleton in Hin. simpl in Hlast. simplify_eq. lia.
    + change (last (c0 :: c1 :: older')) with (last (c1 :: older')) in Hlast.
      apply elem_of_cons in Hin as [->|Hin].
      * specialize (IH c1 Hord). etrans; [apply IH; [by left|done]|]. lia.
      * by apply IH.
Qed.

(** An entry with an ordered chain is visible at a commit id exactly from
    the commit id of its creation on. *)
Lemma UseCommitted_created id e :
  chain_ordered (Commits e) ->
  is_Some (BaseEntry_UseCommitted id e) <->
  exists cid, created_at e = Some cid /\ cid <= id.
Proof.
  intros Hord. unfold BaseEntry_UseCommitted, created_at.
  assert (Hview : is_Some (match as_of id (Commits e) with
                           | [] => None
                           | chain => Some {| Mu := unlocked; Id := Id e; Commits := chain |}
                           end) <-> as_of id (Commits e) <> []).
  { destruct (as_of id (Commits e)); split; intros H;
      try done; try (by destruct H); eauto. }
  rewrite Hview, as_of_nonempty. split.
  - intros (c & Hin & Hle).
    destruct (last (Commits e)) as [cl|] eqn:Hlast.
    + exists (CommitId cl). split; [done|].
      pose proof (chain_ordered_last_min _ c cl Hord Hin Hlast). lia.
    + apply last_None in Hlast. rewrite Hlast in Hin. by apply elem_of_nil in Hin.
  - intros (cid & Hlast & Hle).
    destruct (last (Commits e)) as [cl|] eqn:Hl; simplify_eq/=.
    exists cl. split; [|done].
    apply last_Some in Hl as (l' & ->). apply elem_of_app. right. by left.
Qed.

Lemma view_range_omap id blks acc :
  view_range id blks acc = acc ++ omap (Block_CommittedView id) blks.
Proof.
  revert acc. induction blks as [|blk rest IH]; intros acc; simpl.
  - by rewrite app_nil_r.
  - destruct (Block_CommittedView id blk); rewrite IH; [|done].
    by rewrite <- app_assoc.
Qed.

Lemma Block_CommittedView_created id b :
  chain_ordered (Commits (Blk_Base b)) ->
  is_Some (Block_CommittedView id b) <->
  exists cid, created_at (Blk_Base b) = Some cid /\ cid <= id.
Proof.
  intros Hord. rewrite <- (UseCommitted_created id (Blk_Base b) Hord).
  unfold Block_CommittedView.
  destruct (BaseEntry_UseCommitted id (Blk_Base b)); split; intros H;
    try done; try (by destruct H); eauto.
Qed.

(** C5: [CommittedView] returns nil for a commit id older than the commit
    id the segment was created at; otherwise its view holds, in their
    order, the views of exactly the blocks that have one at the commit id,
    which are the blocks created at or before it.  The segment is left as
    it was. *)
Theorem CommittedView_blocks w id :
  writer (seg_mu (W_seg w)) = false ->
  chain_ordered (Commits (Seg_Base (W_seg w))) ->
  Forall (fun b => chain_ordered (Commits (Blk_Base b))) (BlockSet (W_seg w)) ->
  exists r,
    CommittedView id w = Ok (r, w)
    /\ (forall cid, created_at (Seg_Base (W_seg w)) = Some cid -> id < cid -> r = None)
    /\ (forall cid, created_at (Seg_Base (W_seg w)) = Some cid -> cid <= id -> is_Some r)
    /\ (forall view, r = Some view ->
          BlockSet view = omap (Block_CommittedView id) (BlockSet (W_seg w))
          /\ Id (Seg_Base view) = Id (Seg_Base (W_seg w))
          /\ forall b, b ∈ BlockSet (W_seg w) ->
               (is_Some (Block_CommittedView id b) <->
                exists cid, created_at (Blk_Base b) = Some cid /\ cid <= id)).
Proof.
  intros Hwr Hord Hblocks.
  pose proof (UseCommitted_created id (Seg_Base (W_seg w)) Hord) as Hseg.
  assert (Hb : forall b, b ∈ BlockSet (W_seg w) ->
            (is_Some (Block_CommittedView id b) <->
             exists cid, created_at (Blk_Base b) = Some cid /\ cid <= id)).
  { intros b Hin. apply Block_CommittedView_created.
    by apply (proj1 (Forall_forall _ _) Hblocks). }
  revert Hwr Hseg Hb. unfold seg_mu. open_world w. intros -> Hseg Hb.
  unfold CommittedView. run_go.
  destruct (BaseEntry_UseCommitted id _) as [base|] eqn:Hbase; simpl.
  - eexists. split; [reflexivity|]. split; [|split].
    + intros cid Hc Hlt. destruct (proj1 Hseg) as (cid' & Hc' & Hle); [eauto|].
      rewrite Hc in Hc'. simplify_eq. lia.
    + eauto.
    + intros view ?; simplify_eq/=. split; [by rewrite view_range_omap|].
      split; [|done].
      unfold BaseEntry_UseCommitted in Hbase. simpl in Hbase.
      destruct (as_of id chain); simplify_eq/=. done.
  - eexists. split; [reflexivity|]. split; [done|]. split; [|done].
    intros cid Hc Hle. destruct (proj2 Hseg) as [? ?]; [eauto|done].
Qed.

Lemma CommittedView_blocks_witness :
  exists r,
    CommittedView 2 sample_full = Ok (r, sample_full)
    /\ (forall cid, created_at (Seg_Base (W_seg sample_full)) = Some cid -> 2 < cid ->
         r = None)
    /\ (forall cid, created_at (Seg_Base (W_seg sample_full)) = Some cid -> cid <= 2 ->
         is_Some r)
    /\ (forall view, r = Some view ->
          BlockSet view = omap (Block_CommittedView 2) (BlockSet (W_seg sample_full))
          /\ Id (Seg_Base view) = Id (Seg_Base (W_seg sample_full))
          /\ forall b, b ∈ BlockSet (W_seg sample_full) ->
               (is_Some (Block_CommittedView 2 b) <->
                exists cid, created_at (Blk_Base b) = Some cid /\ cid <= 2)).
Proof.
  apply (CommittedView_blocks sample_full 2).
  - reflexivity.
  - simpl. done.
  - simpl. repeat constructor.
Defined.

(** At commit 2 the view holds the first block only; at commit 0 there is
    no view. *)
Lemma CommittedView_example :
  match CommittedView 2 sample_full with
  | Ok (Some view, w) => BlockSet view = sample_view_blocks /\ w = sample_full
  | _ => False
  end
  /\ CommittedView 0 sample_full = Ok (None, sample_full).
Proof.
  split; [|reflexivity]. vm_compute. split; reflexivity.
Qed.

(** ** Rebuild *)

Lemma index_from_notin i ids idx id :
  id ∉ ids -> index_from i ids idx !! id = idx !! id.
Proof.
  revert i idx. induction ids as [|a rest IH]; intros i idx Hnotin; simpl; [done|].
  apply not_elem_of_cons in Hnotin as [Hne Hnotin].
  rewrite IH by done. by rewrite lookup_insert_ne.
Qed.

Lemma index_from_lookup i ids idx k id :
  NoDup ids -> ids !! k = Some id -> index_from i ids idx !! id = Some (i + k)%nat.
Proof.
  revert i idx k. induction ids as [|a rest IH]; intros i idx k Hnd Hk; [done|].
  apply NoDup_cons in Hnd as [Hnotin Hnd]. destruct k as [|k]; simpl in *.
  - simplify_eq. rewrite index_from_notin by done.
    rewrite lookup_insert_eq. f_equal. lia.
  - rewrite (IH (S i) _ k) by done. f_equal. lia.
Qed.

Lemma index_from_Some i ids idx id j :
  index_from i ids idx !! id = Some j ->
  idx !! id = Some j \/ exists k, ids !! k = Some id /\ j = (i + k)%nat.
Proof.
  revert i idx. induction ids as [|a rest IH]; intros i idx Hj; simpl in *; [by left|].
  apply IH in Hj as [Hj|(k & Hk & ->)].
  - destruct (decide (a = id)) as [->|Hne].
    + rewrite lookup_insert_eq in Hj. simplify_eq.
      right. exists 0%nat. split; [done|lia].
    + rewrite lookup_insert_ne in Hj by done. by left.
  - right. exists (S k). split; [done|lia].
Qed.

Lemma TryUpdateBlockId_spec id c :
  Store (TryUpdateBlockId id c) = Store c
  /\ nextBlockId (Seq c) <= nextBlockId (Seq (TryUpdateBlockId id c))
  /\ id <= nextBlockId (Seq (TryUpdateBlockId id c)).
Proof.
  unfold TryUpdateBlockId. case_bool_decide; simpl; repeat split; try done; lia.
Qed.

Lemma informed_spec ids c :
  Store (informed ids c) = Store c
  /\ nextBlockId (Seq c) <= nextBlockId (Seq (informed ids c))
  /\ Forall (fun id => id <= nextBlockId (Seq (informed ids c))) ids.
Proof.
  revert c. induction ids as [|a rest IH]; intros c; simpl.
  - repeat split; [lia|constructor].
  - destruct (IH (TryUpdateBlockId a c)) as (Hs & Hle & Hall).
    destruct (TryUpdateBlockId_spec a c) as (Hs' & Hle' & Ha).
    repeat split; [congruence|lia|]. constructor; [lia|done].
Qed.

(** The loop of [rebuild] in closed form. *)
Lemma rebuild_range_closed e_id i blks c idx :
  rebuild_range (Some catalog_ref) e_id i blks c idx
  = Ok (Block_rebuild e_id <$> blks,
        informed (block_id <$> blks) c,
        index_from i (block_id <$> blks) idx).
Proof.
  revert i c idx. induction blks as [|b rest IH]; intros i c idx; simpl; [done|].
  rewrite IH. done.
Qed.

Lemma rebuild_closed table w :
  Table_Catalog table = Some catalog_ref ->
  rebuild table w
  = Ok (tt, {| W_cat := informed (block_id <$> BlockSet (W_seg w)) (W_cat w);
               W_seg := {| Seg_Base := Seg_Base (W_seg w);
                           Seg_Table := Some table;
                           Seg_Catalog := Some catalog_ref;
                           IdIndex := Some (index_from 0 (block_id <$> BlockSet (W_seg w)) ∅);
                           BlockSet := Block_rebuild (Id (Seg_Base (W_seg w)))
                                         <$> BlockSet (W_seg w) |} |}).
Proof.
  intros Hcat. unfold rebuild. rewrite Hcat, rebuild_range_closed. done.
Qed.

Lemma index_from_consistent e blks :
  NoDup (block_id <$> blks) ->
  IdIndex e = Some (index_from 0 (block_id <$> blks) ∅) ->
  block_id <$> BlockSet e = block_id <$> blks ->
  index_consistent e.
Proof.
  intros Hnd Hidx Hids. eexists. split; [done|]. split.
  - intros i blk Hi.
    rewrite (index_from_lookup 0 _ _ i (block_id blk)); [done..|].
    rewrite <- Hids, list_lookup_fmap, Hi. done.
  - intros id i Hi. apply index_from_Some in Hi as [Hi|(k & Hk & ->)]; [done|].
    rewrite <- Hids, list_lookup_fmap in Hk. simpl.
    destruct (BlockSet e !! k) as [blk|]; simplify_eq/=. eauto.
Qed.

(** [onNewBlock] keeps the index consistent when the id of the new block is
    not the id of a block of the segment. *)
Lemma onNewBlock_consistent w entry :
  index_consistent (W_seg w) ->
  block_id entry ∉ block_id <$> BlockSet (W_seg w) ->
  exists w', onNewBlock entry w = Ok (tt, w')
    /\ BlockSet (W_seg w') = BlockSet (W_seg w) ++ [entry]
    /\ index_consistent (W_seg w').
Proof.
  intros (ix & Hidx & Hfwd & Hbwd) Hfresh. unfold onNewBlock. rewrite Hidx.
  eexists. split; [reflexivity|]. split; [done|]. simpl.
  eexists. split; [reflexivity|]. split.
  - intros i blk Hi. apply lookup_app_Some in Hi as [Hi|[Hlen Hi]].
    + rewrite lookup_insert_ne; [by apply Hfwd|].
      intros Heq. apply Hfresh. fold (block_id entry) in Heq. rewrite Heq.
      apply list_elem_of_fmap. exists blk. split; [done|].
      by apply list_elem_of_lookup_2 in Hi.
    + apply list_lookup_singleton_Some in Hi as [Hi ->].
      assert (i = length (BlockSet (W_seg w))) as -> by lia.
      unfold block_id. by rewrite lookup_insert_eq.
  - intros id i Hi. fold (block_id entry) in Hi.
    destruct (decide (block_id entry = id)) as [Heq|Hne].
    + rewrite Heq, lookup_insert_eq in Hi. simplify_eq.
      exists entry. split; [|done].
      simpl. rewrite lookup_app_r by lia. by rewrite Nat.sub_diag.
    + rewrite lookup_insert_ne in Hi by done.
      destruct (Hbwd id i Hi) as (blk & Hblk & Hid).
      exists blk. split; [|done]. simpl. by apply lookup_app_l_Some.
Qed.

Lemma block_content_rebuild e_id (blks : list Block) :
  block_content <$> (Block_rebuild e_id <$> blks) = block_content <$> blks.
Proof. rewrite <- list_fmap_compose. by apply list_fmap_ext. Qed.

Lemma block_id_rebuild e_id (blks : list Block) :
  block_id <$> (Block_rebuild e_id <$> blks) = block_id <$> blks.
Proof. rewrite <- list_fmap_compose. by apply list_fmap_ext. Qed.

(** Under a sequence that is ahead of every block id [CreateBlock] issues a
    new id, so that the index stays consistent. *)
Lemma CreateBlock_consistent w w' be tranId exIndex autoCommit :
  index_consistent (W_seg w) ->
  Forall (fun b => block_id b <= nextBlockId (Seq (W_cat w))) (BlockSet (W_seg w)) ->
  nextBlockId (Seq (W_cat w)) + 1 < 2 ^ 64 ->
  CreateBlock tranId exIndex autoCommit w = Ok (be, w') ->
  index_consistent (W_seg w')
  /\ Forall (fun b => block_id b <= nextBlockId (Seq (W_cat w'))) (BlockSet (W_seg w')).
Proof.
  intros Hcons Hall Hroom Hrun.
  destruct (CreateBlock_Ok_inv _ _ _ _ _ _ Hrun)
    as (Hb & _ & _ & _ & (ix & Hix & Hix') & Hid & Hnext & _).
  unfold uint64_add in Hid. rewrite N.mod_small in Hid by done.
  assert (Hfresh : block_id be ∉ block_id <$> BlockSet (W_seg w)).
  { intros Hin. apply list_elem_of_fmap in Hin as (b & Heq & Hin).
    apply (proj1 (Forall_forall _ _) Hall) in Hin. lia. }
  destruct (onNewBlock_consistent w be Hcons Hfresh) as (w2 & Hrun2 & Hb2 & Hcons2).
  unfold onNewBlock in Hrun2. rewrite Hix in Hrun2. simplify_eq/=.
  split.
  - destruct Hcons2 as (ix2 & Hix2 & Hfwd & Hbwd). simpl in *. simplify_eq.
    exists (<[block_id be := length (BlockSet (W_seg w))]> ix).
    rewrite Hb. done.
  - rewrite Hb, Hnext. apply Forall_app. split.
    + eapply Forall_impl; [exact Hall|]. simpl. intros b Hle. lia.
    + constructor; [lia|constructor].
Qed.

(** C8: after [rebuild] the id index maps every block id to the position of
    its block in the block sequence, whose order is kept; the segment and
    every block have their back-references again; and the block-id sequence
    of the catalog has been told of every block id.  [onNewBlock] keeps the
    index consistent for a block with a new id, which is what [CreateBlock]
    hands it under a sequence that has been told of every block id. *)
Theorem rebuild_index_consistent w table :
  Table_Catalog table = Some catalog_ref ->
  NoDup (block_id <$> BlockSet (W_seg w)) ->
  exists w',
    rebuild table w = Ok (tt, w')
    /\ index_consistent (W_seg w')
    /\ block_content <$> BlockSet (W_seg w') = block_content <$> BlockSet (W_seg w)
    /\ Seg_Table (W_seg w') = Some table
    /\ Seg_Catalog (W_seg w') = Table_Catalog table
    /\ Forall (fun b => Blk_Segment b = Some (Id (Seg_Base (W_seg w'))))
         (BlockSet (W_seg w'))
    /\ Forall (fun b => block_id b <= nextBlockId (Seq (W_cat w'))) (BlockSet (W_seg w'))
    /\ (forall w1 entry,
          index_consistent (W_seg w1) ->
          block_id entry ∉ block_id <$> BlockSet (W_seg w1) ->
          exists w2, onNewBlock entry w1 = Ok (tt, w2)
            /\ BlockSet (W_seg w2) = BlockSet (W_seg w1) ++ [entry]
            /\ index_consistent (W_seg w2))
    /\ (forall w1 w2 be tranId exIndex autoCommit,
          index_consistent (W_seg w1) ->
          Forall (fun b => block_id b <= nextBlockId (Seq (W_cat w1)))
            (BlockSet (W_seg w1)) ->
          nextBlockId (Seq (W_cat w1)) + 1 < 2 ^ 64 ->
          CreateBlock tranId exIndex autoCommit w1 = Ok (be, w2) ->
          index_consistent (W_seg w2)
          /\ Forall (fun b => block_id b <= nextBlockId (Seq (W_cat w2)))
               (BlockSet (W_seg w2))).
Proof.
  intros Hcat Hnd. rewrite (rebuild_closed table w Hcat).
  eexists. split; [reflexivity|]. simpl.
  split; [|split; [|split; [|split; [|split; [|split; [|split]]]]]].
  8: { intros w1 w2 be tranId exIndex autoCommit. apply CreateBlock_consistent. }
  - apply (index_from_consistent _ (BlockSet (W_seg w))); [done|done|].
    simpl. apply block_id_rebuild.
  - apply block_content_rebuild.
  - done.
  - done.
  - apply Forall_forall. intros b' Hin.
    by apply list_elem_of_fmap in Hin as (b & -> & Hin).
  - destruct (informed_spec (block_id <$> BlockSet (W_seg w)) (W_cat w)) as (_ & _ & Hall).
    apply Forall_forall. intros b' Hin.
    apply list_elem_of_fmap in Hin as (b & -> & Hin).
    apply (proj1 (Forall_forall _ _) Hall).
    apply list_elem_of_fmap. by exists b.
  - apply onNewBlock_consistent.
Qed.

Lemma rebuild_index_consistent_witness :
  exists w',
    rebuild sample_table sample_decoded = Ok (tt, w')
    /\ index_consistent (W_seg w')
    /\ block_content <$> BlockSet (W_seg w')
       = block_content <$> BlockSet (W_seg sample_decoded)
    /\ Seg_Table (W_seg w') = Some sample_table
    /\ Seg_Catalog (W_seg w') = Table_Catalog sample_table
    /\ Forall (fun b => Blk_Segment b = Some (Id (Seg_Base (W_seg w'))))
         (BlockSet (W_seg w'))
    /\ Forall (fun b => block_id b <= nextBlockId (Seq (W_cat w'))) (BlockSet (W_seg w'))
    /\ (forall w1 entry,
          index_consistent (W_seg w1) ->
          block_id entry ∉ block_id <$> BlockSet (W_seg w1) ->
          exists w2, onNewBlock entry w1 = Ok (tt, w2)
            /\ BlockSet (W_seg w2) = BlockSet (W_seg w1) ++ [entry]
            /\ index_consistent (W_seg w2))
    /\ (forall w1 w2 be tranId exIndex autoCommit,
          index_consistent (W_seg w1) ->
          Forall (fun b => block_id b <= nextBlockId (Seq (W_cat w1)))
            (BlockSet (W_seg w1)) ->
          nextBlockId (Seq (W_cat w1)) + 1 < 2 ^ 64 ->
          CreateBlock tranId exIndex autoCommit w1 = Ok (be, w2) ->
          index_consistent (W_seg w2)
          /\ Forall (fun b => block_id b <= nextBlockId (Seq (W_cat w2)))
               (BlockSet (W_seg w2))).
Proof.
  apply (rebuild_index_consistent sample_decoded sample_table).
  - reflexivity.
  - vm_compute. repeat constructor; rewrite ?list_elem_of_In; simpl; intuition discriminate.
Defined.

(** The rebuilt sample: both blocks are indexed, attached to segment 1, and
    the sequence stands at the greatest block id. *)
Lemma rebuild_example :
  match rebuild sample_table sample_decoded with
  | Ok (_, w') =>
      IdIndex (W_seg w') = Some {[ 1 := 0%nat; 2 := 1%nat ]}
      /\ Blk_Segment <$> BlockSet (W_seg w') = [Some 1; Some 1]
      /\ nextBlockId (Seq (W_cat w')) = 2
      /\ GetBlock 2 0 (W_seg w') = Ok (BlockSet (W_seg w') !! 1%nat)
  | _ => False
  end.
Proof. vm_compute. repeat split. Qed.

(** ** Serialization *)

Lemma dec_index_json i : dec_index None (Some (json_of_index i)) = Some i.
Proof. by destruct i as [[[n]]|]. Qed.

Lemma dec_commit_json c : dec_commit (json_of_commit c) = Some c.
Proof.
  destruct c as [cid tid op ex pv ap]. unfold dec_commit, json_of_commit.
  cbn [CommitId TranId Op ExternalIndex PrevIndex AppliedIndex].
  change (field "CommitId" _) with (Some (JNum cid)).
  change (field "TranId" _) with (Some (JNum tid)).
  change (field "Op" _) with (Some (JNum (Op_code op))).
  change (field "ExternalIndex" _) with (Some (json_of_index ex)).
  change (field "PrevIndex" _) with (Some (json_of_index pv)).
  change (field "AppliedIndex" _) with (Some (json_of_index ap)).
  rewrite !dec_index_json. by destruct op.
Qed.

Lemma mapM_json {A B} (enc : A -> json) (dec : json -> option B) (g : A -> B) (l : list A) :
  (forall x, dec (enc x) = Some (g x)) ->
  mapM dec (enc <$> l) = Some (g <$> l).
Proof.
  intros Hdec. induction l as [|x l IH]; [done|].
  change (mapM dec (enc <$> x :: l))
    with (y ← dec (enc x); k ← mapM dec (enc <$> l); mret (y :: k)).
  rewrite Hdec, IH. done.
Qed.


Lemma dec_BaseEntry_json old e name v :
  name <> "Id"%string -> name <> "CommitInfo"%string ->
  dec_BaseEntry old (BaseEntry_fields e ++ [(name, v)])
  = Some {| Mu := Mu old; Id := Id e; Commits := Commits e |}.
Proof.
  intros H1 H2. unfold dec_BaseEntry, BaseEntry_fields. simpl.
  rewrite !bool_decide_eq_false_2 by done. simpl.
  rewrite (mapM_json json_of_commit dec_commit id) by apply dec_commit_json.
  simpl. by rewrite list_fmap_id.
Qed.

Lemma dec_block_json old b : dec_block old (json_of_block b) = Some (decoded_into old b).
Proof.
  unfold dec_block, json_of_block. rewrite dec_BaseEntry_json by done. simpl.
  done.
Qed.

Lemma dec_slice_json old blks :
  dec_slice dec_block zero_Block old (json_of_block <$> blks)
  = Some (decoded_blocks old blks).
Proof.
  revert old. induction blks as [|b rest IH]; intros old; [done|].
  change (json_of_block <$> b :: rest) with (json_of_block b :: (json_of_block <$> rest)).
  cbn [dec_slice decoded_blocks]. rewrite dec_block_json, IH. done.
Qed.

Lemma Unmarshal_Marshal e e0 :
  Unmarshal (Marshal e) e0
  = Some {| Seg_Base := {| Mu := Mu (Seg_Base e0); Id := Id (Seg_Base e);
                           Commits := Commits (Seg_Base e) |};
            Seg_Table := Seg_Table e0; Seg_Catalog := Seg_Catalog e0;
            IdIndex := IdIndex e0;
            BlockSet := decoded_blocks (BlockSet e0) (BlockSet e) |}.
Proof.
  unfold Unmarshal, Marshal. rewrite dec_BaseEntry_json by done. simpl.
  rewrite dec_slice_json. done.
Qed.

Lemma block_content_decoded (old blks : list Block) :
  block_content <$> decoded_blocks old blks = block_content <$> blks.
Proof.
  revert old. induction blks as [|b rest IH]; intros old; [done|].
  simpl. by rewrite IH.
Qed.

Lemma block_id_decoded (old blks : list Block) :
  block_id <$> decoded_blocks old blks = block_id <$> blks.
Proof.
  revert old. induction blks as [|b rest IH]; intros old; [done|].
  simpl. by rewrite IH.
Qed.

Lemma length_decoded_blocks (old blks : list Block) :
  length (decoded_blocks old blks) = length blks.
Proof.
  revert old. induction blks as [|b rest IH]; intros old; [done|].
  simpl. by rewrite IH.
Qed.

Lemma Blk_Segment_rebuild e_id (blks : list Block) :
  Blk_Segment <$> (Block_rebuild e_id <$> blks) = replicate (length blks) (Some e_id).
Proof. induction blks as [|b rest IH]; [done|]. simpl. by rewrite <- IH. Qed.

(** C7: a segment serialized, deserialized into any segment [e0] and
    rebuilt under a table has the id index a rebuild of the segment itself
    under that table makes, which maps every block id to the position of
    its block when the ids are distinct, and has the id, the commit chain
    and the blocks (ids, commit chains and row counts, in the same order)
    of the segment; the catalog is informed alike, and the back-references
    are those rebuild sets. *)
Theorem Marshal_Unmarshal_rebuild e e0 table c :
  Table_Catalog table = Some catalog_ref ->
  exists e1 w1 w2,
    Unmarshal (Marshal e) e0 = Some e1
    /\ rebuild table {| W_cat := c; W_seg := e |} = Ok (tt, w1)
    /\ rebuild table {| W_cat := c; W_seg := e1 |} = Ok (tt, w2)
    /\ IdIndex (W_seg w2) = IdIndex (W_seg w1)
    /\ (NoDup (block_id <$> BlockSet e) -> index_consistent (W_seg w2))
    /\ Id (Seg_Base (W_seg w2)) = Id (Seg_Base e)
    /\ Commits (Seg_Base (W_seg w2)) = Commits (Seg_Base e)
    /\ block_content <$> BlockSet (W_seg w2) = block_content <$> BlockSet e
    /\ W_cat w2 = W_cat w1
    /\ Seg_Table (W_seg w2) = Some table
    /\ Seg_Catalog (W_seg w2) = Table_Catalog table
    /\ Blk_Segment <$> BlockSet (W_seg w2) = Blk_Segment <$> BlockSet (W_seg w1).
Proof.
  intros Hcat.
  eexists _, _, _. split; [apply Unmarshal_Marshal|].
  split; [apply (rebuild_closed _ _ Hcat)|].
  split; [apply (rebuild_closed _ _ Hcat)|]. simpl. rewrite !block_id_decoded.
  split; [done|]. split.
  { intros Hnd. apply (index_from_consistent _ (BlockSet e)); [done|done|].
    simpl. by rewrite block_id_rebuild, block_id_decoded. }
  split; [done|]. split; [done|]. split.
  { by rewrite block_content_rebuild, block_content_decoded. }
  split; [done|]. split; [done|]. split; [done|].
  by rewrite !Blk_Segment_rebuild, length_decoded_blocks.
Qed.

Lemma Marshal_Unmarshal_rebuild_witness :
  exists e1 w1 w2,
    Unmarshal (Marshal (W_seg sample_full)) zero_Segment = Some e1
    /\ rebuild sample_table {| W_cat := sample_catalog; W_seg := W_seg sample_full |}
       = Ok (tt, w1)
    /\ rebuild sample_table {| W_cat := sample_catalog; W_seg := e1 |} = Ok (tt, w2)
    /\ IdIndex (W_seg w2) = IdIndex (W_seg w1)
    /\ (NoDup (block_id <$> BlockSet (W_seg sample_full)) -> index_consistent (W_seg w2))
    /\ Id (Seg_Base (W_seg w2)) = Id (Seg_Base (W_seg sample_full))
    /\ Commits (Seg_Base (W_seg w2)) = Commits (Seg_Base (W_seg sample_full))
    /\ block_content <$> BlockSet (W_seg w2)
       = block_content <$> BlockSet (W_seg sample_full)
    /\ W_cat w2 = W_cat w1
    /\ Seg_Table (W_seg w2) = Some sample_table
    /\ Seg_Catalog (W_seg w2) = Table_Catalog sample_table
    /\ Blk_Segment <$> BlockSet (W_seg w2) = Blk_Segment <$> BlockSet (W_seg w1).
Proof.
  apply (Marshal_Unmarshal_rebuild (W_seg sample_full) zero_Segment sample_table
           sample_catalog).
  reflexivity.
Defined.

(** The document of the sample segment after its upgrade carries the whole
    chain, and the decoder reads it back. *)
Lemma Marshal_example :
  Marshal (W_seg sample_sorted)
  = JObj [("Id"%string, JNum 1);
          ("CommitInfo"%string,
           JArr [JObj [("CommitId"%string, JNum 10); ("TranId"%string, JNum 10);
                       ("Op"%string, JNum 1); ("ExternalIndex"%string, JNull);
                       ("PrevIndex"%string, JNull); ("AppliedIndex"%string, JNull)];
                 JObj [("CommitId"%string, JNum 1); ("TranId"%string, JNum 1);
                       ("Op"%string, JNum 0); ("ExternalIndex"%string, JNull);
                       ("PrevIndex"%string, JNull); ("AppliedIndex"%string, JNull)]]);
          ("BlockSet"%string,
           JArr [json_of_block (sample_block 1 2 4); json_of_block (sample_block 2 3 4)])]
  /\ (Commits ∘ Seg_Base) <$> Unmarshal (Marshal (W_seg sample_sorted)) zero_Segment
     = Some (Commits (Seg_Base (W_seg sample_sorted))).
Proof. split; reflexivity. Qed.

(** ** Log entries *)

(** C9: [ToLogEntry] panics for the type DropSegment on a segment that is
    not soft-deleted, and for every type other than CreateSegment,
    UpgradeSegment and DropSegment; for these three types, on a segment
    with its table (soft-deleted in the case of DropSegment), the entry has
    the given type and carries the id and the commit chain of the segment
    and the id of its table. *)
Theorem ToLogEntry_cases e :
  (last_op (Seg_Base e) <> Some OpSoftDelete ->
     ToLogEntry ETDropSegment e
     = Panic (match Commits (Seg_Base e) with
              | [] => nil_deref
              | _ => "logic error"%string
              end))
  /\ (forall eType,
        eType <> ETCreateSegment -> eType <> ETUpgradeSegment -> eType <> ETDropSegment ->
        ToLogEntry eType e = Panic "not supported")
  /\ (forall eType t,
        eType = ETCreateSegment \/ eType = ETUpgradeSegment
        \/ (eType = ETDropSegment /\ last_op (Seg_Base e) = Some OpSoftDelete) ->
        Seg_Table e = Some t ->
        exists le, ToLogEntry eType e = Ok le
          /\ Meta_Type le = eType
          /\ Payload le = JObj (BaseEntry_fields (Seg_Base e)
                                ++ [("TableId"%string, JNum (Table_Id t))])
          /\ forall target,
               segmentLogEntry_Unmarshal (Payload le) target
               = Some {| SLE_BaseEntry := {| Mu := Mu (SLE_BaseEntry target);
                                             Id := Id (Seg_Base e);
                                             Commits := Commits (Seg_Base e) |};
                         SLE_TableId := Table_Id t;
                         SLE_Catalog := SLE_Catalog target |}).
Proof.
  unfold last_op. split; [|split].
  - intros Hop. unfold ToLogEntry, BaseEntry_IsSoftDeletedLocked, current.
    destruct (Commits (Seg_Base e)) as [|c older]; simpl; [done|].
    rewrite bool_decide_eq_false_2 by (intros Heq; apply Hop; simpl; by rewrite Heq).
    done.
  - intros eType H1 H2 H3. by destruct eType.
  - intros eType t Htype Ht.
    assert (Hrun : ToLogEntry eType e
                   = Ok (make_LogEntry eType
                           (segmentLogEntry_Marshal
                              {| SLE_BaseEntry := Seg_Base e; SLE_TableId := Table_Id t;
                                 SLE_Catalog := None |}))).
    { unfold ToLogEntry, toLogEntry, BaseEntry_IsSoftDeletedLocked, current.
      rewrite Ht. destruct Htype as [->| [->| [-> Hop]]]; simpl; [done..|].
      destruct (Commits (Seg_Base e)) as [|c older]; simplify_eq/=.
      by rewrite bool_decide_eq_true_2. }
    eexists. split; [exact Hrun|]. split; [done|]. split; [done|].
    intros target.
    unfold make_LogEntry, segmentLogEntry_Marshal, segmentLogEntry_Unmarshal.
    cbn [Payload SLE_BaseEntry SLE_TableId SLE_Catalog].
    rewrite dec_BaseEntry_json by done. simpl. done.
Qed.

Lemma ToLogEntry_cases_witness :
  ToLogEntry ETDropSegment (W_seg sample_sorted) = Panic "logic error"
  /\ ToLogEntry ETCreateBlock (W_seg sample_sorted) = Panic "not supported"
  /\ exists le, ToLogEntry ETUpgradeSegment (W_seg sample_sorted) = Ok le
       /\ Meta_Type le = ETUpgradeSegment
       /\ Payload le = JObj (BaseEntry_fields (Seg_Base (W_seg sample_sorted))
                             ++ [("TableId"%string, JNum 7)])
       /\ forall target,
            segmentLogEntry_Unmarshal (Payload le) target
            = Some {| SLE_BaseEntry := {| Mu := Mu (SLE_BaseEntry target);
                                          Id := 1;
                                          Commits := Commits (Seg_Base (W_seg sample_sorted)) |};
                      SLE_TableId := 7;
                      SLE_Catalog := SLE_Catalog target |}.
Proof.
  destruct (ToLogEntry_cases (W_seg sample_sorted)) as (Hdrop & Hother & Hok).
  split; [|split].
  - apply Hdrop. discriminate.
  - apply Hother; discriminate.
  - apply (Hok ETUpgradeSegment sample_table); [|reflexivity]. right. left. reflexivity.
Defined.

(* ------------------------------------------------------------------ *)
(** ** Lookup of a block by its id *)

Lemma index_consistent_NoDup e :
  index_consistent e -> NoDup (block_id <$> BlockSet e).
Proof.
  intros (idx & _ & Hfwd & _). apply NoDup_alt. intros i j id Hi Hj.
  apply list_lookup_fmap_Some_1 in Hi as (bi & -> & Hi).
  apply list_lookup_fmap_Some_1 in Hj as (bj & Hid & Hj).
  apply Hfwd in Hi. apply Hfwd in Hj. rewrite Hid in Hi. congruence.
Qed.

Lemma GetBlock_consistent e id tranId :
  index_consistent e ->
  exists r, GetBlock id tranId e = Ok r
    /\ (forall b, r = Some b -> b ∈ BlockSet e /\ block_id b = id)
    /\ (r = None <-> id ∉ block_id <$> BlockSet e).
Proof.
  intros (idx & Hidx & Hfwd & Hbwd). unfold GetBlock. rewrite Hidx. simpl.
  destruct (idx !! id) as [pos|] eqn:Hpos.
  - destruct (Hbwd _ _ Hpos) as (blk & Hblk & Hid). rewrite Hblk.
    eexists; split; [done|]. split.
    + intros b ?; simplify_eq. split; [by eapply list_elem_of_lookup_2|done].
    + split; [done|]. intros Hnot. exfalso. apply Hnot.
      apply list_elem_of_fmap. exists blk. split; [done|].
      by eapply list_elem_of_lookup_2.
  - exists None. split; [done|]. split; [done|]. split; [|done]. intros _ Hin.
    apply list_elem_of_fmap in Hin as (b & -> & Hb).
    apply list_elem_of_lookup_1 in Hb as (i & Hi).
    apply Hfwd in Hi. congruence.
Qed.

(** The index of a sample segment is the one [rebuild] makes of its blocks. *)
Ltac sample_consistent w :=
  apply (index_from_consistent _ (BlockSet (W_seg w)));
  [ apply NoDup_ListNoDup; repeat constructor; simpl; intuition discriminate
  | reflexivity | reflexivity ].

(** X1: on a segment whose index is consistent, [SimpleGetBlock] never
    panics.  It returns what [GetBlock] returns, the block that has the id,
    and nil exactly when no block has it; it leaves the segment, its lock
    included, as it was. *)
Theorem SimpleGetBlock_consistent w m id :
  writer (seg_mu (W_seg w)) = false ->
  index_consistent (W_seg w) ->
  exists r,
    SimpleGetBlock m id w = Ok (r, w)
    /\ GetBlock id m (W_seg w) = Ok r
    /\ (forall b, r = Some b -> b ∈ BlockSet (W_seg w) /\ block_id b = id)
    /\ (r = None <-> id ∉ block_id <$> BlockSet (W_seg w)).
Proof.
  intros Hwr Hcons.
  destruct (GetBlock_consistent _ id m Hcons) as (r & Hget & Hsome & Hnone).
  exists r. split; [|done].
  revert Hwr Hget. clear. unfold seg_mu, SimpleGetBlock.
  open_world w. intros -> Hget. run_go.
  unfold GetBlock in *. simpl in *.
  destruct (idx ≫= (.!! id)) as [pos|]; [|by simplify_eq].
  destruct (blks !! pos); by simplify_eq.
Qed.

Lemma SimpleGetBlock_consistent_witness :
  exists r,
    SimpleGetBlock 0 2 sample_full = Ok (r, sample_full)
    /\ GetBlock 2 0 (W_seg sample_full) = Ok r
    /\ (forall b, r = Some b -> b ∈ BlockSet (W_seg sample_full) /\ block_id b = 2)
    /\ (r = None <-> 2 ∉ block_id <$> BlockSet (W_seg sample_full)).
Proof.
  apply (SimpleGetBlock_consistent sample_full 0 2); [reflexivity|].
  sample_consistent sample_full.
Defined.

(** X2: the block [CreateBlock] returns is the one a lookup of its id finds
    from then on, through [GetBlock] and through [SimpleGetBlock], whatever
    the index held before; the lookup of any other id is as it was. *)
Theorem CreateBlock_GetBlock w w' be tranId exIndex autoCommit :
  CreateBlock tranId exIndex autoCommit w = Ok (be, w') ->
  (forall t, GetBlock (block_id be) t (W_seg w') = Ok (Some be))
  /\ (forall m, SimpleGetBlock m (block_id be) w' = Ok (Some be, w'))
  /\ (forall id t r, id <> block_id be ->
        GetBlock id t (W_seg w) = Ok r -> GetBlock id t (W_seg w') = Ok r).
Proof.
  unfold CreateBlock, newBlockEntry, onNewBlock, block_id, SimpleGetBlock.
  open_world w. run_go.
  destruct tbl as [t|]; [|done]. simpl.
  destruct (Table_Catalog t); [|done]. simpl.
  destruct wr; [done|]. destruct rd; [|done]. simpl.
  destruct idx as [idx|]; [|done]. simpl.
  set (be0 := {| Blk_Base := _; Count := 0; Blk_Segment := _ |}).
  intros Hrun.
  assert (W_seg w' = {| Seg_Base := {| Mu := unlocked; Id := sid; Commits := chain |};
                        Seg_Table := Some t; Seg_Catalog := scat;
                        IdIndex := Some (<[Id (Blk_Base be0) := length blks]> idx);
                        BlockSet := blks ++ [be0] |} /\ be = be0) as [Hw' ->].
  { destruct autoCommit; simpl in Hrun; [|by simplify_eq].
    destruct scat; [|done]. simpl in Hrun. by simplify_eq. }
  assert (forall t0, GetBlock (Id (Blk_Base be0)) t0 (W_seg w') = Ok (Some be0)) as Hget.
  { intros t0. rewrite Hw'. unfold GetBlock. simpl. rewrite lookup_insert_eq.
    rewrite lookup_app_r by done. by rewrite Nat.sub_diag. }
  split; [done|]. split.
  - intros m. specialize (Hget m). destruct w' as [cat' seg']. simpl in *.
    subst seg'. simpl. unfold GetBlock in *. simpl in *.
    rewrite lookup_insert_eq in *. destruct ((blks ++ [be0]) !! length blks); by simplify_eq.
  - intros id t0 r Hne. rewrite Hw'. unfold GetBlock. simpl.
    rewrite lookup_insert_ne by done.
    destruct (idx !! id) as [pos|]; [|done].
    destruct (blks !! pos) as [b|] eqn:Hb; [|done].
    by rewrite (lookup_app_l_Some _ _ _ _ Hb).
Qed.

Lemma CreateBlock_GetBlock_witness :
  exists be w',
    CreateBlock 12 None true sample_one = Ok (be, w')
    /\ (forall t, GetBlock (block_id be) t (W_seg w') = Ok (Some be))
    /\ (forall m, SimpleGetBlock m (block_id be) w' = Ok (Some be, w'))
    /\ (forall id t r, id <> block_id be ->
          GetBlock id t (W_seg sample_one) = Ok r -> GetBlock id t (W_seg w') = Ok r).
Proof.
  eexists _, _. split; [reflexivity|].
  apply (CreateBlock_GetBlock sample_one _ _ 12 None true). reflexivity.
Defined.

(** X3: the segment [CommittedView] returns is detached: it has no table,
    no catalog and no index.  No block of it is found by id, although its
    block set holds the blocks of the view, a block cannot be added to it,
    and it has no common id. *)
Theorem CommittedView_detached w w' id view :
  CommittedView id w = Ok (Some view, w') ->
  IdIndex view = None /\ Seg_Table view = None /\ Seg_Catalog view = None
  /\ BlockSet view = omap (Block_CommittedView id) (BlockSet (W_seg w))
  /\ (forall id' t, GetBlock id' t view = Ok None)
  /\ (forall entry c,
        onNewBlock entry {| W_cat := c; W_seg := view |}
        = Panic "assignment to entry in nil map")
  /\ AsCommonID view = Panic nil_deref.
Proof.
  unfold CommittedView. open_world w. run_go.
  destruct (BaseEntry_UseCommitted id _) as [base|]; simpl; [|intros ?; simplify_eq].
  destruct wr; [done|]. simpl. intros ?; simplify_eq/=.
  rewrite view_range_omap. done.
Qed.

Lemma CommittedView_detached_witness :
  exists view w',
    CommittedView 2 sample_full = Ok (Some view, w')
    /\ IdIndex view = None /\ Seg_Table view = None /\ Seg_Catalog view = None
    /\ BlockSet view = omap (Block_CommittedView 2) (BlockSet (W_seg sample_full))
    /\ (forall id' t, GetBlock id' t view = Ok None)
    /\ (forall entry c,
          onNewBlock entry {| W_cat := c; W_seg := view |}
          = Panic "assignment to entry in nil map")
    /\ AsCommonID view = Panic nil_deref.
Proof.
  eexists _, _. split; [vm_compute; reflexivity|].
  eapply (CommittedView_detached sample_full _ 2). vm_compute. reflexivity.
Defined.

Lemma index_from_last i ids idx k id :
  ids !! k = Some id ->
  (forall k', (k < k')%nat -> ids !! k' <> Some id) ->
  index_from i ids idx !! id = Some (i + k)%nat.
Proof.
  revert i idx k. induction ids as [|a rest IH]; intros i idx k Hk Hlast; [done|].
  destruct k as [|k]; simpl in *.
  - simplify_eq. rewrite index_from_notin.
    + rewrite lookup_insert_eq. f_equal. lia.
    + intros Hin. apply list_elem_of_lookup_1 in Hin as (j & Hj).
      apply (Hlast (S j)); [lia|done].
  - rewrite (IH (S i) _ k); [f_equal; lia|done|].
    intros k' Hlt. apply (Hlast (S k')). lia.
Qed.

(** X4: [rebuild] never leaves an index that makes a lookup fail.  After it
    [GetBlock] returns nil for an id no block has, and for an id some blocks
    have it returns the one at the last of their positions: of two blocks
    with the same id the earlier one is no longer found. *)
Theorem rebuild_GetBlock_last w table :
  Table_Catalog table = Some catalog_ref ->
  exists w',
    rebuild table w = Ok (tt, w')
    /\ (forall id t, exists r,
          GetBlock id t (W_seg w') = Ok r /\ forall b, r = Some b -> block_id b = id)
    /\ (forall k b t,
          BlockSet (W_seg w) !! k = Some b ->
          (forall k' b', (k < k')%nat -> BlockSet (W_seg w) !! k' = Some b' ->
                         block_id b' <> block_id b) ->
          GetBlock (block_id b) t (W_seg w')
          = Ok (Some (Block_rebuild (Id (Seg_Base (W_seg w))) b)))
    /\ (forall id t, id ∉ block_id <$> BlockSet (W_seg w) ->
          GetBlock id t (W_seg w') = Ok None).
Proof.
  intros Hcat. eexists. split; [by apply rebuild_closed|].
  unfold GetBlock. simpl. split; [|split].
  - intros id _.
    destruct (index_from 0 (block_id <$> BlockSet (W_seg w)) ∅ !! id) as [pos|] eqn:Hpos;
      [|by eexists].
    apply index_from_Some in Hpos as [Hpos|(k & Hk & ->)]; [done|].
    apply list_lookup_fmap_Some_1 in Hk as (b & -> & Hb).
    rewrite list_lookup_fmap. simpl. rewrite Hb. simpl.
    eexists. split; [done|]. by intros ? ?; simplify_eq.
  - intros k b _ Hb Hlast.
    rewrite (index_from_last 0 _ _ k).
    + simpl. by rewrite list_lookup_fmap, Hb.
    + by rewrite list_lookup_fmap, Hb.
    + intros k' Hlt Hk'. apply list_lookup_fmap_Some_1 in Hk' as (b' & Hid & Hb').
      by apply (Hlast k' b').
  - intros id _ Hnotin. by rewrite index_from_notin.
Qed.

Lemma rebuild_GetBlock_last_witness :
  exists w',
    rebuild sample_table sample_twins = Ok (tt, w')
    /\ (forall id t, exists r,
          GetBlock id t (W_seg w') = Ok r /\ forall b, r = Some b -> block_id b = id)
    /\ (forall k b t,
          BlockSet (W_seg sample_twins) !! k = Some b ->
          (forall k' b', (k < k')%nat -> BlockSet (W_seg sample_twins) !! k' = Some b' ->
                         block_id b' <> block_id b) ->
          GetBlock (block_id b) t (W_seg w')
          = Ok (Some (Block_rebuild (Id (Seg_Base (W_seg sample_twins))) b)))
    /\ (forall id t, id ∉ block_id <$> BlockSet (W_seg sample_twins) ->
          GetBlock id t (W_seg w') = Ok None).
Proof. apply (rebuild_GetBlock_last sample_twins sample_table). reflexivity. Defined.

Lemma decoded_blocks_nil (blks : list Block) :
  decoded_blocks [] blks = decoded_into zero_Block <$> blks.
Proof. induction blks as [|b rest IH]; [done|]. simpl. by rewrite IH. Qed.

(** X5: a segment deserialized into a new value has no index: until it is
    rebuilt no block of it is found by id and a new block cannot be added.
    Once it is rebuilt under its table, each block of the segment that was
    serialized is found by its id, with its content and with the segment as
    its owner, and no other id is found. *)
Theorem Unmarshal_rebuild_GetBlock e table c :
  Table_Catalog table = Some catalog_ref ->
  NoDup (block_id <$> BlockSet e) ->
  exists e1 w2,
    Unmarshal (Marshal e) zero_Segment = Some e1
    /\ (forall id t, GetBlock id t e1 = Ok None)
    /\ (forall entry,
          onNewBlock entry {| W_cat := c; W_seg := e1 |}
          = Panic "assignment to entry in nil map")
    /\ rebuild table {| W_cat := c; W_seg := e1 |} = Ok (tt, w2)
    /\ (forall b t, b ∈ BlockSet e ->
          exists b', GetBlock (block_id b) t (W_seg w2) = Ok (Some b')
            /\ block_content b' = block_content b
            /\ Blk_Segment b' = Some (Id (Seg_Base e)))
    /\ (forall id t, id ∉ block_id <$> BlockSet e -> GetBlock id t (W_seg w2) = Ok None).
Proof.
  intros Hcat Hnd. eexists _, _. split; [by apply Unmarshal_Marshal|].
  split; [done|]. split; [done|]. split; [by apply rebuild_closed|].
  unfold GetBlock. simpl. rewrite block_id_decoded, decoded_blocks_nil. split.
  - intros b _ Hb. apply list_elem_of_lookup_1 in Hb as (k & Hk).
    rewrite (index_from_lookup 0 _ _ k) by (by rewrite ?list_lookup_fmap, ?Hk).
    simpl. rewrite !list_lookup_fmap, Hk. simpl. by eexists.
  - intros id _ Hnotin. by rewrite index_from_notin.
Qed.

Lemma Unmarshal_rebuild_GetBlock_witness :
  exists e1 w2,
    Unmarshal (Marshal (W_seg sample_full)) zero_Segment = Some e1
    /\ (forall id t, GetBlock id t e1 = Ok None)
    /\ (forall entry,
          onNewBlock entry {| W_cat := sample_catalog; W_seg := e1 |}
          = Panic "assignment to entry in nil map")
    /\ rebuild sample_table {| W_cat := sample_catalog; W_seg := e1 |} = Ok (tt, w2)
    /\ (forall b t, b ∈ BlockSet (W_seg sample_full) ->
          exists b', GetBlock (block_id b) t (W_seg w2) = Ok (Some b')
            /\ block_content b' = block_content b
            /\ Blk_Segment b' = Some (Id (Seg_Base (W_seg sample_full))))
    /\ (forall id t, id ∉ block_id <$> BlockSet (W_seg sample_full) ->
          GetBlock id t (W_seg w2) = Ok None).
Proof.
  apply (Unmarshal_rebuild_GetBlock (W_seg sample_full) sample_table sample_catalog).
  - reflexivity.
  - apply NoDup_ListNoDup. repeat constructor; simpl; intuition discriminate.
Defined.

Lemma informed_fixed ids c :
  Forall (fun id => id <= nextBlockId (Seq c)) ids -> informed ids c = c.
Proof.
  induction 1 as [|id rest Hid _ IH]; [done|]. simpl.
  unfold TryUpdateBlockId. rewrite bool_decide_eq_false_2 by lia. done.
Qed.

(** X6: [rebuild] can be run again: a second run under the same table
    changes nothing, neither in the segment nor in the sequence of the
    catalog. *)
Theorem rebuild_idempotent w w1 table :
  Table_Catalog table = Some catalog_ref ->
  rebuild table w = Ok (tt, w1) ->
  rebuild table w1 = Ok (tt, w1).
Proof.
  intros Hcat. rewrite !rebuild_closed by done. intros ?; simplify_eq/=.
  rewrite block_id_rebuild, <- list_fmap_compose.
  rewrite informed_fixed by apply informed_spec. done.
Qed.

Lemma rebuild_idempotent_witness :
  exists w1,
    rebuild sample_table sample_decoded = Ok (tt, w1)
    /\ rebuild sample_table w1 = Ok (tt, w1).
Proof.
  eexists. split; [reflexivity|].
  apply (rebuild_idempotent sample_decoded _ sample_table); reflexivity.
Defined.

(** X7: [rebuild] computes the index the segment has built block by block:
    on a segment whose index is consistent it leaves the index as it is,
    and so does the rebuild of the segment once serialized and
    deserialized into a new value. *)
Theorem rebuild_keeps_index w table :
  Table_Catalog table = Some catalog_ref ->
  index_consistent (W_seg w) ->
  exists w1 e2 w2,
    rebuild table w = Ok (tt, w1)
    /\ IdIndex (W_seg w1) = IdIndex (W_seg w)
    /\ Unmarshal (Marshal (W_seg w)) zero_Segment = Some e2
    /\ rebuild table {| W_cat := W_cat w; W_seg := e2 |} = Ok (tt, w2)
    /\ IdIndex (W_seg w2) = IdIndex (W_seg w).
Proof.
  intros Hcat Hcons. pose proof (index_consistent_NoDup _ Hcons) as Hnd.
  destruct Hcons as (idx & Hidx & Hfwd & Hbwd).
  assert (index_from 0 (block_id <$> BlockSet (W_seg w)) ∅ = idx) as Heq.
  { apply map_eq. intros id. destruct (idx !! id) as [i|] eqn:Hi.
    - destruct (Hbwd _ _ Hi) as (blk & Hblk & <-).
      rewrite (index_from_lookup 0 _ _ i) by (by rewrite ?list_lookup_fmap, ?Hblk).
      done.
    - rewrite index_from_notin; [done|]. intros Hin.
      apply list_elem_of_fmap in Hin as (b & -> & Hb).
      apply list_elem_of_lookup_1 in Hb as (i & Hb). apply Hfwd in Hb. congruence. }
  eexists _, _, _. split; [by apply rebuild_closed|]. split; [simpl; congruence|].
  split; [by apply Unmarshal_Marshal|]. split; [by apply rebuild_closed|].
  simpl. rewrite block_id_decoded. congruence.
Qed.

Lemma rebuild_keeps_index_witness :
  exists w1 e2 w2,
    rebuild sample_table sample_full = Ok (tt, w1)
    /\ IdIndex (W_seg w1) = IdIndex (W_seg sample_full)
    /\ Unmarshal (Marshal (W_seg sample_full)) zero_Segment = Some e2
    /\ rebuild sample_table {| W_cat := W_cat sample_full; W_seg := e2 |} = Ok (tt, w2)
    /\ IdIndex (W_seg w2) = IdIndex (W_seg sample_full).
Proof.
  apply (rebuild_keeps_index sample_full sample_table); [reflexivity|].
  sample_consistent sample_full.
Defined.

Lemma add_blocks_closed blks w idx :
  IdIndex (W_seg w) = Some idx ->
  add_blocks blks w
  = Ok (tt, {| W_cat := W_cat w;
               W_seg := {| Seg_Base := Seg_Base (W_seg w);
                           Seg_Table := Seg_Table (W_seg w);
                           Seg_Catalog := Seg_Catalog (W_seg w);
                           IdIndex := Some (index_from (length (BlockSet (W_seg w)))
                                              (block_id <$> blks) idx);
                           BlockSet := BlockSet (W_seg w) ++ blks |} |}).
Proof.
  revert w idx. induction blks as [|b rest IH]; intros w idx Hidx.
  - simpl. unfold ret. destruct w as [c e]. destruct e. simpl in *.
    rewrite app_nil_r. by subst.
  - simpl. unfold bind, onNewBlock at 1. rewrite Hidx.
    erewrite IH by done. simpl. rewrite length_app, <- app_assoc. simpl.
    by rewrite Nat.add_1_r.
Qed.

(** X8: the two ways to an index agree.  Adding the blocks one by one with
    [onNewBlock] to a segment replayed by [newCommittedSegmentEntry] gives
    the block set and the index that [rebuild] gives of a segment that holds
    the blocks, also when two blocks share an id. *)
Theorem add_blocks_as_rebuild catalog table base blks c e :
  Table_Catalog table = Some catalog_ref ->
  BlockSet e = blks ->
  exists w1 w2,
    add_blocks blks {| W_cat := c; W_seg := newCommittedSegmentEntry catalog table base |}
    = Ok (tt, w1)
    /\ rebuild table {| W_cat := c; W_seg := e |} = Ok (tt, w2)
    /\ BlockSet (W_seg w1) = blks
    /\ block_content <$> BlockSet (W_seg w2) = block_content <$> blks
    /\ IdIndex (W_seg w1) = IdIndex (W_seg w2)
    /\ Seg_Base (W_seg w1) = base
    /\ W_cat w1 = c.
Proof.
  intros Hcat <-. eexists _, _.
  split; [by apply (add_blocks_closed _ _ ∅)|]. split; [by apply rebuild_closed|].
  simpl. by rewrite block_content_rebuild.
Qed.

Lemma add_blocks_as_rebuild_witness :
  exists w1 w2,
    add_blocks (BlockSet (W_seg sample_twins))
      {| W_cat := sample_catalog;
         W_seg := newCommittedSegmentEntry (Some catalog_ref) sample_table
                    (Seg_Base (W_seg sample_twins)) |}
    = Ok (tt, w1)
    /\ rebuild sample_table {| W_cat := sample_catalog; W_seg := W_seg sample_twins |}
       = Ok (tt, w2)
    /\ BlockSet (W_seg w1) = BlockSet (W_seg sample_twins)
    /\ block_content <$> BlockSet (W_seg w2)
       = block_content <$> BlockSet (W_seg sample_twins)
    /\ IdIndex (W_seg w1) = IdIndex (W_seg w2)
    /\ Seg_Base (W_seg w1) = Seg_Base (W_seg sample_twins)
    /\ W_cat w1 = sample_catalog.
Proof.
  apply (add_blocks_as_rebuild (Some catalog_ref) sample_table
           (Seg_Base (W_seg sample_twins)) _ sample_catalog (W_seg sample_twins));
    reflexivity.
Defined.

(* ------------------------------------------------------------------ *)
(** ** Scans of the block set from its end *)

Lemma rev_reverse {A} (l : list A) : rev l = reverse l.
Proof. unfold reverse. apply rev_alt. Qed.

Lemma first_infull_range_spec sch l found :
  (exists pre b suf, l = pre ++ b :: suf
     /\ Forall (fun x => Block_IsFull sch x = false) (pre ++ [b])
     /\ (forall x, head suf = Some x -> Block_IsFull sch x = true)
     /\ first_infull_range sch l found = Some b)
  \/ ((forall x, head l = Some x -> Block_IsFull sch x = true)
      /\ first_infull_range sch l found = found).
Proof.
  revert found. induction l as [|x l IH]; intros found; simpl.
  - right. by split.
  - destruct (Block_IsFull sch x) eqn:Hx; simpl.
    + right. split; [|done]. by intros ? ?; simplify_eq.
    + left. destruct (IH (Some x)) as [(pre & b & suf & -> & Hpre & Hsuf & Hres)|[Hhd Hres]].
      * exists (x :: pre), b, suf. split; [done|]. split; [by constructor|done].
      * exists [], x, l. split; [done|]. split; [by repeat constructor|done].
Qed.

(** X9: [FirstInFullBlock] returns the block that opens the run of blocks
    that are not full at the end of the block set: every block from it on
    is not full and the block before it, if there is one, is full.  It
    returns nil exactly when the segment has no block or its last block is
    full. *)
Theorem FirstInFullBlock_spec e t :
  Seg_Table e = Some t ->
  exists r,
    FirstInFullBlock e = Ok r
    /\ match r with
       | Some b =>
           exists before after,
             BlockSet e = before ++ b :: after
             /\ Forall (fun x => Block_IsFull (Table_Schema t) x = false) (b :: after)
             /\ (forall p, last before = Some p -> Block_IsFull (Table_Schema t) p = true)
       | None =>
           BlockSet e = []
           \/ exists b, last (BlockSet e) = Some b
                /\ Block_IsFull (Table_Schema t) b = true
       end.
Proof.
  intros Ht. unfold FirstInFullBlock. rewrite Ht. simpl.
  case_bool_decide as Hlen.
  { exists None. split; [done|]. left. by apply nil_length_inv. }
  eexists. split; [done|].
  destruct (first_infull_range_spec (Table_Schema t) (rev (BlockSet e)) None)
    as [(pre & b & suf & Hrev & Hpre & Hsuf & ->)|[Hhd ->]].
  - exists (reverse suf), (reverse pre).
    assert (BlockSet e = reverse (pre ++ b :: suf)) as ->.
    { rewrite <- Hrev, rev_reverse. by rewrite reverse_involutive. }
    rewrite reverse_app, reverse_cons, <- app_assoc. split; [done|]. split.
    + apply Forall_reverse in Hpre. by rewrite reverse_app in Hpre.
    + intros p. rewrite last_reverse. apply Hsuf.
  - right. destruct (last (BlockSet e)) as [b|] eqn:Hlast.
    + exists b. split; [done|]. apply Hhd.
      by rewrite rev_reverse, head_reverse.
    + apply last_None in Hlast. by rewrite Hlast in Hlen.
Qed.

Lemma FirstInFullBlock_spec_witness :
  exists r,
    FirstInFullBlock (W_seg sample_half) = Ok r
    /\ match r with
       | Some b =>
           exists before after,
             BlockSet (W_seg sample_half) = before ++ b :: after
             /\ Forall (fun x => Block_IsFull (Table_Schema sample_table) x = false)
                  (b :: after)
             /\ (forall p, last before = Some p ->
                   Block_IsFull (Table_Schema sample_table) p = true)
       | None =>
           BlockSet (W_seg sample_half) = []
           \/ exists b, last (BlockSet (W_seg sample_half)) = Some b
                /\ Block_IsFull (Table_Schema sample_table) b = true
       end.
Proof. apply (FirstInFullBlock_spec (W_seg sample_half) sample_table). reflexivity. Defined.

Lemma block_replay_skip t b c older :
  Commits (Blk_Base b) = c :: older ->
  block_replay t b
  = match ExternalIndex c with
    | Some ex =>
        if bool_decide (0 < Count b) || Block_IsFull (Table_Schema t) b
        then Some ex else None
    | None => None
    end.
Proof. unfold block_replay. intros ->. simpl. by destruct (ExternalIndex c). Qed.

Lemma replay_of_skip t l b r :
  block_replay t b = None -> replay_of t l r -> replay_of t (l ++ [b]) r.
Proof.
  intros Hb. destruct r as [ex|]; simpl.
  - intros (older & b0 & newer & -> & Hb0 & Hnewer).
    exists older, b0, (newer ++ [b]). rewrite <- app_assoc. split; [done|].
    split; [done|]. apply Forall_app. by split; [|repeat constructor].
  - intros Hl. apply Forall_app. by split; [|repeat constructor].
Qed.

Lemma replay_range_spec t l :
  Forall (fun b => Commits (Blk_Base b) <> []) l ->
  exists r, replay_range (Some t) l = Ok r /\ replay_of t (rev l) r.
Proof.
  induction 1 as [|b l Hb _ IH]; simpl.
  { exists None. split; [done|]. constructor. }
  destruct IH as (r & Hr & Hspec). unfold current.
  destruct (Commits (Blk_Base b)) as [|c older] eqn:Hc; [done|]. simpl.
  pose proof (block_replay_skip t b c older Hc) as Hval.
  destruct (ExternalIndex c) as [ex|].
  - destruct (bool_decide (0 < Count b)); simpl in *.
    + exists (Some ex). split; [done|]. exists (rev l), b, []. by repeat split.
    + destruct (Block_IsFull (Table_Schema t) b); simpl in *.
      * exists (Some ex). split; [done|]. exists (rev l), b, []. by repeat split.
      * exists r. split; [done|]. by apply replay_of_skip.
  - exists r. split; [done|]. by apply replay_of_skip.
Qed.

(** X10: [GetReplayIndex] returns the external index of the last block of
    the block set that has one and holds a row or is full; a block without
    external index, and an empty block that is not full, are passed over.
    It returns nil when no block has such an index. *)
Theorem GetReplayIndex_spec e t :
  Seg_Table e = Some t ->
  Forall (fun b => Commits (Blk_Base b) <> []) (BlockSet e) ->
  exists r, GetReplayIndex e = Ok r /\ replay_of t (BlockSet e) r.
Proof.
  intros Ht Hc. unfold GetReplayIndex. rewrite Ht.
  destruct (replay_range_spec t (rev (BlockSet e))) as (r & Hr & Hspec).
  { rewrite rev_reverse. by apply Forall_reverse. }
  exists r. split; [done|]. by rewrite rev_involutive in Hspec.
Qed.

Lemma GetReplayIndex_spec_witness :
  exists r,
    GetReplayIndex (W_seg sample_replay) = Ok r
    /\ replay_of sample_table (BlockSet (W_seg sample_replay)) r.
Proof.
  apply (GetReplayIndex_spec (W_seg sample_replay) sample_table); [reflexivity|].
  repeat constructor; discriminate.
Defined.

Lemma GetReplayIndex_example :
  GetReplayIndex (W_seg sample_replay) = Ok (Some {| LogIndex_Id := SimpleBatchId 8 |})
  /\ GetReplayIndex (W_seg sample_full) = Ok None
  /\ FirstInFullBlock (W_seg sample_half) = Ok (Some (sample_block 2 3 1))
  /\ FirstInFullBlock (W_seg sample_full) = Ok None.
Proof. repeat split; reflexivity. Qed.

Lemma next_range_all_less Less from sch l found :
  (forall x, x ∈ l -> Less from x = true) ->
  next_range Less from sch l found = first_infull_range sch l found.
Proof.
  revert found. induction l as [|x l IH]; intros found Hless; [done|]. simpl.
  rewrite (Hless x) by left. rewrite andb_true_r.
  destruct (Block_IsFull sch x); simpl; [done|].
  apply IH. intros y Hy. apply Hless. by right.
Qed.

(** X11: when [FirstInFullBlock] finds a block and every block of the
    segment comes after [from] in the order of [Less],
    [SimpleGetOrCreateNextBlock] returns that block and changes nothing. *)
Theorem SimpleGetOrCreateNextBlock_first_infull w Less from b :
  FirstInFullBlock (W_seg w) = Ok (Some b) ->
  (forall x, x ∈ BlockSet (W_seg w) -> Less from x = true) ->
  SimpleGetOrCreateNextBlock Less from w = Ok (Some b, w).
Proof.
  unfold FirstInFullBlock, SimpleGetOrCreateNextBlock.
  open_world w. run_go. case_bool_decide; [done|].
  destruct tbl as [t|]; [|done]. simpl. intros Hfirst Hless.
  rewrite next_range_all_less.
  - injection Hfirst as ->. done.
  - intros x Hx. apply Hless. by apply list_elem_of_In, in_rev, list_elem_of_In.
Qed.

Lemma SimpleGetOrCreateNextBlock_first_infull_witness :
  SimpleGetOrCreateNextBlock (fun _ _ => true) None sample_half
  = Ok (Some (sample_block 2 3 1), sample_half).
Proof.
  apply (SimpleGetOrCreateNextBlock_first_infull sample_half (fun _ _ => true) None);
    [reflexivity|done].
Defined.

(* ------------------------------------------------------------------ *)
(** ** Room for rows, and the next block to write to *)

(** X12: [Appendable] changes nothing and answers by the last block: a
    segment that has not its maximum of blocks is appendable; one that has
    it is appendable exactly when its last block is not full.  On a segment
    without block that counts as having its maximum, which is the case of a
    new segment under a maximum of zero, it panics. *)
Theorem Appendable_spec w t c older :
  writer (seg_mu (W_seg w)) = false ->
  Seg_Table (W_seg w) = Some t ->
  Commits (Seg_Base (W_seg w)) = c :: older ->
  exists has,
    HasMaxBlocks (W_seg w) = Ok has
    /\ (has = false -> Appendable w = Ok (true, w))
    /\ (forall b, has = true -> last (BlockSet (W_seg w)) = Some b ->
          Appendable w = Ok (negb (Block_IsFull (Table_Schema t) b), w))
    /\ (has = true -> BlockSet (W_seg w) = [] ->
          Appendable w = Panic "index out of range [-1]").
Proof.
  unfold seg_mu. intros Hwr Ht Hc.
  rewrite (HasMaxBlocks_value _ t c older) by done. eexists. split; [done|].
  revert Hwr Ht Hc. unfold Appendable, HasMaxBlocks, BaseEntry_IsSorted, current,
    BlockSet_last, max_blocks.
  open_world w. intros -> -> ->. run_go.
  destruct (bool_decide (Op c = OpUpgradeSorted)); simpl.
  - split; [done|]. split.
    + intros b _ ->. done.
    + intros _ ->. done.
  - destruct (bool_decide (Z.of_nat (length blks) = _)); simpl.
    + split; [done|]. split.
      * intros b _ ->. done.
      * intros _ ->. done.
    + split; [done|]. split; done.
Qed.

Lemma Appendable_spec_witness :
  exists has,
    HasMaxBlocks (W_seg sample_new0) = Ok has
    /\ (has = false -> Appendable sample_new0 = Ok (true, sample_new0))
    /\ (forall b, has = true -> last (BlockSet (W_seg sample_new0)) = Some b ->
          Appendable sample_new0
          = Ok (negb (Block_IsFull (Table_Schema sample_table0) b), sample_new0))
    /\ (has = true -> BlockSet (W_seg sample_new0) = [] ->
          Appendable sample_new0 = Panic "index out of range [-1]").
Proof.
  apply (Appendable_spec sample_new0 sample_table0 (create_info 1) []); reflexivity.
Defined.

Lemma Appendable_example :
  HasMaxBlocks (W_seg sample_new0) = Ok true
  /\ Appendable sample_new0 = Panic "index out of range [-1]"
  /\ Appendable sample_new = Ok (true, sample_new)
  /\ Appendable sample_full = Ok (false, sample_full)
  /\ Appendable sample_half = Ok (true, sample_half).
Proof. repeat split; reflexivity. Qed.

Lemma Appendable_false_inv w w1 :
  Appendable w = Ok (false, w1) ->
  HasMaxBlocks (W_seg w) = Ok true
  /\ exists t blks b,
       Seg_Table (W_seg w) = Some t /\ BlockSet (W_seg w) = blks ++ [b]
       /\ Block_IsFull (Table_Schema t) b = true.
Proof.
  unfold Appendable, HasMaxBlocks, BaseEntry_IsSorted, current, BlockSet_last.
  open_world w. run_go. destruct wr; [done|]. simpl.
  destruct chain as [|c older]; [done|]. simpl.
  assert (forall (k : World -> result (bool * World)) w0,
            match last blks with
            | Some b => k w0
            | None => Panic "index out of range [-1]"
            end = Ok (false, w1) ->
            exists blks0 b, blks = blks0 ++ [b] /\ k w0 = Ok (false, w1)) as Hlast.
  { intros k w0. destruct (last blks) as [b|] eqn:Hl; [|done].
    apply last_Some in Hl as (blks0 & ->). intros ?. by exists blks0, b. }
  destruct (bool_decide (Op c = OpUpgradeSorted)); simpl.
  - destruct (last blks) as [b|] eqn:Hl; [|done]. simpl.
    apply last_Some in Hl as (blks0 & ->).
    destruct tbl as [t|]; [|done]. simpl. intros ?; simplify_eq/=.
    split; [done|]. exists t, blks0, b. repeat split; try done.
    by destruct (Block_IsFull (Table_Schema t) b).
  - destruct tbl as [t|]; [|done]. simpl.
    destruct (bool_decide (Z.of_nat (length blks) = _)); simpl; [|intros ?; simplify_eq].
    destruct (last blks) as [b|] eqn:Hl; [|done]. simpl.
    apply last_Some in Hl as (blks0 & ->). intros ?; simplify_eq/=.
    split; [done|]. exists t, blks0, b. repeat split; try done.
    by destruct (Block_IsFull (Table_Schema t) b).
Qed.

(** X13: a segment that is not appendable has no next block:
    [SimpleGetOrCreateNextBlock] returns nil for any [from] and creates
    nothing, and [FirstInFullBlock] returns nil. *)
Theorem not_Appendable_no_next_block w w1 Less from :
  Appendable w = Ok (false, w1) ->
  w1 = w
  /\ SimpleGetOrCreateNextBlock Less from w = Ok (None, w)
  /\ FirstInFullBlock (W_seg w) = Ok None.
Proof.
  intros Happ.
  destruct (Appendable_false_inv _ _ Happ) as (Hmax & t & blks0 & b & Ht & Hb & Hfull).
  split.
  { revert Happ. clear. unfold Appendable, HasMaxBlocks, BaseEntry_IsSorted, current,
      BlockSet_last.
    open_world w. run_go. destruct wr; [done|]. simpl.
    destruct chain as [|c older]; [done|]. simpl.
    destruct (bool_decide (Op c = OpUpgradeSorted)); simpl.
    - destruct (last blks); [|done]. simpl. destruct tbl; [|done]. simpl.
      by intros ?; simplify_eq/=.
    - destruct tbl; [|done]. simpl.
      destruct (bool_decide _); simpl; [|by intros ?; simplify_eq/=].
      destruct (last blks); [|done]. simpl. by intros ?; simplify_eq/=. }
  clear Happ. revert Hmax Ht Hb Hfull.
  unfold SimpleGetOrCreateNextBlock, FirstInFullBlock.
  open_world w. intros Hmax -> -> Hfull. run_go.
  rewrite length_app, rev_app_distr. simpl.
  rewrite bool_decide_eq_false_2 by lia. simpl.
  rewrite Hfull. simpl. rewrite Hmax. done.
Qed.

Lemma not_Appendable_no_next_block_witness :
  sample_full = sample_full
  /\ SimpleGetOrCreateNextBlock (fun _ _ => true) None sample_full = Ok (None, sample_full)
  /\ FirstInFullBlock (W_seg sample_full) = Ok None.
Proof.
  apply (not_Appendable_no_next_block sample_full sample_full (fun _ _ => true) None).
  reflexivity.
Defined.

Lemma next_range_Some Less from sch l found :
  next_range Less from sch l found = found
  \/ exists b, next_range Less from sch l found = Some b
       /\ b ∈ l /\ Block_IsFull sch b = false /\ Less from b = true.
Proof.
  revert found. induction l as [|x l IH]; intros found; simpl; [by left|].
  destruct (Block_IsFull sch x) eqn:Hx; simpl; [by left|].
  destruct (Less from x) eqn:Hl; simpl; [|by left]. right.
  destruct (IH (Some x)) as [->|(b & -> & Hb & ? & ?)].
  - exists x. repeat split; try done. by left.
  - exists b. repeat split; try done. by right.
Qed.

(** X14: what [SimpleGetOrCreateNextBlock] does when it returns.  Either it
    changes nothing, and then it returns a block of the segment that is not
    full and that [Less] puts after [from], or nil on a segment that has
    blocks and has its maximum of them; or it appends one new, empty block
    and returns it, which it does only on a segment without block or on one
    that has not its maximum of blocks. *)
Theorem SimpleGetOrCreateNextBlock_inv w w' Less from r :
  SimpleGetOrCreateNextBlock Less from w = Ok (r, w') ->
  (w' = w
   /\ BlockSet (W_seg w) <> []
   /\ match r with
      | Some b =>
          b ∈ BlockSet (W_seg w) /\ Less from b = true
          /\ exists t, Seg_Table (W_seg w) = Some t
               /\ Block_IsFull (Table_Schema t) b = false
      | None => HasMaxBlocks (W_seg w) = Ok true
      end)
  \/ (exists b,
        r = Some b
        /\ BlockSet (W_seg w') = BlockSet (W_seg w) ++ [b]
        /\ Count b = 0
        /\ Seg_Base (W_seg w') = Seg_Base (W_seg w)
        /\ (BlockSet (W_seg w) = [] \/ HasMaxBlocks (W_seg w) = Ok false)).
Proof.
  assert (forall w0 b w1, SimpleCreateBlock None w0 = Ok (b, w1) ->
            BlockSet (W_seg w1) = BlockSet (W_seg w0) ++ [b] /\ Count b = 0
            /\ Seg_Base (W_seg w1) = Seg_Base (W_seg w0)) as Hcreate.
  { intros w0 b w1 Hrun. unfold SimpleCreateBlock in Hrun.
    apply bind_Ok_inv in Hrun as (tranId & w2 & Hid & Hrun).
    apply next_uncommit_id_Ok_inv in Hid.
    apply CreateBlock_Ok_inv in Hrun as (Hblks & Hbase & _ & _ & _ & _ & _ & _ & Hcnt).
    by rewrite Hblks, Hbase, Hid. }
  unfold SimpleGetOrCreateNextBlock. intros Hrun.
  apply bind_Ok_inv in Hrun as (e & w0 & Hget & Hrun).
  unfold get_seg in Hget. simplify_eq/=.
  case_bool_decide as Hlen.
  { right. apply bind_Ok_inv in Hrun as (b & w1 & Hrun & Hret).
    unfold ret in Hret. simplify_eq/=. apply Hcreate in Hrun as (? & ? & ?).
    exists b. repeat split; try done. left. by apply nil_length_inv. }
  assert (BlockSet (W_seg w0) <> []) as Hne by (by intros Heq; rewrite Heq in Hlen).
  apply bind_Ok_inv in Hrun as (t & w1 & Ht & Hrun).
  unfold read in Ht. destruct (Seg_Table (W_seg w0)) as [t0|] eqn:Htbl; [|done].
  simpl in Ht. simplify_eq/=.
  destruct (next_range_Some Less from (Table_Schema t) (rev (BlockSet (W_seg w1))) None)
    as [Hnone|(b & Hsome & Hin & Hfull & Hless)].
  - rewrite Hnone in Hrun.
    apply bind_Ok_inv in Hrun as (has & w2 & Hhas & Hrun).
    unfold read in Hhas. destruct (HasMaxBlocks (W_seg w1)) as [has0| |] eqn:Hmax; [|done..].
    simpl in Hhas. simplify_eq/=. destruct has.
    + left. unfold ret in Hrun. simplify_eq/=. by repeat split.
    + right. apply bind_Ok_inv in Hrun as (b & w1 & Hrun & Hret).
      unfold ret in Hret. simplify_eq/=. apply Hcreate in Hrun as (? & ? & ?).
      exists b. repeat split; try done. by right.
  - rewrite Hsome in Hrun. unfold ret in Hrun. simplify_eq/=. left.
    repeat split; try done.
    + by apply list_elem_of_In, in_rev, list_elem_of_In.
    + by exists t.
Qed.

Lemma SimpleGetOrCreateNextBlock_inv_witness :
  exists r w',
    SimpleGetOrCreateNextBlock (fun _ _ => true) None sample_new0 = Ok (r, w')
    /\ ((w' = sample_new0
         /\ BlockSet (W_seg sample_new0) <> []
         /\ match r with
            | Some b =>
                b ∈ BlockSet (W_seg sample_new0) /\ true = true
                /\ exists t, Seg_Table (W_seg sample_new0) = Some t
                     /\ Block_IsFull (Table_Schema t) b = false
            | None => HasMaxBlocks (W_seg sample_new0) = Ok true
            end)
        \/ (exists b,
              r = Some b
              /\ BlockSet (W_seg w') = BlockSet (W_seg sample_new0) ++ [b]
              /\ Count b = 0
              /\ Seg_Base (W_seg w') = Seg_Base (W_seg sample_new0)
              /\ (BlockSet (W_seg sample_new0) = []
                  \/ HasMaxBlocks (W_seg sample_new0) = Ok false))).
Proof.
  eexists _, _. split; [vm_compute; reflexivity|].
  apply (SimpleGetOrCreateNextBlock_inv sample_new0 _ (fun _ _ => true) None).
  vm_compute. reflexivity.
Defined.

(** X15: under a maximum of at least one block,
    [SimpleGetOrCreateNextBlock] keeps a segment within its maximum. *)
Theorem SimpleGetOrCreateNextBlock_bounded w w' Less from r t :
  Seg_Table (W_seg w) = Some t ->
  is_uint64 (max_blocks t) ->
  is_int_len (length (BlockSet (W_seg w))) ->
  1 <= max_blocks t ->
  block_count (W_seg w) <= max_blocks t ->
  SimpleGetOrCreateNextBlock Less from w = Ok (r, w') ->
  block_count (W_seg w') <= max_blocks t.
Proof.
  intros Ht Hmax Hlen Hone Hle Hrun.
  apply SimpleGetOrCreateNextBlock_inv in Hrun
    as [(-> & _)|(b & -> & Hblks & _ & _ & Hcase)]; [done|].
  unfold block_count in *. rewrite Hblks, length_app. simpl.
  destruct Hcase as [->|Hhas]; [simpl; lia|].
  unfold HasMaxBlocks in Hhas. rewrite Ht in Hhas.
  destruct (BaseEntry_IsSorted (Seg_Base (W_seg w))) as [[|]| |]; simpl in Hhas;
    [done| |done..].
  injection Hhas as Hhas. apply bool_decide_eq_false in Hhas.
  rewrite int_of_uint64_eq_len in Hhas by done. unfold max_blocks in *. lia.
Qed.

Lemma SimpleGetOrCreateNextBlock_bounded_witness :
  exists r w',
    SimpleGetOrCreateNextBlock (fun _ _ => true) None sample_one = Ok (r, w')
    /\ block_count (W_seg w') <= max_blocks sample_table.
Proof.
  eexists _, _. split; [vm_compute; reflexivity|].
  eapply (SimpleGetOrCreateNextBlock_bounded sample_one _ (fun _ _ => true) None _
            sample_table); [reflexivity|reflexivity|reflexivity|vm_compute; discriminate
                           |vm_compute; discriminate|vm_compute; reflexivity].
Defined.

(* ------------------------------------------------------------------ *)
(** ** The lock across [Upgrade] *)

(** X16: the lock of the segment after [Upgrade] has returned, from a
    segment on which no lock was held.  The read lock is released when the
    segment has not its maximum of blocks and when the call went on to the
    exclusive lock, which is released in turn; it is still held, once, when
    the call returned because the segment is sorted or because one of its
    blocks is not full. *)
Theorem Upgrade_lock_balance w w' tranId exIndice autoCommit r :
  lock_free (W_seg w) ->
  Upgrade tranId exIndice autoCommit w = Ok (r, w') ->
  exists has,
    HasMaxBlocks (W_seg w) = Ok has
    /\ if negb has
       then r = Some UpgradeInfullSegmentErr /\ lock_free (W_seg w')
       else if bool_decide (last_op (Seg_Base (W_seg w)) = Some OpUpgradeSorted)
       then r = Some UpgradeNotNeededErr
            /\ seg_mu (W_seg w') = {| readers := 1; writer := false |}
       else exists t,
              Seg_Table (W_seg w) = Some t
              /\ if range_all_full (Table_Schema t) (BlockSet (W_seg w))
                 then r <> Some UpgradeInfullSegmentErr /\ lock_free (W_seg w')
                 else r = Some UpgradeInfullSegmentErr
                      /\ seg_mu (W_seg w') = {| readers := 1; writer := false |}.
Proof.
  unfold lock_free, seg_mu, unlocked, last_op.
  open_world w. intros Hmu. simplify_eq/=.
  unfold Upgrade, HasMaxBlocks, BaseEntry_IsSorted, current. run_go.
  destruct chain as [|c older]; [discriminate|]. simpl.
  case_bool_decide as Hs; simpl.
  { rewrite bool_decide_eq_true_2 by congruence. simpl.
    intros ?; simplify_eq/=. eexists. split; [done|]. simpl.
    by rewrite bool_decide_eq_true_2 by congruence. }
  destruct tbl as [t|]; [|discriminate]. simpl.
  case_bool_decide as Hl; simpl.
  2:{ intros ?; simplify_eq/=. eexists. split; [done|]. done. }
  rewrite bool_decide_eq_false_2 by done. simpl.
  rewrite (bool_decide_eq_false_2 (Some (Op c) = _)) by congruence.
  destruct (range_all_full (Table_Schema t) blks) eqn:Hf; simpl.
  2:{ intros ?; simplify_eq/=. eexists. split; [done|]. simpl. exists t. by rewrite Hf. }
  intros Hrun. eexists. split; [done|]. simpl. exists t. split; [done|]. rewrite Hf.
  revert Hrun.
  destruct (Op c) eqn:Hop; simpl; [|done|by intros ?; simplify_eq/=].
  unfold upgrade_info, BaseEntry_onNewCommit. run_go.
  destruct exIndice as [[|x0 rest]|]; simpl; [discriminate| |].
  - case_bool_decide; simpl; [discriminate|].
    destruct autoCommit; simpl; [|by intros ?; simplify_eq/=].
    destruct (Table_Catalog t); simpl; [|discriminate].
    unfold Catalog_Commit, entry_ToLogEntry, Segment_IEntry, ToLogEntry, toLogEntry.
    simpl. by intros ?; simplify_eq/=.
  - destruct (calcAppliedIndex _) as [[id ok]| |]; simpl; [|discriminate..].
    case_bool_decide; simpl; [discriminate|].
    destruct autoCommit; simpl; [|by intros ?; simplify_eq/=].
    destruct (Table_Catalog t); simpl; [|discriminate].
    unfold Catalog_Commit, entry_ToLogEntry, Segment_IEntry, ToLogEntry, toLogEntry.
    simpl. by intros ?; simplify_eq/=.
Qed.

Lemma Upgrade_lock_balance_witness :
  exists r w',
    Upgrade 10 None true sample_half = Ok (r, w')
    /\ exists has,
         HasMaxBlocks (W_seg sample_half) = Ok has
         /\ if negb has
            then r = Some UpgradeInfullSegmentErr /\ lock_free (W_seg w')
            else if bool_decide (last_op (Seg_Base (W_seg sample_half))
                                 = Some OpUpgradeSorted)
            then r = Some UpgradeNotNeededErr
                 /\ seg_mu (W_seg w') = {| readers := 1; writer := false |}
            else exists t,
                   Seg_Table (W_seg sample_half) = Some t
                   /\ if range_all_full (Table_Schema t) (BlockSet (W_seg sample_half))
                      then r <> Some UpgradeInfullSegmentErr /\ lock_free (W_seg w')
                      else r = Some UpgradeInfullSegmentErr
                           /\ seg_mu (W_seg w') = {| readers := 1; writer := false |}.
Proof.
  eexists _, _. split; [vm_compute; reflexivity|].
  apply (Upgrade_lock_balance sample_half _ 10 None true); [reflexivity|].
  vm_compute. reflexivity.
Defined.

Lemma read_locked_no_writer w :
  read_locked (W_seg w) ->
  (forall tranId exIndex ac be w', CreateBlock tranId exIndex ac w <> Ok (be, w'))
  /\ (forall exIndex be w', SimpleCreateBlock exIndex w <> Ok (be, w'))
  /\ (forall tranId ex ac w', Upgrade tranId ex ac w <> Ok (None, w')).
Proof.
  intros (n & Hmu).
  assert (forall w0 tranId exIndex ac be w', seg_mu (W_seg w0) = seg_mu (W_seg w) ->
            CreateBlock tranId exIndex ac w0 <> Ok (be, w')) as Hcreate.
  { intros w0 tranId exIndex ac be w'. rewrite Hmu. clear. unfold seg_mu.
    open_world w0. intros ->. unfold CreateBlock, newBlockEntry. run_go.
    destruct tbl as [t|]; [|done]. simpl. by destruct (Table_Catalog t). }
  split; [by intros; apply Hcreate|]. split.
  - intros exIndex be w' Hrun. unfold SimpleCreateBlock in Hrun.
    apply bind_Ok_inv in Hrun as (tranId & w0 & Hid & Hrun).
    apply next_uncommit_id_Ok_inv in Hid. apply Hcreate in Hrun; [done|].
    by rewrite Hid.
  - intros tranId ex ac w'. revert Hmu. clear. unfold seg_mu.
    open_world w. intros ->.
    unfold Upgrade, HasMaxBlocks, BaseEntry_IsSorted, current. run_go.
    destruct chain as [|c older]; [discriminate|]. simpl.
    case_bool_decide as Hs; simpl.
    { by case_bool_decide. }
    destruct tbl as [t|]; [|discriminate]. simpl.
    case_bool_decide as Hl; simpl; [|done].
    case_bool_decide; [done|]. simpl.
    by destruct (range_all_full (Table_Schema t) blks).
Qed.

(** X17: an [Upgrade] that returns an error because the segment is sorted,
    or because it has its maximum of blocks and one of them is not full,
    leaves the segment read-locked for good.  From then on, whatever rows
    are written into the blocks, no [CreateBlock] and no
    [SimpleCreateBlock] returns and no [Upgrade] succeeds: each of them
    waits for the exclusive lock. *)
Theorem Upgrade_error_blocks_writers w w1 tranId exIndice autoCommit err t :
  lock_free (W_seg w) ->
  Seg_Table (W_seg w) = Some t ->
  Upgrade tranId exIndice autoCommit w = Ok (Some err, w1) ->
  last_op (Seg_Base (W_seg w)) = Some OpUpgradeSorted
  \/ (Z.of_nat (length (BlockSet (W_seg w))) = int_of_uint64 (max_blocks t)
      /\ range_all_full (Table_Schema t) (BlockSet (W_seg w)) = false) ->
  forall w2, seg_mu (W_seg w2) = seg_mu (W_seg w1) ->
    (forall tranId' exIndex ac be w3, CreateBlock tranId' exIndex ac w2 <> Ok (be, w3))
    /\ (forall exIndex be w3, SimpleCreateBlock exIndex w2 <> Ok (be, w3))
    /\ (forall tranId' ex ac w3, Upgrade tranId' ex ac w2 <> Ok (None, w3)).
Proof.
  intros Hfree Ht Hrun Hcase w2 Hmu. apply read_locked_no_writer.
  exists 0%nat. rewrite Hmu. by eapply Upgrade_error_keeps_read_lock.
Qed.

Lemma Upgrade_error_blocks_writers_witness :
  exists w1,
    Upgrade 10 None true sample_half = Ok (Some UpgradeInfullSegmentErr, w1)
    /\ forall w2, seg_mu (W_seg w2) = seg_mu (W_seg w1) ->
         (forall tranId' exIndex ac be w3, CreateBlock tranId' exIndex ac w2 <> Ok (be, w3))
         /\ (forall exIndex be w3, SimpleCreateBlock exIndex w2 <> Ok (be, w3))
         /\ (forall tranId' ex ac w3, Upgrade tranId' ex ac w2 <> Ok (None, w3)).
Proof.
  eexists. split; [vm_compute; reflexivity|].
  eapply (Upgrade_error_blocks_writers sample_half _ 10 None true
            UpgradeInfullSegmentErr sample_table);
    [reflexivity|reflexivity|vm_compute; reflexivity|right; split; reflexivity].
Defined.

Lemma Upgrade_empty_indices_panics_witness :
  Upgrade 10 (Some []) true sample_full = Panic "index out of range [0] with length 0".
Proof.
  apply (Upgrade_empty_indices_panics sample_full sample_table (create_info 1) [] 10 true);
    try reflexivity.
  repeat constructor.
Defined.

(** X19: what a successful [Upgrade] has found and what it leaves.  No
    lock was held on the segment and none is held after; the last commit
    operation was Create and is UpgradeSorted; every block is full and the
    block count is the maximum of the schema; the transaction id is greater
    than the last commit id; a list of indices that was passed is not
    empty.  With [autoCommit] one entry of type ETUpgradeSegment went to
    the log, through the catalog of the table; without it the catalog is
    untouched. *)
Theorem Upgrade_success_inv w w' tranId exIndice autoCommit :
  Upgrade tranId exIndice autoCommit w = Ok (None, w') ->
  lock_free (W_seg w) /\ lock_free (W_seg w')
  /\ last_op (Seg_Base (W_seg w)) = Some OpCreate
  /\ last_op (Seg_Base (W_seg w')) = Some OpUpgradeSorted
  /\ exIndice <> Some []
  /\ (forall c, head (Commits (Seg_Base (W_seg w))) = Some c -> CommitId c < tranId)
  /\ exists t,
       Seg_Table (W_seg w) = Some t
       /\ all_full (W_seg w) t
       /\ (is_int_len (length (BlockSet (W_seg w))) -> is_uint64 (max_blocks t) ->
           block_count (W_seg w) = max_blocks t)
       /\ if autoCommit
          then Table_Catalog t = Some catalog_ref
               /\ Seq (W_cat w') = Seq (W_cat w)
               /\ exists le, Store (W_cat w') = Store (W_cat w) ++ [le]
                    /\ Meta_Type le = ETUpgradeSegment
          else W_cat w' = W_cat w.
Proof.
  unfold lock_free, seg_mu, unlocked, last_op, all_full, block_count, max_blocks.
  open_world w.
  unfold Upgrade, HasMaxBlocks, BaseEntry_IsSorted, current. run_go.
  destruct wr; [discriminate|]. simpl.
  destruct chain as [|c older]; [discriminate|]. simpl.
  case_bool_decide as Hs; simpl.
  { by case_bool_decide. }
  destruct tbl as [t|]; [|discriminate]. simpl.
  case_bool_decide as Hl; simpl; [|done].
  case_bool_decide; [done|]. simpl.
  destruct (range_all_full (Table_Schema t) blks) eqn:Hf; simpl; [|done].
  apply range_all_full_true in Hf.
  destruct rd; simpl; [|discriminate].
  destruct (Op c) eqn:Hop; simpl; [|done..].
  unfold upgrade_info, BaseEntry_onNewCommit. run_go.
  assert (is_int_len (length blks) -> is_uint64 (SegmentMaxBlocks (Table_Schema t)) ->
          N.of_nat (length blks) = SegmentMaxBlocks (Table_Schema t)) as Hcount.
  { intros ? ?. by apply int_of_uint64_eq_len. }
  destruct exIndice as [[|x0 rest]|]; simpl; [discriminate| |].
  - case_bool_decide as Hc; simpl; [discriminate|].
    destruct autoCommit; simpl.
    + destruct (Table_Catalog t) as [[]|] eqn:Hcat; simpl; [|discriminate].
      unfold Catalog_Commit, entry_ToLogEntry, Segment_IEntry, ToLogEntry, toLogEntry.
      simpl. intros ?; simplify_eq/=.
      repeat split; try done.
      * intros ? ?; simplify_eq. lia.
      * exists t. repeat split; try done. by eexists.
    + intros ?; simplify_eq/=. repeat split; try done.
      * intros ? ?; simplify_eq. lia.
      * exists t. by repeat split.
  - destruct (calcAppliedIndex _) as [[id ok]| |]; simpl; [|discriminate..].
    case_bool_decide as Hc; simpl; [discriminate|].
    destruct autoCommit; simpl.
    + destruct (Table_Catalog t) as [[]|] eqn:Hcat; simpl; [|discriminate].
      unfold Catalog_Commit, entry_ToLogEntry, Segment_IEntry, ToLogEntry, toLogEntry.
      simpl. intros ?; simplify_eq/=.
      repeat split; try done.
      * intros ? ?; simplify_eq. lia.
      * exists t. repeat split; try done. by eexists.
    + intros ?; simplify_eq/=. repeat split; try done.
      * intros ? ?; simplify_eq. lia.
      * exists t. by repeat split.
Qed.

Lemma Upgrade_success_inv_witness :
  exists w',
    Upgrade 10 None true sample_full = Ok (None, w')
    /\ lock_free (W_seg sample_full) /\ lock_free (W_seg w')
    /\ last_op (Seg_Base (W_seg sample_full)) = Some OpCreate
    /\ last_op (Seg_Base (W_seg w')) = Some OpUpgradeSorted
    /\ @None (list (option LogIndex)) <> Some []
    /\ (forall c, head (Commits (Seg_Base (W_seg sample_full))) = Some c -> CommitId c < 10)
    /\ exists t,
         Seg_Table (W_seg sample_full) = Some t
         /\ all_full (W_seg sample_full) t
         /\ (is_int_len (length (BlockSet (W_seg sample_full))) -> is_uint64 (max_blocks t) ->
             block_count (W_seg sample_full) = max_blocks t)
         /\ (Table_Catalog t = Some catalog_ref
             /\ Seq (W_cat w') = Seq (W_cat sample_full)
             /\ exists le, Store (W_cat w') = Store (W_cat sample_full) ++ [le]
                  /\ Meta_Type le = ETUpgradeSegment).
Proof.
  eexists. split; [vm_compute; reflexivity|].
  eapply (Upgrade_success_inv sample_full _ 10 None true). vm_compute. reflexivity.
Defined.

(* ------------------------------------------------------------------ *)
(** ** Transaction ids, log entries and the applied index *)

(** X20: [CreateBlock] returns only from a segment on which no lock is
    held, and leaves none.  With [autoCommit] it hands one entry of type
    ETCreateBlock to the log, through the catalog pointer of the segment;
    without it the log is untouched.  The commit chain of the segment is
    not extended. *)
Theorem CreateBlock_commit w w' be tranId exIndex autoCommit :
  CreateBlock tranId exIndex autoCommit w = Ok (be, w') ->
  lock_free (W_seg w) /\ lock_free (W_seg w')
  /\ Commits (Seg_Base (W_seg w')) = Commits (Seg_Base (W_seg w))
  /\ if autoCommit
     then Seg_Catalog (W_seg w) = Some catalog_ref
          /\ exists le, Store (W_cat w') = Store (W_cat w) ++ [le]
               /\ Meta_Type le = ETCreateBlock
     else Store (W_cat w') = Store (W_cat w).
Proof.
  unfold lock_free, seg_mu, unlocked. open_world w.
  unfold CreateBlock, newBlockEntry, onNewBlock. run_go.
  destruct tbl as [t|]; [|discriminate]. simpl.
  destruct (Table_Catalog t); [|discriminate]. simpl.
  destruct wr; [discriminate|]. destruct rd; [|discriminate]. simpl.
  destruct idx as [idx|]; [|discriminate]. simpl.
  destruct autoCommit; simpl.
  - destruct scat as [[]|]; [|discriminate]. simpl.
    unfold Catalog_Commit, entry_ToLogEntry, Block_IEntry, Block_ToLogEntry. simpl.
    intros ?; simplify_eq/=. repeat split; try done. by eexists.
  - by intros ?; simplify_eq/=.
Qed.

Lemma CreateBlock_commit_witness :
  exists be w',
    CreateBlock 12 None true sample_one = Ok (be, w')
    /\ lock_free (W_seg sample_one) /\ lock_free (W_seg w')
    /\ Commits (Seg_Base (W_seg w')) = Commits (Seg_Base (W_seg sample_one))
    /\ (Seg_Catalog (W_seg sample_one) = Some catalog_ref
        /\ exists le, Store (W_cat w') = Store (W_cat sample_one) ++ [le]
             /\ Meta_Type le = ETCreateBlock).
Proof.
  eexists _, _. split; [vm_compute; reflexivity|].
  eapply (CreateBlock_commit sample_one _ _ 12 None true). vm_compute. reflexivity.
Defined.

(** X21: [SimpleUpgrade] draws a transaction id from the catalog before it
    looks at the segment: the id is used up also when the call returns an
    error and changes nothing else.  On success it is the commit id and the
    transaction id of the record that is appended. *)
Theorem SimpleUpgrade_draws_id w w' exIndice r :
  SimpleUpgrade exIndice w = Ok (r, w') ->
  nextUncommitId (Seq (W_cat w')) = uint64_add (nextUncommitId (Seq (W_cat w))) 1
  /\ nextBlockId (Seq (W_cat w')) = nextBlockId (Seq (W_cat w))
  /\ match r with
     | Some _ =>
         Commits (Seg_Base (W_seg w')) = Commits (Seg_Base (W_seg w))
         /\ BlockSet (W_seg w') = BlockSet (W_seg w)
         /\ Store (W_cat w') = Store (W_cat w)
     | None =>
         exists info,
           Commits (Seg_Base (W_seg w')) = info :: Commits (Seg_Base (W_seg w))
           /\ CommitId info = uint64_add (nextUncommitId (Seq (W_cat w))) 1
           /\ TranId info = uint64_add (nextUncommitId (Seq (W_cat w))) 1
           /\ Op info = OpUpgradeSorted
     end.
Proof.
  unfold SimpleUpgrade. intros Hrun.
  apply bind_Ok_inv in Hrun as (tranId & w0 & Hid & Hrun).
  assert (W_seg w0 = W_seg w
          /\ tranId = uint64_add (nextUncommitId (Seq (W_cat w))) 1
          /\ nextUncommitId (Seq (W_cat w0)) = tranId
          /\ nextBlockId (Seq (W_cat w0)) = nextBlockId (Seq (W_cat w))
          /\ Store (W_cat w0) = Store (W_cat w)) as (Hseg & -> & Hnext & Hblk & Hstore).
  { revert Hid. unfold next_uncommit_id.
    destruct (Seg_Table (W_seg w)) as [t|]; [|done]. simpl.
    destruct (Table_Catalog t); [|done]. simpl. by intros ?; simplify_eq/=. }
  assert (Seq (W_cat w') = Seq (W_cat w0)) as Hseq.
  { revert Hrun. clear. open_world w0.
    unfold Upgrade, HasMaxBlocks, BaseEntry_IsSorted, current. run_go.
    destruct wr; [discriminate|]. simpl.
    destruct chain as [|c older]; [discriminate|]. simpl.
    case_bool_decide as Hs; simpl.
    { case_bool_decide; [|done]. simpl. by intros ?; simplify_eq/=. }
    destruct tbl as [t|]; [|discriminate]. simpl.
    case_bool_decide as Hl; simpl; [|by intros ?; simplify_eq/=].
    case_bool_decide; [done|]. simpl.
    destruct (range_all_full (Table_Schema t) blks); simpl; [|by intros ?; simplify_eq/=].
    destruct rd; simpl; [|discriminate].
    destruct (Op c); simpl; [|done|by intros ?; simplify_eq/=].
    unfold upgrade_info, BaseEntry_onNewCommit. run_go.
    destruct exIndice as [[|x0 rest]|]; simpl; [discriminate| |].
    - case_bool_decide; simpl; [discriminate|].
      destruct (Table_Catalog t); simpl; [|discriminate].
      unfold Catalog_Commit, entry_ToLogEntry, Segment_IEntry, ToLogEntry, toLogEntry.
      simpl. by intros ?; simplify_eq/=.
    - destruct (calcAppliedIndex _) as [[id ok]| |]; simpl; [|discriminate..].
      case_bool_decide; simpl; [discriminate|].
      destruct (Table_Catalog t); simpl; [|discriminate].
      unfold Catalog_Commit, entry_ToLogEntry, Segment_IEntry, ToLogEntry, toLogEntry.
      simpl. by intros ?; simplify_eq/=. }
  apply Upgrade_Ok_inv in Hrun as (Hblks & _ & _ & _ & _ & Hr).
  rewrite Hseq, Hnext, Hblk. split; [done|]. split; [done|].
  destruct r as [err|].
  - destruct Hr as [Hc Hcat]. by rewrite Hc, Hblks, Hcat, Hseg, Hstore.
  - destruct Hr as (info & c & older & t & Hc & _ & Hc' & (? & ? & ? & _) & _).
    exists info. rewrite Hc', <- Hseg, Hc. done.
Qed.

Lemma SimpleUpgrade_draws_id_witness :
  exists r w',
    SimpleUpgrade None sample_half = Ok (r, w')
    /\ nextUncommitId (Seq (W_cat w'))
       = uint64_add (nextUncommitId (Seq (W_cat sample_half))) 1
    /\ nextBlockId (Seq (W_cat w')) = nextBlockId (Seq (W_cat sample_half))
    /\ match r with
       | Some _ =>
           Commits (Seg_Base (W_seg w')) = Commits (Seg_Base (W_seg sample_half))
           /\ BlockSet (W_seg w') = BlockSet (W_seg sample_half)
           /\ Store (W_cat w') = Store (W_cat sample_half)
       | None =>
           exists info,
             Commits (Seg_Base (W_seg w')) = info :: Commits (Seg_Base (W_seg sample_half))
             /\ CommitId info = uint64_add (nextUncommitId (Seq (W_cat sample_half))) 1
             /\ TranId info = uint64_add (nextUncommitId (Seq (W_cat sample_half))) 1
             /\ Op info = OpUpgradeSorted
       end.
Proof.
  eexists _, _. split; [vm_compute; reflexivity|].
  eapply (SimpleUpgrade_draws_id sample_half _ None). vm_compute. reflexivity.
Defined.

Lemma calc_range_false_zero blks id :
  calc_range blks 0 false = Ok (id, false) -> id = 0.
Proof.
  induction blks as [|b rest IH]; simpl; [by intros ?; simplify_eq|].
  unfold Block_GetAppliedIndex, BaseEntry_GetAppliedIndex, current.
  destruct (head (Commits (Blk_Base b))) as [c|]; [|done]. simpl.
  destruct (AppliedIndex c); simpl; [done|]. apply IH.
Qed.

Lemma GetAppliedIndex_value w c older :
  writer (seg_mu (W_seg w)) = false ->
  Commits (Seg_Base (W_seg w)) = c :: older ->
  GetAppliedIndex true w
  = rbind (if bool_decide (Op c = OpUpgradeSorted)
           then BaseEntry_GetAppliedIndex (Seg_Base (W_seg w))
           else calcAppliedIndex (W_seg w))
      (fun r => Ok (r, w)).
Proof.
  unfold seg_mu. open_world w. intros -> ->.
  unfold GetAppliedIndex, BaseEntry_IsSorted, BaseEntry_GetAppliedIndex, current,
    calcAppliedIndex. run_go.
  destruct (bool_decide (Op c = OpUpgradeSorted)); simpl.
  - by destruct (AppliedIndex c).
  - by destruct (calc_range (rev blks) 0 false) as [[]| |].
Qed.

(** X22: an [Upgrade] without external indices keeps the applied index of
    the segment: [GetAppliedIndex] returns after it what it returned before,
    now read from the commit record instead of the blocks.  An [Upgrade]
    with external indices loses it: [GetAppliedIndex] then finds none. *)
Theorem GetAppliedIndex_after_Upgrade w w' tranId exIndice autoCommit :
  lock_free (W_seg w) ->
  Upgrade tranId exIndice autoCommit w = Ok (None, w') ->
  match exIndice with
  | None =>
      exists r, GetAppliedIndex true w = Ok (r, w) /\ GetAppliedIndex true w' = Ok (r, w')
  | Some _ => GetAppliedIndex true w' = Ok ((0, false), w')
  end.
Proof.
  intros Hfree Hrun.
  apply Upgrade_Ok_inv in Hrun
    as (_ & _ & _ & _ & _ & info & c & older & t & Hc & Hop & Hc' & Hinfo & _ & _ & _ & _ & Hmu).
  destruct Hinfo as (_ & _ & Hsorted & Hinfo).
  assert (writer (seg_mu (W_seg w)) = false) as Hwr by (by rewrite Hfree).
  assert (GetAppliedIndex true w'
          = Ok (match AppliedIndex info with
                | Some ix => (IndexId_Id (LogIndex_Id ix), true)
                | None => (0, false)
                end, w')) as Hafter.
  { rewrite (GetAppliedIndex_value w' info (c :: older)) by (by rewrite ?Hmu).
    rewrite bool_decide_eq_true_2 by done.
    unfold BaseEntry_GetAppliedIndex, current. rewrite Hc'. simpl.
    by destruct (AppliedIndex info). }
  rewrite Hafter.
  destruct exIndice as [[|x0 rest]|]; [done| |].
  - destruct Hinfo as (_ & _ & ->). done.
  - destruct Hinfo as (id & ok & Hcalc & _ & _ & ->).
    rewrite (GetAppliedIndex_value w c older) by done.
    rewrite bool_decide_eq_false_2 by (by rewrite Hop). rewrite Hcalc. simpl.
    destruct ok; simpl; [by eexists|].
    apply calc_range_false_zero in Hcalc as ->. by eexists.
Qed.

Lemma GetAppliedIndex_after_Upgrade_witness :
  exists w',
    Upgrade 10 None false sample_applied = Ok (None, w')
    /\ exists r, GetAppliedIndex true sample_applied = Ok (r, sample_applied)
         /\ GetAppliedIndex true w' = Ok (r, w').
Proof.
  eexists. split; [vm_compute; reflexivity|].
  eapply (GetAppliedIndex_after_Upgrade sample_applied _ 10 None false); [reflexivity|].
  vm_compute. reflexivity.
Defined.

(** X23: a segment as [newSegmentEntry] makes it has no block, an empty
    index and no lock held.  [Upgrade] refuses it with
    UpgradeInfullSegment under a schema whose maximum of blocks is not
    zero; under a maximum of zero it sorts it at once, with no block. *)
Theorem newSegmentEntry_Upgrade catalog table tranId0 exIndex c e c' tranId exIndice ac :
  newSegmentEntry catalog table tranId0 exIndex c = Ok (e, c') ->
  is_uint64 (max_blocks table) ->
  tranId0 < tranId ->
  exIndice <> Some [] ->
  BlockSet e = [] /\ index_consistent e /\ lock_free e
  /\ Id (Seg_Base e) = uint64_add (nextSegmentId (Seq c)) 1
  /\ exists w',
       Upgrade tranId exIndice ac {| W_cat := c'; W_seg := e |}
       = Ok (if bool_decide (max_blocks table = 0) then None
             else Some UpgradeInfullSegmentErr, w')
       /\ BlockSet (W_seg w') = []
       /\ lock_free (W_seg w').
Proof.
  unfold newSegmentEntry, max_blocks, is_uint64.
  destruct (Table_Catalog table) as [[]|] eqn:Hcat; [|done]. simpl.
  intros ? Hmax Hlt Hex; simplify_eq/=.
  split; [done|]. split.
  { exists ∅. split; [done|]. split; [by intros i blk ?|]. by intros id i ?. }
  split; [done|]. split; [done|].
  assert (bool_decide (Z.of_nat 0 = int_of_uint64 (SegmentMaxBlocks (Table_Schema table)))
          = bool_decide (SegmentMaxBlocks (Table_Schema table) = 0)) as Hzero.
  { apply bool_decide_ext. rewrite int_of_uint64_eq_len; [|done..].
    change (N.of_nat 0) with 0. split; intros Heq; by rewrite Heq. }
  unfold Upgrade, HasMaxBlocks, BaseEntry_IsSorted, current. run_go.
  simpl in Hzero. rewrite Hzero.
  destruct (bool_decide (SegmentMaxBlocks (Table_Schema table) = 0)); simpl.
  - unfold upgrade_info, BaseEntry_onNewCommit, calcAppliedIndex.
    run_go. destruct exIndice as [[|x0 rest]|]; [done| |]; simpl.
    + rewrite bool_decide_eq_false_2 by lia. simpl.
      destruct ac; simpl; [rewrite Hcat; simpl|]; by eexists.
    + rewrite bool_decide_eq_false_2 by lia. simpl.
      destruct ac; simpl; [rewrite Hcat; simpl|]; by eexists.
  - by eexists.
Qed.

Lemma newSegmentEntry_Upgrade_witness :
  exists e c',
    newSegmentEntry (Some catalog_ref) sample_table0 1 None sample_catalog = Ok (e, c')
    /\ BlockSet e = [] /\ index_consistent e /\ lock_free e
    /\ Id (Seg_Base e) = uint64_add (nextSegmentId (Seq sample_catalog)) 1
    /\ exists w',
         Upgrade 10 None true {| W_cat := c'; W_seg := e |}
         = Ok (if bool_decide (max_blocks sample_table0 = 0) then None
               else Some UpgradeInfullSegmentErr, w')
         /\ BlockSet (W_seg w') = []
         /\ lock_free (W_seg w').
Proof.
  eexists _, _. split; [vm_compute; reflexivity|].
  eapply (newSegmentEntry_Upgrade (Some catalog_ref) sample_table0 1 None sample_catalog
           _ _ 10 None true); [vm_compute; reflexivity|reflexivity|reflexivity|done].
Defined.

(* ------------------------------------------------------------------ *)
(** ** Printing *)

Lemma append_assoc (s1 s2 s3 : string) : (s1 +:+ s2) +:+ s3 = s1 +:+ (s2 +:+ s3).
Proof.
  induction s1 as [|a s1 IH]; [done|].
  change (String a ((s1 +:+ s2) +:+ s3) = String a (s1 +:+ s2 +:+ s3)). by f_equal.
Qed.

Lemma pstring_range_closed blk_s level blks s cnt tail :
  pstring_range blk_s level blks s cnt
  = (fst (pstring_range blk_s level blks s cnt), (cnt + length blks)%nat)
  /\ fst (pstring_range blk_s level blks s cnt) +:+ tail
     = s +:+ foldr (fun b acc => newline +:+ blk_s level b +:+ acc) tail blks.
Proof.
  revert s cnt. induction blks as [|b rest IH]; intros s cnt; simpl.
  - split; [by rewrite Nat.add_0_r|done].
  - destruct (IH (s +:+ newline +:+ blk_s level b) (S cnt)) as [Hcnt Hstr].
    split.
    + rewrite Hcnt at 1. simpl. f_equal. lia.
    + rewrite Hstr. by rewrite !append_assoc.
Qed.

(** X24: what [PString] prints.  A nil segment prints as "null segment".
    At a level not above [PPL0] the text is the rendering of the entry
    between "<Segment " and ">", whatever the blocks.  Above it every block
    follows on a line of its own, in the order of the block set, and the
    closing ">" stands on its own line exactly when there is a block. *)
Theorem PString_spec PPL0 base_s blk_s e level :
  PString PPL0 base_s blk_s None level = "null segment"
  /\ PString PPL0 base_s blk_s (Some e) level
     = "<Segment " +:+ base_s level (Seg_Base e)
       +:+ (if bool_decide (PPL0 < level)
            then foldr (fun b acc => newline +:+ blk_s level b +:+ acc)
                   (if bool_decide (BlockSet e = []) then ">" else newline +:+ ">")
                   (BlockSet e)
            else ">").
Proof.
  split; [done|]. unfold PString.
  destruct (bool_decide (PPL0 < level)); [|by rewrite append_assoc].
  set (s := "<Segment " +:+ base_s level (Seg_Base e)).
  destruct (pstring_range_closed blk_s level (BlockSet e) s 0
              (if bool_decide (BlockSet e = []) then ">" else newline +:+ ">"))
    as [Hcnt Hstr].
  rewrite Hcnt. simpl.
  transitivity (s +:+ foldr (fun b acc => newline +:+ blk_s level b +:+ acc)
                        (if bool_decide (BlockSet e = []) then ">" else newline +:+ ">")
                        (BlockSet e)); [|subst s; apply append_assoc].
  rewrite <- Hstr. clear Hcnt Hstr.
  destruct (BlockSet e) as [|b rest]; [done|].
  by rewrite !bool_decide_eq_false_2.
Qed.

(* ------------------------------------------------------------------ *)
(** ** What the serialized form holds *)

Lemma json_of_block_content (l1 l2 : list Block) :
  block_content <$> l1 = block_content <$> l2 ->
  json_of_block <$> l1 = json_of_block <$> l2.
Proof.
  revert l2. induction l1 as [|b1 l1 IH]; intros [|b2 l2] Heq; simplify_eq/=; [done|].
  f_equal; [|by apply IH]. unfold json_of_block, BaseEntry_fields. congruence.
Qed.

(** X25: the serialized form of a segment determines its id, its commit
    chain and, of each block, the id, the commit chain and the row count.
    Of two segments that agree on these, one of which has a block, both
    have a block and the serialized forms are the same, whatever their
    locks, tables, catalogs and indexes.  Segments without block are left
    out of the second part: a nil and an empty block set are one list here,
    and the encoder writes null for the one and an empty array for the
    other. *)
Theorem Marshal_content e1 e2 :
  (Marshal e1 = Marshal e2 ->
   Id (Seg_Base e1) = Id (Seg_Base e2)
   /\ Commits (Seg_Base e1) = Commits (Seg_Base e2)
   /\ block_content <$> BlockSet e1 = block_content <$> BlockSet e2)
  /\ (BlockSet e1 <> [] ->
      Id (Seg_Base e1) = Id (Seg_Base e2) ->
      Commits (Seg_Base e1) = Commits (Seg_Base e2) ->
      block_content <$> BlockSet e1 = block_content <$> BlockSet e2 ->
      BlockSet e2 <> [] /\ Marshal e1 = Marshal e2).
Proof.
  split.
  - intros Heq.
    pose proof (Unmarshal_Marshal e1 zero_Segment) as H1.
    pose proof (Unmarshal_Marshal e2 zero_Segment) as H2.
    rewrite Heq, H2 in H1. simplify_eq/=. repeat split; try done.
    rewrite <- (block_content_decoded [] (BlockSet e1)).
    rewrite <- (block_content_decoded [] (BlockSet e2)). congruence.
  - intros Hne Hid Hc Hb. split.
    + intros Hnil. rewrite Hnil in Hb. by apply fmap_nil_inv in Hb.
    + unfold Marshal, BaseEntry_fields.
      by rewrite Hid, Hc, (json_of_block_content _ _ Hb).
Qed.

Lemma Marshal_content_witness :
  Marshal (W_seg sample_full) = Marshal (W_seg sample_decoded)
  /\ BlockSet (W_seg sample_decoded) <> []
  /\ (Id (Seg_Base (W_seg sample_full)) = Id (Seg_Base (W_seg sample_decoded))
      /\ Commits (Seg_Base (W_seg sample_full)) = Commits (Seg_Base (W_seg sample_decoded))
      /\ block_content <$> BlockSet (W_seg sample_full)
         = block_content <$> BlockSet (W_seg sample_decoded))
  /\ IdIndex (W_seg sample_full) <> IdIndex (W_seg sample_decoded)
  /\ Seg_Table (W_seg sample_full) <> Seg_Table (W_seg sample_decoded).
Proof.
  destruct (Marshal_content (W_seg sample_full) (W_seg sample_decoded)) as [Hto Hfrom].
  destruct Hfrom as [Hne Heq]; [discriminate|reflexivity..|].
  split; [exact Heq|]. split; [exact Hne|]. split; [exact (Hto Heq)|].
  split; discriminate.
Defined.
